(** * ABMobileApp: a shallow embedding of the application base class

    The class [ABMobileApp] (an EventEmitter) owns the life cycle of one
    mobile application: [init] loads its persisted markers and status and
    starts the data bootstraps, [dc] and [dcRemote] bind data collections to
    dynamically named members, [indexLookupData] turns lookup records into a
    label index, and [queueLock] hands out one lock per key.  [reset], the
    markers ([hasMarker], [setMarker]), the stored values ([valueLoad],
    [valueSave]) and [lookupData] are embedded as well, and next to the class
    the relay model [ABModelRelay] and the start-up of the resources
    ([initResources.init]).

    The embedding follows the JavaScript source method by method.  Data are
    JSON-like values; code that can throw returns a [result]; the promise
    chain of [init] is written in a small monad of handlers that run one
    after the other ([async]); [dc] and [dcRemote] pass the instance along,
    and what the bound collection does later reaches [dcRemote] as signals. *)

From Stdlib Require Import ZArith Lia String Ascii List DecimalString.
From stdpp Require Import base option list strings gmap.

Set Warnings "-register-all".
Local Open Scope string_scope.
Local Open Scope list_scope.

(** ** JavaScript data *)

(** The values that records, storage payloads and event payloads are made of.
    Numbers are the integers, as record identifiers are: [VNum n] is the
    number the numeral [n] denotes, which is the number nearest to it (every
    integer below 2^53 is a number itself); strings are sequences of one-byte
    characters;
    an object is the list of its own enumerable properties in enumeration
    order, which is the order [Object.keys] and [for ... in] visit them.
    Members inherited from a prototype are not part of a data value. *)
Inductive value : Type :=
| VUndef
| VNull
| VBool (b : bool)
| VNum (n : Z)
| VStr (s : string)
| VArr (xs : list value)
| VObj (fields : list (string * value)).

(** What a [throw] carries.  The only exception the modelled code raises by
    itself is the TypeError of a property read on [undefined] or [null]. *)
Inductive exn : Type :=
| TypeError.

(** The outcome of synchronous code that may throw. *)
Inductive result (A : Type) : Type :=
| Ok (a : A)
| Throw (e : exn).
Arguments Ok {A} a.
Arguments Throw {A} e.

#[global] Instance result_ret : MRet result := fun A a => Ok a.
#[global] Instance result_bind : MBind result := fun A B f r =>
  match r with
  | Ok a => f a
  | Throw e => Throw e
  end.
#[global] Instance result_fmap : FMap result := fun A B f r =>
  match r with
  | Ok a => Ok (f a)
  | Throw e => Throw e
  end.

(** [array.forEach] with an accumulator: the callback may throw, which ends
    the iteration and discards the accumulator. *)
Fixpoint foldM {A B : Type} (f : B -> A -> result B) (b : B) (l : list A) : result B :=
  match l with
  | [] => Ok b
  | x :: rest => b' ← f b x; foldM f b' rest
  end.

(** [array.map] with a callback that may throw. *)
Fixpoint mapR {A B : Type} (f : A -> result B) (l : list A) : result (list B) :=
  match l with
  | [] => Ok []
  | x :: rest => y ← f x; ys ← mapR f rest; Ok (y :: ys)
  end.

(** ToBoolean. *)
Definition truthy (v : value) : bool :=
  match v with
  | VUndef | VNull => false
  | VBool b => b
  | VNum n => negb (n =? 0)%Z
  | VStr s => negb (String.eqb s "")
  | VArr _ | VObj _ => true
  end.

Definition string_of_Z (n : Z) : string := NilZero.string_of_int (Z.to_int n).

(** The number nearest to a positive integer, the even one of two that are
    as near. *)
Definition nearestNumber (m : Z) : Z :=
  let e := (Z.log2 m - 52)%Z in
  if (e <=? 0)%Z then m
  else
    let q := Z.shiftr m e in
    let r := Z.land m (Z.ones e) in
    let half := Z.shiftl 1 (e - 1) in
    let q := if (half <? r)%Z || ((r =? half)%Z && Z.odd q) then (q + 1)%Z else q in
    Z.shiftl q e.

Definition digitCount (x : Z) : Z := Z.of_nat (String.length (string_of_Z x)).

(** Number::toString looks for the fewest digits [k] such that some [s] of
    [k] digits, followed by [pos - k] zeros, is a numeral of the number [x].
    These are the [(s, pos)] there are for a given [k]. *)
Definition candidates (x k : Z) : list (Z * Z) :=
  let d := digitCount x in
  pos ← [d; (d + 1)%Z];
  let scale := (10 ^ (pos - k))%Z in
  s ← [(x / scale)%Z; (x / scale + 1)%Z];
  if (k <=? pos)%Z && (10 ^ (k - 1) <=? s)%Z && (s <? 10 ^ k)%Z
     && (nearestNumber (s * scale) =? x)%Z
  then [(s, pos)] else [].

(** Of two candidates the nearer to [x], the even one when they are as
    near. *)
Definition better (x k : Z) (a b : Z * Z) : Z * Z :=
  let da := Z.abs (a.1 * 10 ^ (a.2 - k) - x) in
  let db := Z.abs (b.1 * 10 ^ (b.2 - k) - x) in
  if (da <? db)%Z then a
  else if (db <? da)%Z then b
  else if Z.even a.1 then a else b.

Definition best (x k : Z) : option (Z * Z) :=
  match candidates x k with
  | [] => None
  | c :: cs => Some (foldl (better x k) c cs)
  end.

Fixpoint shortest (x k : Z) (fuel : nat) : option (Z * Z * Z) :=
  match fuel with
  | O => None
  | S fuel =>
      match best x k with
      | Some (s, pos) => Some (s, k, pos)
      | None => shortest x (k + 1)%Z fuel
      end
  end.

Fixpoint zeros (n : nat) : string :=
  match n with
  | O => ""
  | S n => String "0" (zeros n)
  end.

(** Number::toString of a positive number that is an integer: its decimal
    numeral below 2^53; beyond, the fewest digits that denote it (seventeen
    at most), followed by zeros up to 21 digits in all and written with an
    exponent from there on. *)
Definition numberToString (x : Z) : string :=
  if (x <? 2 ^ 53)%Z then string_of_Z x
  else
    match shortest x 1 17 with
    | None => string_of_Z x
    | Some (s, k, pos) =>
        let digits := string_of_Z s in
        if (pos <=? 21)%Z then digits +:+ zeros (Z.to_nat (pos - k))
        else
          match digits with
          | String c "" => String c "" +:+ "e+" +:+ string_of_Z (pos - 1)
          | String c rest =>
              String c "" +:+ "." +:+ rest +:+ "e+" +:+ string_of_Z (pos - 1)
          | "" => ""
          end
    end.

(** ToString of the number a numeral denotes; a numeral from 2^1024 - 2^970
    on denotes [Infinity]. *)
Definition printNumber (n : Z) : string :=
  if (n =? 0)%Z then "0"
  else
    let x := nearestNumber (Z.abs n) in
    if (2 ^ 1024 <=? x)%Z then (if (n <? 0)%Z then "-Infinity" else "Infinity")
    else (if (n <? 0)%Z then "-" else "") +:+ numberToString x.
Definition string_of_index (i : nat) : string := NilZero.string_of_uint (Nat.to_uint i).

(** ToString, as applied to a value used as a property key.  A number
    prints as Number::toString has it; an array prints its elements joined
    by commas, with [null] and [undefined] elements empty; a plain object
    prints as [[object Object]]. *)
Fixpoint ToString (v : value) : string :=
  match v with
  | VUndef => "undefined"
  | VNull => "null"
  | VBool true => "true"
  | VBool false => "false"
  | VNum n => printNumber n
  | VStr s => s
  | VArr xs =>
      (fix join (l : list value) : string :=
         match l with
         | [] => ""
         | x :: rest =>
             let elem := match x with
                         | VUndef | VNull => ""
                         | _ => ToString x
                         end in
             match rest with
             | [] => elem
             | _ :: _ => elem +:+ "," +:+ join rest
             end
         end) xs
  | VObj _ => "[object Object]"
  end.

(** The own enumerable properties of a value, in enumeration order: the
    fields of an object, the indexed elements of an array, the indexed
    characters of a string; none for the other primitives. *)
Definition entries (v : value) : list (string * value) :=
  match v with
  | VObj fields => fields
  | VArr xs => imap (fun i x => (string_of_index i, x)) xs
  | VStr s => imap (fun i c => (string_of_index i, VStr (String c ""))) (list_ascii_of_string s)
  | _ => []
  end.

(** [Object.keys(v)], and the names a [for (var f in v)] loop visits. *)
Definition keys (v : value) : list string := (entries v).*1.

Fixpoint own (k : string) (fields : list (string * value)) : option value :=
  match fields with
  | [] => None
  | (k', v) :: rest => if String.eqb k' k then Some v else own k rest
  end.

(** The property read [v[k]]: a TypeError on [undefined] and [null], the own
    property otherwise ([length] of arrays and strings included), and
    [undefined] when there is none. *)
Definition get (v : value) (k : string) : result value :=
  match v with
  | VUndef | VNull => Throw TypeError
  | VArr xs =>
      Ok (if String.eqb k "length" then VNum (Z.of_nat (length xs))
          else default VUndef (own k (entries v)))
  | VStr s =>
      Ok (if String.eqb k "length" then VNum (Z.of_nat (String.length s))
          else default VUndef (own k (entries v)))
  | _ => Ok (default VUndef (own k (entries v)))
  end.

(** [delete d[k]] on an object. *)
Definition deleteField (k : string) (v : value) : value :=
  match v with
  | VObj fields => VObj (filter (fun p => p.1 <> k) fields)
  | _ => v
  end.

(** The names every plain object inherits from [Object.prototype]; each
    holds a function, and [__proto__] the prototype itself. *)
Definition objectPrototype : list string :=
  ["constructor"; "__defineGetter__"; "__defineSetter__"; "hasOwnProperty";
   "__lookupGetter__"; "__lookupSetter__"; "isPrototypeOf"; "propertyIsEnumerable";
   "toString"; "valueOf"; "__proto__"; "toLocaleString"].

(** [s.match(/suffix$/)] for a literal suffix: the pattern is anchored at the
    end of the string and compares characters exactly (case included). *)
Definition endsWith (suffix s : string) : bool :=
  let n := String.length s in
  let m := String.length suffix in
  (m <=? n)%nat && String.eqb (substring (n - m) m s) suffix.

(** ** indexLookupData *)

(** An object the function makes with [{}] and fills by assignments
    ([results] and each [label]): its own properties, and whether an
    assignment to the name [__proto__] still reaches the setter that
    [Object.prototype] provides.  It does as long as the prototype is the
    one the object was made with, or an object that passes the setter on. *)
Record literal (V : Type) : Type := Literal {
  properties : gmap string V;
  inheritsSetter : bool
}.
Arguments Literal {V} properties inheritsSetter.
Arguments properties {V} l.
Arguments inheritsSetter {V} l.

Definition emptyLiteral {V : Type} : literal V :=
  {| properties := ∅; inheritsSetter := true |}.

(** What the inherited setter does with the value it is given: nothing when
    the value is no object; [null] leaves the object without a prototype;
    an object becomes the prototype, and then passes the setter on or not. *)
Inductive prototypeChange : Type :=
| NoChange
| NoPrototype
| NewPrototype (passesSetter : bool).

(** [o[k] = x] on such an object.  Every name but [__proto__] becomes, or
    stays, a property of the object.  The name [__proto__] reaches the
    setter while the object inherits it, whatever [x] is, and makes no
    property then; once the setter is out of reach it is a name like any
    other. *)
Definition assignTo {V : Type} (change : prototypeChange) (k : string) (x : V)
    (o : literal V) : literal V :=
  if String.eqb k "__proto__" && inheritsSetter o
  then match change with
       | NoChange => o
       | NoPrototype => {| properties := properties o; inheritsSetter := false |}
       | NewPrototype passesSetter =>
           {| properties := properties o; inheritsSetter := passesSetter |}
       end
  else {| properties := <[k := x]> (properties o); inheritsSetter := inheritsSetter o |}.

(** A data value given to the setter.  An array and an object pass the
    setter on, which they inherit themselves, unless the object has a
    property of its own called [__proto__] (as [JSON.parse] can make):
    below such a prototype an assignment to the name makes a property. *)
Definition asPrototype (v : value) : prototypeChange :=
  match v with
  | VNull => NoPrototype
  | VArr _ => NewPrototype true
  | VObj fields =>
      NewPrototype match own "__proto__" fields with
                   | Some _ => false
                   | None => true
                   end
  | _ => NoChange
  end.

(** An entry of the returned index: the label read from the record, or, for a
    record with a [translations] array, the object built from it, a map from
    language code to label. *)
Inductive lookupLabel : Type :=
| Scalar (v : value)
| ByLanguage (byCode : literal value).

(** A label given to the setter: an object built here passes the setter on
    when it has no property [__proto__] of its own and inherits the setter
    itself. *)
Definition labelAsPrototype (label : lookupLabel) : prototypeChange :=
  match label with
  | Scalar v => asPrototype v
  | ByLanguage byCode =>
      NewPrototype (inheritsSetter byCode
                    && negb (bool_decide (is_Some (properties byCode !! "__proto__"))))
  end.

(** [fieldNames.find((f) => f.match(/id$/))] *)
Definition keyFields (fieldNames : list string) : value :=
  match find (endsWith "id") fieldNames with
  | Some f => VStr f
  | None => VUndef
  end.

(** Lines 472-483: the primary key field when no truthy one was passed. *)
Definition guessPrimaryKey (item : value) : result value :=
  id ← get item "id";
  if truthy id then Ok (VStr "id")
  else get (keyFields (keys item)) "0".

(** The loop
    [for (var f in o) { labelField = f; if (f.match(/label$/)) { labelField = f; break; } }] *)
Fixpoint scanLabel (names : list string) (labelField : value) : value :=
  match names with
  | [] => labelField
  | f :: rest => if endsWith "label" f then VStr f else scanLabel rest (VStr f)
  end.

(** Lines 485-503: the label field when no truthy one was passed, from the
    first translation of the record when [item.translations] and
    [item.translations[0]] are truthy, from the record itself otherwise. *)
Definition guessLabelField (item : value) (labelField : value) : result value :=
  if truthy labelField then Ok labelField
  else
    translations ← get item "translations";
    first ← (if truthy translations then get translations "0" else Ok translations);
    if truthy first then Ok (scanLabel (keys first) labelField)
    else Ok (scanLabel (keys item) labelField).

(** [label[trans.language_code] = trans[labelField]] *)
Definition translationEntry (labelField : value) (trans : value) : result (string * value) :=
  code ← get trans "language_code";
  text ← get trans (ToString labelField);
  Ok (ToString code, text).

(** [label = {}; item.translations.forEach((trans) => { ... });] *)
Definition languageMap (labelField : value) (translations : list value)
    : result (literal value) :=
  foldM (fun label trans =>
           '(code, text) ← translationEntry labelField trans;
           Ok (assignTo (asPrototype text) code text label))
        emptyLiteral translations.

(** Lines 507-515: the label of one record. *)
Definition labelOf (labelField : value) (item : value) : result lookupLabel :=
  scalar ← get item (ToString labelField);
  translations ← get item "translations";
  match translations with
  | VArr ts => ByLanguage <$> languageMap labelField ts
  | _ => Ok (Scalar scalar)
  end.

(** The property key [item[primaryKeyField]] that the record is filed under. *)
Definition keyOf (primaryKeyField : value) (item : value) : result string :=
  ToString <$> get item (ToString primaryKeyField).

(** The body of [dataArray.forEach]: [results[item[primaryKeyField]] = label]. *)
Definition indexItem (primaryKeyField labelField : value)
    (results : literal lookupLabel) (item : value) : result (literal lookupLabel) :=
  label ← labelOf labelField item;
  key ← keyOf primaryKeyField item;
  Ok (assignTo (labelAsPrototype label) key label results).

(** The key and the label the loop body computes for a record. *)
Definition entryOf (primaryKeyField labelField : value) (item : value)
    : result (string * lookupLabel) :=
  label ← labelOf labelField item;
  key ← keyOf primaryKeyField item;
  Ok (key, label).

(** Assignments [m[k] = v] made one after the other, to a map. *)
Definition assignAll {V : Type} (assignments : list (string * V)) (m : gmap string V)
    : gmap string V :=
  foldl (fun m e => <[e.1 := e.2]> m) m assignments.

(** Assignments [o[k] = x] made one after the other, to an object made with
    [{}]; [change] tells what each value is to the setter. *)
Definition assignEach {V : Type} (change : V -> prototypeChange)
    (assignments : list (string * V)) (o : literal V) : literal V :=
  foldl (fun o e => assignTo (change e.2) e.1 e.2 o) o assignments.

(** An optional string argument whose default is [null]. *)
Definition optional (arg : option string) : value :=
  match arg with
  | Some s => VStr s
  | None => VNull
  end.

(** The two field names the indexing loop runs with, from the first record. *)
Definition resolveFields (item : value) (primaryKeyField labelField : option string)
    : result (value * value) :=
  pk ← (if truthy (optional primaryKeyField) then Ok (optional primaryKeyField)
        else guessPrimaryKey item);
  lf ← guessLabelField item (optional labelField);
  Ok (pk, lf).

(** What is returned is [results]; the index is the map of the properties
    it has by then. *)
Definition indexLookupData (dataArray : list value)
    (primaryKeyField labelField : option string) : result (gmap string lookupLabel) :=
  let item := default VUndef (dataArray !! 0) in
  if truthy item then
    '(pk, lf) ← resolveFields item primaryKeyField labelField;
    properties <$> foldM (indexItem pk lf) emptyLiteral dataArray
  else Ok ∅.

(** Neither [undefined] nor [null]: a value whose properties can be read. *)
Definition defined (v : value) : bool :=
  match v with
  | VUndef | VNull => false
  | _ => true
  end.

(** A record the indexing loop can read: it is defined, and when its
    [translations] is an array, so are the elements of that. *)
Definition readable (item : value) : bool :=
  defined item
  && match get item "translations" with
     | Ok (VArr ts) => forallb defined ts
     | _ => true
     end.

(** The first record offers a primary key: a field is passed, or [item.id]
    is truthy, or the name of a field ends in "id". *)
Definition keyFound (item : value) (primaryKeyField : option string) : bool :=
  truthy (optional primaryKeyField)
  || match get item "id" with
     | Ok id => truthy id
     | Throw _ => false
     end
  || existsb (endsWith "id") (keys item).

(** ** Promises *)

(** What a promise is rejected with: a value passed to [reject], or an
    exception thrown inside a handler or an executor. *)
Inductive reason : Type :=
| Reason (v : value)
| Thrown (e : exn).

(** The two ways an asynchronous operation settles. *)
Inductive settled (A : Type) : Type :=
| Resolved (a : A)
| Rejected (r : reason).
Arguments Resolved {A} a.
Arguments Rejected {A} r.

Definition isRejected {A : Type} (s : settled A) : bool :=
  match s with
  | Rejected _ => true
  | Resolved _ => false
  end.

(** ** Asynchronous code *)

(** The fields of the instance that [init] reads and writes. *)
Record app : Type := App {
  appId : string;
  appPage : value;
  status : value;
  _markers : value
}.

Definition setAppPage (v : value) (this : app) : app :=
  {| appId := appId this; appPage := v; status := status this; _markers := _markers this |}.
Definition setStatus (v : value) (this : app) : app :=
  {| appId := appId this; appPage := appPage this; status := v; _markers := _markers this |}.
Definition setMarkers (v : value) (this : app) : app :=
  {| appId := appId this; appPage := appPage this; status := status this; _markers := v |}.

Definition refMarkers (this : app) : string := appId this +:+ "-Markers".
Definition refStatusKey (this : app) : string := appId this +:+ "-init-status".

(** What the instance does that is seen from outside: the calls it makes to
    storage, to the timer and to the methods a subclass supplies, and the
    events it emits. *)
Inductive action : Type :=
| SetTimeout (ms : Z)
| ClearTimeout
| StorageGet (key : string)
| StorageSet (key : string) (v : value)
| InitializeRemoteData
| InitializeLocalData
| RegisterListeners
| Emit (event : string).

(** The state a run goes through: the instance, whether [initTimeout] is set
    and not cleared, and the actions so far, in order. *)
Record world : Type := World {
  self : app;
  timerSet : bool;
  log : list action
}.

(** Code that runs in a chain of promise handlers: from the world it starts
    in, how the chain settles and the world by then.  Handlers run one at a
    time; a run is the sequence in which they did. *)
Definition async (A : Type) : Type := world -> settled A * world.

#[global] Instance async_ret : MRet async := fun A a w => (Resolved a, w).

(** [p.then(f)] *)
#[global] Instance async_bind : MBind async := fun A B f p w =>
  match p w with
  | (Resolved a, w') => f a w'
  | (Rejected r, w') => (Rejected r, w')
  end.

(** [throw r], or returning a rejected promise, in a handler. *)
Definition reject {A : Type} (r : reason) : async A := fun w => (Rejected r, w).

(** [p.catch(h)] *)
Definition catch {A : Type} (p : async A) (h : reason -> async A) : async A := fun w =>
  match p w with
  | (Rejected r, w') => h r w'
  | (Resolved a, w') => (Resolved a, w')
  end.

Definition act (a : action) : async unit := fun w =>
  (Resolved tt, {| self := self w; timerSet := timerSet w; log := log w ++ [a] |}).

Definition getThis : async app := fun w => (Resolved (self w), w).

Definition modify (f : app -> app) : async unit := fun w =>
  (Resolved tt, {| self := f (self w); timerSet := timerSet w; log := log w |}).

(** A call to the outside that returns a promise: the call is made now, and
    the promise it returns settles later, as the outside decides. *)
Definition call {A : Type} (request : action) (answer : settled A) : async (async A) :=
  act request;; mret (fun w => (answer, w)).

(** [p.then(...)] on the promise a call returns. *)
Definition await {A : Type} (request : action) (answer : settled A) : async A :=
  promise ← call request answer; promise.

(** Running on although nobody waits for the outcome. *)
Definition background (ops : list (async unit)) (w : world) : world :=
  foldl (fun w op => (op w).2) w ops.

(** [Promise.all], given the promises in the order they settle: rejected with
    the first rejection, resolved when there is none. *)
Fixpoint PromiseAll (inSettleOrder : list (async unit)) : async unit :=
  match inSettleOrder with
  | [] => mret tt
  | op :: rest => fun w =>
      match op w with
      | (Resolved _, w') => PromiseAll rest w'
      | (Rejected r, w') => (Rejected r, w')
      end
  end.

(** The promises that have not settled when [Promise.all] rejects.  They are
    not cancelled: they settle later, after the handlers of the rejection
    have run. *)
Fixpoint stillPending (inSettleOrder : list (async unit)) (w : world) : list (async unit) :=
  match inSettleOrder with
  | [] => []
  | op :: rest =>
      match op w with
      | (Resolved _, w') => stillPending rest w'
      | (Rejected _, _) => rest
      end
  end.

(** A chain of handlers, followed by what ran on beside it: the operations
    that were still pending in the world the chain started in. *)
Definition andLater {A : Type} (chain : async A) (pending : world -> list (async unit))
    : async A := fun w =>
  let (settlement, w') := chain w in
  (settlement, background (pending w) w').

(** ** init *)

(** What one run of [init] meets outside the class: how each promise it waits
    for settles, which of the two pending operations settles first, and
    whether 25 seconds pass before [clearTimeout] is reached. *)
Record environment : Type := Environment {
  markersLoad : settled value;   (* storage.get(this.refMarkers()) *)
  statusLoad : settled value;    (* storage.get(this.refStatusKey()) *)
  remoteData : settled unit;     (* this.initializeRemoteData(), the subclass's *)
  statusSave : settled unit;     (* storage.set(this.refStatusKey(), "ready") *)
  localData : settled unit;      (* this.initializeLocalData(), the subclass's *)
  remoteSettlesFirst : bool;
  timerElapses : bool
}.

(** [setTimeout(() => { this.emit("init.timeout"); }, ms)] *)
Definition setTimeout (ms : Z) : async unit := fun w =>
  (Resolved tt, {| self := self w; timerSet := true; log := log w ++ [SetTimeout ms] |}).

(** The timer callback, which runs when the time has passed with the timer
    still set. *)
Definition timerGoesOff (env : environment) (w : world) : world :=
  if timerSet w && timerElapses env
  then {| self := self w; timerSet := false; log := log w ++ [Emit "init.timeout"] |}
  else w.

(** [clearTimeout(initTimeout)]; if the time has passed, the callback has run
    before. *)
Definition clearTimeout (env : environment) : async unit := fun w =>
  let w := timerGoesOff env w in
  (Resolved tt, {| self := self w; timerSet := false; log := log w ++ [ClearTimeout] |}).

(** [v == "initializing"]: a string compares by its characters, an array or
    object through its string form; no number, boolean, [null] or [undefined]
    is loosely equal to this string. *)
Definition isInitializing (v : value) : bool :=
  match v with
  | VStr _ | VArr _ | VObj _ => String.eqb (ToString v) "initializing"
  | _ => false
  end.

(** [v || fallback] *)
Definition orElse (v fallback : value) : value := if truthy v then v else fallback.

(** The method returns
    [this.initializeRemoteData().then(() => { this.status = "ready";
       this.emit("status"); return storage.set(this.refStatusKey(), "ready"); })]. *)
Definition initializeRemoteDataStatusUpdate (env : environment) : async (async unit) :=
  remote ← call InitializeRemoteData (remoteData env);
  mret (remote;;
        modify (setStatus (VStr "ready"));;
        act (Emit "status");;
        this ← getThis;
        await (StorageSet (refStatusKey this) (VStr "ready")) (statusSave env)).

(** [this.initializeLocalData().then(() => { this.registerListeners(); })] *)
Definition initializeLocalDataThenListen (env : environment) : async (async unit) :=
  local ← call InitializeLocalData (localData env);
  mret (local;; act RegisterListeners).

Definition init (page : value) (env : environment) : async unit :=
  (if truthy page then modify (setAppPage page) else mret tt);;
  setTimeout (25 * 1000);;
  this ← getThis;
  markers ← await (StorageGet (refMarkers this)) (markersLoad env);
  modify (setMarkers (orElse markers (VObj [])));;
  this ← getThis;
  stored ← await (StorageGet (refStatusKey this)) (statusLoad env);
  modify (setStatus (orElse stored (VStr "initializing")));;
  modify (setStatus (VStr "initializing"));;
  this ← getThis;
  remote ← (if isInitializing (status this)
            then op ← initializeRemoteDataStatusUpdate env; mret [op]
            else mret []);
  local ← initializeLocalDataThenListen env;
  let pendingOperations := remote ++ [local] in
  let inSettleOrder :=
    if remoteSettlesFirst env then pendingOperations else reverse pendingOperations in
  andLater (catch (PromiseAll inSettleOrder;;
                   clearTimeout env;;
                   act (Emit "dataReady"))
                  (fun err => clearTimeout env;; reject err))
           (stillPending inSettleOrder).

(** One run of [init] on an instance: how the returned promise settles, the
    instance afterwards, and the actions taken, the timer's included when it
    is left set. *)
Record run : Type := Run {
  returned : settled unit;
  final : app;
  actions : list action
}.

Definition initRun (page : value) (env : environment) (this : app) : run :=
  let (settlement, w) := init page env {| self := this; timerSet := false; log := [] |} in
  let w := timerGoesOff env w in
  {| returned := settlement; final := self w; actions := log w |}.

(** How the promise of the remote bootstrap settles. *)
Definition remoteBootstrap (env : environment) : settled unit :=
  match remoteData env with
  | Resolved _ => statusSave env
  | Rejected r => Rejected r
  end.

(** The action is [this.emit(event)]. *)
Definition isEmit (event : string) (a : action) : bool :=
  match a with
  | Emit e => String.eqb e event
  | _ => false
  end.

(** The same environment with another answer about the timer. *)
Definition withTimer (elapses : bool) (env : environment) : environment :=
  {| markersLoad := markersLoad env; statusLoad := statusLoad env;
     remoteData := remoteData env; statusSave := statusSave env;
     localData := localData env; remoteSettlesFirst := remoteSettlesFirst env;
     timerElapses := elapses |}.

(** ** queueLock *)

(** A [Lock] object is known by its identity: the rank of the [new Lock()]
    that made it. *)
Definition lock : Type := nat.

(** [this._queueLocks]: the own properties of the object, which the
    constructor makes with [{}], and the number of locks made so far. *)
Record lockRegistry : Type := LockRegistry {
  _queueLocks : gmap string lock;
  locksMade : nat
}.

(** What [this._queueLocks[key]] is when [queueLock] returns it: a lock the
    registry holds, or, for a name under which the registry holds none and
    every object inherits a member, that member of [Object.prototype]. *)
Inductive queued : Type :=
| Cached (held : lock)
| Inherited (name : string).

(** [if (!this._queueLocks[key]) { this._queueLocks[key] = new Lock(); }
    return this._queueLocks[key];]: a lock and an inherited member are both
    truthy. *)
Definition queueLock (key : string) (this : lockRegistry) : queued * lockRegistry :=
  match _queueLocks this !! key with
  | Some held => (Cached held, this)
  | None =>
      if bool_decide (key ∈ objectPrototype) then (Inherited key, this)
      else
        let made := locksMade this in
        (Cached made, {| _queueLocks := <[key := made]> (_queueLocks this);
                         locksMade := S made |})
  end.

(** ** dc and dcRemote *)

(** An [ABDataCollection] object, known by its identity. *)
Definition collection : Type := nat.

(** What a dynamically named member [this[name]] holds. *)
Inductive member : Type :=
| Data (v : value)
| Accessor (dataRef : string)   (* function () { return this[dataRef]; } *)
| Collection (c : collection)
| Method.                       (* a method of the class *)

Definition refDataField (fieldName : string) : string := "data" +:+ fieldName.
Definition refDC (fieldName : string) : string := "dc" +:+ fieldName.
Definition refMethod (fieldName : string) : string := "get" +:+ fieldName.

(** The methods of the class, which [this[name]] finds when the instance has
    no property of its own under that name.  (No member inherited from
    EventEmitter or Object has a name beginning with [dc] or [data].) *)
Definition methods : list string :=
  ["constructor"; "init"; "initRemote"; "initializeLocalData"; "initializeRemoteData";
   "initializeRemoteDataStatusUpdate"; "registerListeners"; "dc"; "dcFind"; "dcRemote";
   "lookupData"; "lookupDataRemote"; "objByID"; "indexLookupData"; "queueLock"; "reset";
   "valueLoad"; "valueSave"; "refDataField"; "refDC"; "refMarkers"; "refMethod";
   "refMethodRefresh"; "refObj"; "refStatusKey"; "refStorageField"; "hasMarker";
   "setMarker"; "$"; "pathCSS"].

(** [this[name]] over the instance's own members. *)
Definition read (this : gmap string member) (name : string) : option member :=
  match this !! name with
  | Some m => Some m
  | None => if bool_decide (name ∈ methods) then Some Method else None
  end.

(** Truthiness of [this[name]]. *)
Definition present (m : option member) : bool :=
  match m with
  | None => false
  | Some (Data v) => truthy v
  | Some _ => true
  end.

(** [this.application.findDC(id)]: the registry is the application's. *)
Definition dcFind (application : string -> option collection) (id : string)
    : option collection :=
  application id.

(** The promise [dc] returns: settled at once, or waiting for
    [c.model.local().findAll()]. *)
Inductive dcPromise : Type :=
| DcSettled (s : settled unit)
| DcFindAll (c : collection).

Definition dc (application : string -> option collection) (id fieldName : string)
    (this : gmap string member) : dcPromise * gmap string member :=
  let dataRef := refDataField fieldName in
  let this := <[dataRef := Data (VArr [])]> this in
  let methodRef := refMethod fieldName in
  let this := <[methodRef := Accessor dataRef]> this in
  let dcRef := refDC fieldName in
  let bound :=
    if present (read this dcRef) then Some this
    else match dcFind application id with
         | None => None
         | Some found => Some (<[dcRef := Collection found]> this)
         end in
  match bound with
  | None => (DcSettled (Rejected (Reason VUndef)), this)
  | Some this =>
      match read this dcRef with
      | Some (Collection c) => (DcFindAll c, this)
      | _ => (DcSettled (Rejected (Thrown TypeError)), this)
      end
  end.

(** The handlers on [findAll()]: [this[dataRef] = dcData; resolve()] and
    [reject(err)]. *)
Definition dcLoaded (fieldName : string) (found : settled value)
    (this : gmap string member) : settled unit * gmap string member :=
  match found with
  | Resolved dcData => (Resolved tt, <[refDataField fieldName := Data dcData]> this)
  | Rejected r => (Rejected r, this)
  end.

(** A call of one of the two functions the promise executor receives. *)
Inductive settlement : Type :=
| CallResolve (data : value)
| CallReject (r : reason).

(** The state one [dcRemote] call works on: the instance, the flag of its
    closure, the calls of [resolve] and [reject] so far, and the events the
    instance emitted. *)
Record binding : Type := Binding {
  instance : gmap string member;
  hasResolved : bool;
  settlements : list settlement;
  emitted : list string
}.

Definition store (name : string) (v : value) (b : binding) : binding :=
  {| instance := <[name := Data v]> (instance b); hasResolved := hasResolved b;
     settlements := settlements b; emitted := emitted b |}.

Definition emit (event : string) (b : binding) : binding :=
  {| instance := instance b; hasResolved := hasResolved b;
     settlements := settlements b; emitted := emitted b ++ [event] |}.

Definition callReject (r : reason) (b : binding) : binding :=
  {| instance := instance b; hasResolved := hasResolved b;
     settlements := settlements b ++ [CallReject r]; emitted := emitted b |}.

(** [if (!hasResolved) { hasResolved = true; resolve(data); }] *)
Definition resolveIt (data : value) (b : binding) : binding :=
  if hasResolved b then b
  else {| instance := instance b; hasResolved := true;
          settlements := settlements b ++ [CallResolve data]; emitted := emitted b |}.

(** The arguments [resolve] was called with, in order. *)
Definition resolveCalls (b : binding) : list value :=
  omap (fun s => match s with
                 | CallResolve data => Some data
                 | CallReject _ => None
                 end) (settlements b).

(** The state of the returned promise: the first call settles it. *)
Definition promised (b : binding) : option (settled value) :=
  match settlements b with
  | [] => None
  | CallResolve data :: _ => Some (Resolved data)
  | CallReject r :: _ => Some (Rejected r)
  end.

(** The flag is set exactly when [resolve] has been called, and then it has
    been called once. *)
Definition guarded (b : binding) : Prop :=
  (hasResolved b = false /\ resolveCalls b = [])
  \/ (hasResolved b = true /\ exists data, resolveCalls b = [data]).

(** What the collection does after [dcRemote] subscribed to it. *)
Inductive signal : Type :=
| PlatformInitFailed (r : reason)
    (* platformInit() rejects: loadData() is never called *)
| LoadDataSettled (failure : option reason) (initialized : bool) (webixData : list value)
    (* loadData() settles; then dataStatus == dataStatusFlag.initialized
       is [initialized] and getData() returns [webixData] *)
| DataReceived (dcData : value).
    (* the collection emits "data" *)

Section Threshold.

(** [numericAbove s bound]: the string [s], converted to a number, is
    greater than [bound] (false when it does not denote a number). *)
Variable numericAbove : string -> Z -> bool.

(** [v > bound] for an integer [bound]. *)
Definition greaterThan (v : value) (bound : Z) : bool :=
  match v with
  | VUndef => false
  | VNull => (bound <? 0)%Z
  | VBool b => (bound <? (if b then 1 else 0))%Z
  | VNum n => (bound <? n)%Z
  | VStr s => numericAbove s bound
  | VArr _ | VObj _ => numericAbove (ToString v) bound
  end.

(** [if (d.id) { if (d.id > 100000) { delete d.id; } }] *)
Definition stripHighId (d : value) : result value :=
  id ← get d "id";
  if truthy id && greaterThan id 100000 then Ok (deleteField "id" d) else Ok d.

Definition deliver (fieldName : string) (s : signal) (b : binding) : binding :=
  let dataRef := refDataField fieldName in
  let emitRef := fieldName +:+ "Updated" in
  match s with
  | PlatformInitFailed _ => b
  | LoadDataSettled failure initialized webixData =>
      let b := match failure with
               | Some r => callReject r b
               | None => b
               end in
      if initialized then
        match mapR stripHighId webixData with
        | Ok data => resolveIt (VArr data) (store dataRef (VArr data) b)
        | Throw _ => b
        end
      else b
  | DataReceived dcData =>
      resolveIt dcData (emit emitRef (store dataRef dcData b))
  end.

(** The signals of the collection, delivered in the order they occur. *)
Definition delivered (fieldName : string) (signals : list signal) (b : binding) : binding :=
  foldl (fun b s => deliver fieldName s b) b signals.

(** What a signal brings to resolve the promise with, if anything: the rows
    of a fetch that found the collection initialized, once they went
    through the stripping step, or the payload of a "data" event. *)
Definition resolution (s : signal) : option value :=
  match s with
  | PlatformInitFailed _ => None
  | LoadDataSettled _ initialized webixData =>
      if initialized then
        match mapR stripHighId webixData with
        | Ok data => Some (VArr data)
        | Throw _ => None
        end
      else None
  | DataReceived dcData => Some dcData
  end.

(** What a signal brings to reject the promise with: the failure of the
    fetch. *)
Definition rejection (s : signal) : option reason :=
  match s with
  | LoadDataSettled failure _ _ => failure
  | _ => None
  end.

End Threshold.

(** [dcRemote]: rejected at once, or a promise whose executor has run and
    subscribed to the collection. *)
Definition dcRemote (application : string -> option collection) (id fieldName : string)
    (this : gmap string member) : reason + (collection * binding) :=
  let dcRef := refDC fieldName in
  let bound :=
    if present (read this dcRef) then Some this
    else match dcFind application id with
         | None => None
         | Some found => Some (<[dcRef := Collection found]> this)
         end in
  match bound with
  | None => inl (Reason VUndef)
  | Some this =>
      match read this dcRef with
      | Some (Collection c) =>
          inr (c, {| instance := this; hasResolved := false;
                     settlements := []; emitted := [] |})
      | _ => inl (Thrown TypeError)
      end
  end.

(** ** Sample data *)

Definition exRecords : list value :=
  [VObj [("id", VNum 1); ("label", VStr "A")]; VObj [("id", VNum 2); ("label", VStr "B")]].
Definition exMulti : list value :=
  [VObj [("id", VNum 1);
         ("translations", VArr [VObj [("language_code", VStr "en"); ("label", VStr "A")];
                                VObj [("language_code", VStr "es"); ("label", VStr "Ah")]])]].
(** Two records whose primary-key value is the string "__proto__". *)
Definition exProtoKey : list value :=
  [VObj [("id", VStr "__proto__"); ("label", VStr "A")];
   VObj [("id", VStr "__proto__"); ("label", VStr "B")]].

(** A record of which one translation has the language code "__proto__". *)
Definition exProtoCode : list value :=
  [VObj [("id", VNum 1);
         ("translations",
          VArr [VObj [("language_code", VStr "__proto__"); ("label", VStr "A")];
                VObj [("language_code", VStr "en"); ("label", VStr "B")]])]].

Definition exUser : list value :=
  [VObj [("userId", VNum 7); ("label", VStr "A")]].
Definition exUserLower : list value :=
  [VObj [("userid", VNum 7); ("label", VStr "A")]].
Definition exNoKey : list value :=
  [VObj [("name", VStr "x"); ("label", VStr "A")]].
Definition exShared : list value :=
  [VObj [("id", VNum 1); ("label", VStr "A")];
   VObj [("id", VNum 2); ("label", VStr "B")];
   VObj [("id", VNum 1); ("label", VStr "C")]].


(** The instance as the constructor leaves it. *)
Definition newApp : app :=
  {| appId := "??"; appPage := VNull; status := VStr "bootup"; _markers := VUndef |}.

(** Storage holds the status "ready" and every operation succeeds. *)
Definition envReady : environment :=
  {| markersLoad := Resolved (VObj []); statusLoad := Resolved (VStr "ready");
     remoteData := Resolved tt; statusSave := Resolved tt; localData := Resolved tt;
     remoteSettlesFirst := true; timerElapses := false |}.

(** Storage fails to load the markers; the bootstraps would succeed. *)
Definition envStorageDown : environment :=
  {| markersLoad := Rejected (Reason (VStr "storage unavailable"));
     statusLoad := Resolved VNull;
     remoteData := Resolved tt; statusSave := Resolved tt; localData := Resolved tt;
     remoteSettlesFirst := true; timerElapses := false |}.

(** The local bootstrap fails, late enough for the timer to go off. *)
Definition envLocalFails : environment :=
  {| markersLoad := Resolved VNull; statusLoad := Resolved VNull;
     remoteData := Resolved tt; statusSave := Resolved tt;
     localData := Rejected (Reason (VStr "no local data"));
     remoteSettlesFirst := true; timerElapses := true |}.

(** A registry in which no lock was asked for yet. *)
Definition noLocks : lockRegistry := {| _queueLocks := ∅; locksMade := 0 |}.

(** An application that knows the collection "dc1", and one that knows none. *)
Definition oneCollection : string -> option collection :=
  fun id => if String.eqb id "dc1" then Some 0 else None.
Definition noCollection : string -> option collection := fun _ => None.

(** An instance on which the field "X" is bound already, with one row. *)
Definition boundX : gmap string member :=
  {[ "dcX" := Collection 0; "dataX" := Data (VArr [VStr "old"]) ]}.

(** An instance holding data under "dataX" that no collection is bound for. *)
Definition looseX : gmap string member :=
  {[ "dataX" := Data (VArr [VStr "old"]) ]}.

(** The state of a [dcRemote] call for the field "X" that has just subscribed
    to collection 0. *)
Definition subscribedX : binding :=
  {| instance := {[ "dcX" := Collection 0 ]}; hasResolved := false;
     settlements := []; emitted := [] |}.

(** Rows as the grid returns them: the first carries an identifier the grid
    made up, the second one from the server. *)
Definition exRows : list value :=
  [VObj [("id", VNum 200000); ("name", VStr "new")];
   VObj [("id", VNum 12); ("name", VStr "kept")]].

(** ** Further sample data *)

(** Records whose key field is found by its suffix. *)
Definition exCountries : list value :=
  [VObj [("country_id", VNum 33); ("label", VStr "France")];
   VObj [("country_id", VNum 49); ("label", VStr "Germany")]].

(** ** Registries of locks *)

(** What holds of [this._queueLocks] from the constructor on: the locks held
    are among those made, no two keys hold the same lock, and no lock was
    made that is not held. *)
Definition soundRegistry (this : lockRegistry) : Prop :=
  (forall key held, _queueLocks this !! key = Some held -> held < locksMade this)
  /\ (forall key1 key2 held,
        _queueLocks this !! key1 = Some held -> _queueLocks this !! key2 = Some held ->
        key1 = key2)
  /\ locksMade this = size (_queueLocks this).

(** ** More of the dynamically named members *)

Definition refObj (fieldName : string) : string := "obj" +:+ fieldName.
Definition refMethodRefresh (fieldName : string) : string := "refresh" +:+ fieldName.
Definition refStorageField (this : app) (fieldName : string) : string :=
  appId this +:+ "-" +:+ fieldName.

(** A call [this[name]()] of an accessor that [dc] (or [valueLoad],
    [lookupData]) installed: what it returns, [None] when [this[name]] is
    not such an accessor.  The accessor reads the data member when it is
    called, not when it was installed. *)
Definition callAccessor (this : gmap string member) (name : string)
    : option (option member) :=
  match read this name with
  | Some (Accessor dataRef) => Some (read this dataRef)
  | _ => None
  end.

(** The state of a [dcRemote] call whose executor has just run on the
    instance. *)
Definition subscribed (this : gmap string member) : binding :=
  {| instance := this; hasResolved := false; settlements := []; emitted := [] |}.

Definition isDataReceived (s : signal) : bool :=
  match s with
  | DataReceived _ => true
  | _ => false
  end.

(** An instance on which "X" and "Y" are both bound and loaded. *)
Definition boundXY : gmap string member :=
  {[ "dcX" := Collection 0; "dataX" := Data (VArr [VStr "x"]); "getX" := Accessor "dataX";
     "dcY" := Collection 1; "dataY" := Data (VArr [VStr "y"]); "getY" := Accessor "dataY" ]}.

(** ** Storage *)

(** Modelled from the spec: the persistent key-value storage of
    [../resources/Storage.js], which is not among the sources.  [get(key)]
    resolves with the value last [set] under the key, or with [null] when
    there is none.  A disk is what storage holds. *)
Definition stored (disk : gmap string value) (key : string) : value :=
  default VNull (disk !! key).

(** What a [storage.set] that succeeds leaves on the disk. *)
Definition written (a : action) (disk : gmap string value) : gmap string value :=
  match a with
  | StorageSet key v => <[key := v]> disk
  | _ => disk
  end.

(** What a run of [init] meets when storage answers from a disk and takes
    what it is given. *)
Definition environmentOn (disk : gmap string value) (this : app)
    (remote local : settled unit) (remoteFirst elapses : bool) : environment :=
  {| markersLoad := Resolved (stored disk (refMarkers this));
     statusLoad := Resolved (stored disk (refStatusKey this));
     remoteData := remote; statusSave := Resolved tt; localData := local;
     remoteSettlesFirst := remoteFirst; timerElapses := elapses |}.

(** ** reset *)

(** [storage.set(this.refStatusKey(), null).then(() => { return this.init(); })] *)
Definition reset (cleared : settled unit) (env : environment) : async unit :=
  this ← getThis;
  await (StorageSet (refStatusKey this) VNull) cleared;;
  init VUndef env.

Definition resetRun (cleared : settled unit) (env : environment) (this : app) : run :=
  let (settlement, w) := reset cleared env {| self := this; timerSet := false; log := [] |} in
  let w := timerGoesOff env w in
  {| returned := settlement; final := self w; actions := log w |}.

(** ** Markers *)

(** Whether [v[k]] is truthy.  The read throws on [undefined] and [null];
    on a plain object it finds the own property, else what the object
    inherits.  On other values it is not defined here. *)
Definition truthyAt (v : value) (k : string) : option (result bool) :=
  match v with
  | VUndef | VNull => Some (Throw TypeError)
  | VObj fields =>
      Some (Ok match own k fields with
               | Some x => truthy x
               | None => bool_decide (k ∈ objectPrototype)
               end)
  | _ => None
  end.

(** [Promise.resolve().then(() => { if (this._markers[marker]) { return true; }
    return false; })]: a throw in the handler rejects the promise.  What
    [this._markers] holds when it is no object came from storage and is no
    marker set: there [hasMarker] is not defined. *)
Definition hasMarker (marker : string) (this : app) : option (settled bool) :=
  found ← truthyAt (_markers this) marker;
  Some match found with
       | Ok b => Resolved b
       | Throw e => Rejected (Thrown e)
       end.

(** The array index a property name stands for: the decimal numeral of a
    number below 2^32 - 1, written without sign or leading zero. *)
Definition arrayIndex (k : string) : option N :=
  match NilEmpty.uint_of_string k with
  | Some d =>
      let n := N.of_uint d in
      if String.eqb (NilZero.string_of_uint (N.to_uint n)) k && (n <? 2 ^ 32 - 1)%N
      then Some n else None
  | None => None
  end.

Fixpoint replaceField (k : string) (x : value) (fields : list (string * value))
    : list (string * value) :=
  match fields with
  | [] => []
  | (k', v) :: rest =>
      if String.eqb k' k then (k', x) :: rest else (k', v) :: replaceField k x rest
  end.

Fixpoint insertIndex (n : N) (k : string) (x : value) (fields : list (string * value))
    : list (string * value) :=
  match fields with
  | [] => [(k, x)]
  | (k', v) :: rest =>
      match arrayIndex k' with
      | Some n' => if (n' <? n)%N then (k', v) :: insertIndex n k x rest
                   else (k, x) :: fields
      | None => (k, x) :: fields
      end
  end.

(** The fields of a plain object after [object[k] = x]: a property the
    object has keeps its place; a new one is enumerated among the array
    indices, in their order, when its name is one, and last otherwise.  The
    name [__proto__], when the object has no such property of its own,
    reaches the setter it inherits, which ignores a value that is neither
    an object nor [null] (and changes the prototype otherwise, which the
    fields do not tell). *)
Definition assignField (k : string) (x : value) (fields : list (string * value))
    : option (list (string * value)) :=
  match own k fields with
  | Some _ => Some (replaceField k x fields)
  | None =>
      if String.eqb k "__proto__"
      then match x with
           | VObj _ | VArr _ | VNull => None
           | _ => Some fields
           end
      else Some match arrayIndex k with
                | Some n => insertIndex n k x fields
                | None => fields ++ [(k, x)]
                end
  end.

(** The assignment [v[k] = x] in strict code, as a class body is: a
    TypeError on [undefined], on [null] and on a primitive, which takes no
    property.  An array that is given a property is no array of the data
    values any more; on arrays [assign] is not defined. *)
Definition assign (v : value) (k : string) (x : value) : option (result value) :=
  match v with
  | VObj fields => fields' ← assignField k x fields; Some (Ok (VObj fields'))
  | VArr _ => None
  | _ => Some (Throw TypeError)
  end.

(** [this._markers[marker] = "1"; return storage.set(this.refMarkers(),
    this._markers);]: the instance afterwards and the call to storage whose
    promise is returned. *)
Definition setMarker (marker : string) (this : app) : option (result (app * action)) :=
  match assign (_markers this) marker (VStr "1") with
  | None => None
  | Some (Throw e) => Some (Throw e)
  | Some (Ok markers) =>
      Some (Ok (setMarkers markers this, StorageSet (refMarkers this) markers))
  end.

(** ** valueLoad and valueSave *)

(** [valueLoad], up to the promise of [storage.get(storageRef)]: the
    accessor is installed and storage is asked. *)
Definition valueLoad (fieldName : string) (owner : app) (this : gmap string member)
    : gmap string member * action :=
  (<[refMethod fieldName := Accessor (refDataField fieldName)]> this,
   StorageGet (refStorageField owner fieldName)).

(** The handler [(value) => { this[dataRef] = value; }] on that promise. *)
Definition valueLoaded (fieldName : string) (answer : settled value)
    (this : gmap string member) : settled unit * gmap string member :=
  match answer with
  | Resolved v => (Resolved tt, <[refDataField fieldName := Data v]> this)
  | Rejected r => (Rejected r, this)
  end.

(** The value of [this[dataRef]] when it is data ([undefined] when the
    instance has no such member); [None] when the member is no data. *)
Definition currentData (this : gmap string member) (dataRef : string) : option value :=
  match read this dataRef with
  | None => Some VUndef
  | Some (Data v) => Some v
  | Some _ => None
  end.

(** [valueSave]: the members afterwards and the call
    [storage.set(storageRef, value)] whose promise is returned.  Without a
    value ([typeof value === "undefined"]) the current member is saved. *)
Definition valueSave (fieldName : string) (given : value) (owner : app)
    (this : gmap string member) : option (gmap string member * action) :=
  let dataRef := refDataField fieldName in
  saved ← (match given with
           | VUndef => currentData this dataRef
           | _ => Some given
           end);
  Some (<[dataRef := Data saved]> this,
        StorageSet (refStorageField owner fieldName) saved).

(** An instance that holds two markers. *)
Definition withMarkers : app :=
  setMarkers (VObj [("10", VStr "1"); ("seen", VStr "1")]) newApp.

(** The members of an instance the constructor has just made, among the
    names that [dc], [valueLoad] and [lookupData] use.  The constructor's
    [this.datacollections = []] is the data member of the field name
    "collections"; no other property it sets has a name that begins with
    [data], [dc], [get], [obj] or [refresh]. *)
Definition constructed : gmap string member :=
  {[ "datacollections" := Data (VArr []) ]}.

(** ** lookupData *)

(** An [ABObject], known by its identity. *)
Definition object : Type := nat.

(** What [this[name]] holds on an instance that also looks data up: a
    member as [dc] makes them, an object, or a refresh method. *)
Inductive slot : Type :=
| Held (m : member)
| Object (o : object)
| Refresh (id fieldName : string).
    (* function () { return this.lookupData(id, fieldName); } *)

Definition readSlot (this : gmap string slot) (name : string) : option slot :=
  match this !! name with
  | Some s => Some s
  | None => if bool_decide (name ∈ methods) then Some (Held Method) else None
  end.

(** Truthiness of [this[name]]. *)
Definition presentSlot (s : option slot) : bool :=
  match s with
  | None => false
  | Some (Held m) => present (Some m)
  | Some _ => true
  end.

(** [this.application.objects((o) => { return o.id == id; })[0]]: the
    registry is the application's; [undefined] when it knows no such
    object. *)
Definition objByID (application : string -> option object) (id : string) : option object :=
  application id.

(** The promise [lookupData] returns: rejected by the executor, or waiting
    for [obj.model().local().findAll()]. *)
Inductive lookupPromise : Type :=
| LookupRejected (r : reason)
| LookupFindAll (o : object).

Definition lookupData (application : string -> option object) (id fieldName : string)
    (this : gmap string slot) : lookupPromise * gmap string slot :=
  let obj := objByID application id in
  let objRef := refObj fieldName in
  let this :=
    if presentSlot (readSlot this objRef) then this
    else <[objRef := match obj with
                     | Some o => Object o
                     | None => Held (Data VUndef)
                     end]> this in
  let dataRef := refDataField fieldName in
  let this := <[dataRef := Held (Data (VArr []))]> this in
  let methodRef := refMethod fieldName in
  let this := <[methodRef := Held (Accessor dataRef)]> this in
  let methodRefreshRef := refMethodRefresh fieldName in
  let this := <[methodRefreshRef := Refresh id fieldName]> this in
  (match obj with
   | Some o => LookupFindAll o
   | None => LookupRejected (Thrown TypeError)
   end, this).

(** The handler on [findAll()]: [this[dataRef] = listEntries || [];
    resolve()].  There is none for a rejection: the promise then stays
    pending ([None]). *)
Definition lookupLoaded (fieldName : string) (found : settled value)
    (this : gmap string slot) : option (settled unit) * gmap string slot :=
  match found with
  | Resolved listEntries =>
      (Some (Resolved tt),
       <[refDataField fieldName := Held (Data (orElse listEntries (VArr [])))]> this)
  | Rejected _ => (None, this)
  end.

(** A call [this[name]()] of an accessor: what it returns, [None] when
    [this[name]] is not an accessor. *)
Definition callSlotAccessor (this : gmap string slot) (name : string)
    : option (option slot) :=
  match readSlot this name with
  | Some (Held (Accessor dataRef)) => Some (readSlot this dataRef)
  | _ => None
  end.

(** A call [this[name]()] of a refresh method: the [lookupData] call it
    makes. *)
Definition callRefresh (application : string -> option object) (this : gmap string slot)
    (name : string) : option (lookupPromise * gmap string slot) :=
  match readSlot this name with
  | Some (Refresh id fieldName) => Some (lookupData application id fieldName this)
  | _ => None
  end.

(** An application with one object, and one with two. *)
Definition oneObject (id : string) : option object :=
  if String.eqb id "obj1" then Some 0 else None.

Definition twoObjects (id : string) : option object :=
  if String.eqb id "obj1" then Some 0 else if String.eqb id "obj2" then Some 1 else None.

(** ** ABModelRelay *)

Module ABModelRelay.

(** [this.responseContext.context], as far as the class writes it. *)
Record context : Type := Context {
  verb : value;
  pk : value
}.

(** A call to [Network]: what the parameters are made from, and the
    context as it is when the call is made.  ([Network] is handed the
    object itself, which later calls of the model go on writing.) *)
Inductive request : Type :=
| NetworkPost (values : value) (sentWith : context)      (* urlParamsCreate(values) *)
| NetworkDelete (id : value) (sentWith : context)        (* urlParamsDelete(id) *)
| NetworkGet (cond : value) (sentWith : context)         (* urlParamsFind(cond) *)
| NetworkPut (id values : value) (sentWith : context).   (* urlParamsUpdate(id, values) *)

(** The model: its response context, and the calls to [Network] so far.
    [this.responseContext] is set by [ABModelCore], which is not among the
    sources; it is taken to be a property that holds one object, which is
    what the four methods read it as (each has a [cloneDeep] of it
    commented out). *)
Record relay : Type := Relay {
  responseContext : context;
  sent : list request
}.

Definition sentWith (r : request) : context :=
  match r with
  | NetworkPost _ c | NetworkDelete _ c | NetworkGet _ c | NetworkPut _ _ c => c
  end.

(** [Network.<verb>(params, responseContext).then(() => { return []; })] *)
Definition relayed (answer : settled unit) : settled value :=
  match answer with
  | Resolved _ => Resolved (VArr [])
  | Rejected r => Rejected r
  end.

Section Core.

(** What the class takes from [ABModelCore] and from its object:
    [prepareMultilingualData(values)], which works on [values] in place and
    leaves them as it answers here; the name [this.object.fieldUUID(values)]
    returns; and what [this.object.application.uuid()] returns when it is
    called. *)
Variable prepareMultilingualData : value -> result value.
Variable fieldUUID : value -> string.
Variable uuid : value.

(** The statements of [create] before its promise: the values afterwards. *)
Definition createValues (values : value) : option (result value) :=
  match prepareMultilingualData values with
  | Throw e => Some (Throw e)
  | Ok values =>
      let UUID := fieldUUID values in
      found ← truthyAt values UUID;
      match found with
      | Throw e => Some (Throw e)
      | Ok true => Some (Ok values)
      | Ok false => assign values UUID uuid
      end
  end.

(** The statements of [update] before its promise:
    [for (var key in values) { if (values[key] == null) delete values[key]; }].
    An array would be left with holes where it holds [null] or [undefined];
    there the values afterwards are not defined here. *)
Definition updateValues (values : value) : option (result value) :=
  match prepareMultilingualData values with
  | Throw e => Some (Throw e)
  | Ok (VObj fields) => Some (Ok (VObj (List.filter (fun p => defined p.2) fields)))
  | Ok (VArr xs) => if forallb defined xs then Some (Ok (VArr xs)) else None
  | Ok values => Some (Ok values)
  end.

End Core.

(** The handler of [create], for values as the statements before left
    them. *)
Definition create (values : value) (answer : settled unit) (this : relay)
    : settled value * relay :=
  let responseContext := {| verb := VStr "create"; pk := pk (responseContext this) |} in
  (relayed answer,
   {| responseContext := responseContext;
      sent := sent this ++ [NetworkPost values responseContext] |}).

(** The handler of [delete]. *)
Definition delete (id : value) (answer : settled unit) (this : relay)
    : settled value * relay :=
  if truthy id then
    let responseContext := {| verb := VStr "delete"; pk := id |} in
    (relayed answer,
     {| responseContext := responseContext;
        sent := sent this ++ [NetworkDelete id responseContext] |})
  else (Resolved (VArr []), this).

(** [findAll]: [cond = cond || {}], then the handler. *)
Definition findAll (cond : value) (answer : settled unit) (this : relay)
    : settled value * relay :=
  let cond := orElse cond (VObj []) in
  let responseContext :=
    {| verb := orElse (verb (responseContext this)) (VStr "find");
       pk := pk (responseContext this) |} in
  (relayed answer,
   {| responseContext := responseContext;
      sent := sent this ++ [NetworkGet cond responseContext] |}).

(** The handler of [update], for values as the statements before left
    them. *)
Definition update (id values : value) (answer : settled unit) (this : relay)
    : settled value * relay :=
  let responseContext := {| verb := VStr "update"; pk := pk (responseContext this) |} in
  (relayed answer,
   {| responseContext := responseContext;
      sent := sent this ++ [NetworkPut id values responseContext] |}).

(** A call of one of the four methods, with how [Network] answers it. *)
Inductive call : Type :=
| Create (values : value) (answer : settled unit)
| Delete (id : value) (answer : settled unit)
| FindAll (cond : value) (answer : settled unit)
| Update (id values : value) (answer : settled unit).

Definition handle (c : call) (this : relay) : settled value * relay :=
  match c with
  | Create values answer => create values answer this
  | Delete id answer => delete id answer this
  | FindAll cond answer => findAll cond answer this
  | Update id values answer => update id values answer this
  end.

(** The handlers of a series of calls.  Each method leaves one handler to
    run after the code that called it, and these run in the order of the
    calls. *)
Definition handled (calls : list call) (this : relay) : relay :=
  foldl (fun this c => (handle c this).2) this calls.

(** The call is a [findAll]. *)
Definition isFindAll (c : call) : bool :=
  match c with
  | FindAll _ _ => true
  | _ => false
  end.

(** The call is a [delete] with an id. *)
Definition deletes (c : call) : bool :=
  match c with
  | Delete id _ => truthy id
  | _ => false
  end.

(** The call makes a request: all do but a [delete] without an id. *)
Definition requests (c : call) : bool :=
  match c with
  | Delete id _ => truthy id
  | _ => true
  end.

End ABModelRelay.

(** A model whose context holds no verb and no key yet. *)
Definition newRelay : ABModelRelay.relay :=
  {| ABModelRelay.responseContext := {| ABModelRelay.verb := VUndef; ABModelRelay.pk := VUndef |};
     ABModelRelay.sent := [] |}.


(** ** initResources *)

Module initResources.

(** What [init] does that is seen from outside, in order. *)
Inductive step : Type :=
| AnalyticsInit                       (* analytics.init() *)
| NotificationsInit                   (* notifications.init() *)
| ConsoleLog (err : value)            (* console.log(err) *)
| Alert (text title : string)         (* $.alert(text, title) *)
| BackgroundTimeout (duration : value).

(** [(err.message || "") + "<br />" + (err.stack || "")] *)
Definition describe (err : value) : result string :=
  message ← get err "message";
  stack ← get err "stack";
  Ok (ToString (orElse message (VStr "")) +:+ "<br />" +:+ ToString (orElse stack (VStr ""))).

(** [try { start(); } catch (err) { console.log(err); $.alert(..., title); }],
    where [start()] returns or throws [err]: the steps made, and whether
    the statement completes or throws itself. *)
Definition attempt (start : step) (thrown : option value) (title : string)
    : list step * result unit :=
  match thrown with
  | None => ([start], Ok tt)
  | Some err =>
      match describe err with
      | Ok text => ([start; ConsoleLog err; Alert text title], Ok tt)
      | Throw e => ([start; ConsoleLog err], Throw e)
      end
  end.

(** [if (config.backgroundTimeout.enabled)
       backgroundTimeout(config.backgroundTimeout.duration);] *)
Definition startTimeout (config : value) : result (list step) :=
  backgroundTimeout ← get config "backgroundTimeout";
  enabled ← get backgroundTimeout "enabled";
  if truthy enabled
  then duration ← get backgroundTimeout "duration"; Ok [BackgroundTimeout duration]
  else Ok [].

(** [init], given what [analytics.init()] and [notifications.init()] throw,
    if they do: the steps made, and the promise returned unless [init]
    throws. *)
Definition init (analytics notifications : option value) (config : value)
    : list step * result (settled unit) :=
  let (first, completed) := attempt AnalyticsInit analytics "Error starting analytics system" in
  match completed with
  | Throw e => (first, Throw e)
  | Ok _ =>
      let (second, completed) :=
        attempt NotificationsInit notifications "Error starting notifications system" in
      match completed with
      | Throw e => (first ++ second, Throw e)
      | Ok _ =>
          match startTimeout config with
          | Throw e => (first ++ second, Throw e)
          | Ok third => (first ++ second ++ third, Ok (Resolved tt))
          end
      end
  end.

(** What was thrown, if anything, can be described: it is neither [null]
    nor [undefined]. *)
Definition reportable (thrown : option value) : bool :=
  match thrown with
  | Some err => defined err
  | None => true
  end.

(** The configuration has a [backgroundTimeout] section. *)
Definition configured (config : value) : bool :=
  match get config "backgroundTimeout" with
  | Ok backgroundTimeout => defined backgroundTimeout
  | Throw _ => false
  end.

Definition alerts (steps : list step) : list string :=
  omap (fun s => match s with
                 | Alert _ title => Some title
                 | _ => None
                 end) steps.

End initResources.

(** * Properties *)

(** ** The error monad and the loops *)

Lemma mapR_lookup {A B : Type} (f : A -> result B) (l : list A) (ys : list B) :
  mapR f l = Ok ys ->
  length ys = length l /\
  forall i x, l !! i = Some x -> exists y, f x = Ok y /\ ys !! i = Some y.
Proof.
  revert ys. induction l as [|a l IH]; intros ys H; simpl in H.
  - inversion H; subst. split; [reflexivity|]. intros i x Hx. discriminate.
  - destruct (f a) as [y|e] eqn:Ha; simpl in H; [|discriminate].
    destruct (mapR f l) as [ys'|e] eqn:Hl; simpl in H; [|discriminate].
    inversion H; subst. destruct (IH ys' eq_refl) as [Hlen Hall].
    split; [simpl; congruence|].
    intros [|i] x Hx; simpl in Hx.
    + inversion Hx; subst. exists y. split; [assumption|reflexivity].
    + apply Hall. assumption.
Qed.

Lemma mapR_lookup_inv {A B : Type} (f : A -> result B) (l : list A) (ys : list B) i y :
  mapR f l = Ok ys -> ys !! i = Some y -> exists x, l !! i = Some x /\ f x = Ok y.
Proof.
  intros H Hy. destruct (mapR_lookup f l ys H) as [Hlen Hall].
  destruct (l !! i) as [x|] eqn:Hx.
  - destruct (Hall i x Hx) as (y' & Hf & Hy'). exists x. split; congruence.
  - apply lookup_ge_None in Hx. apply lookup_lt_Some in Hy. lia.
Qed.

Lemma assignAll_app {V : Type} (es1 es2 : list (string * V)) (m : gmap string V) :
  assignAll (es1 ++ es2) m = assignAll es2 (assignAll es1 m).
Proof. unfold assignAll. apply foldl_app. Qed.

Lemma assignAll_unassigned {V : Type} (es : list (string * V)) (m : gmap string V) k :
  (forall e, e ∈ es -> e.1 <> k) -> assignAll es m !! k = m !! k.
Proof.
  revert m. induction es as [|e es IH]; intros m H; [reflexivity|].
  change (assignAll (e :: es) m) with (assignAll es (<[e.1 := e.2]> m)).
  rewrite IH.
  - apply lookup_insert_ne. apply H. left.
  - intros e' He'. apply H. right. assumption.
Qed.

(** The last assignment to a key is the one the map keeps. *)
Lemma assignAll_last {V : Type} (es : list (string * V)) (m : gmap string V) i k v :
  es !! i = Some (k, v) ->
  (forall j e, i < j -> es !! j = Some e -> e.1 <> k) ->
  assignAll es m !! k = Some v.
Proof.
  intros Hi Hlast.
  rewrite <- (take_drop_middle es i (k, v) Hi), assignAll_app.
  change (assignAll ((k, v) :: drop (S i) es) ?m0)
    with (assignAll (drop (S i) es) (<[k := v]> m0)).
  rewrite assignAll_unassigned.
  - apply lookup_insert_eq.
  - intros e He. apply list_elem_of_lookup in He as [n Hn].
    rewrite lookup_drop in Hn. apply (Hlast (S i + n)); [lia|assumption].
Qed.

(** The keys of the map are the keys it had and the keys assigned. *)
Lemma assignAll_is_Some {V : Type} (es : list (string * V)) (m : gmap string V) k :
  is_Some (assignAll es m !! k) <-> is_Some (m !! k) \/ exists e, e ∈ es /\ e.1 = k.
Proof.
  revert m. induction es as [|e es IH]; intros m.
  - simpl. split; [tauto|]. intros [H|(e & He & _)]; [assumption|]. inversion He.
  - change (assignAll (e :: es) m) with (assignAll es (<[e.1 := e.2]> m)).
    rewrite IH. rewrite lookup_insert. split.
    + intros [H|(e' & He' & Hk)].
      * case_decide as Hd; [|left; exact H]. right. exists e. split; [left|exact Hd].
      * right. exists e'. split; [right; exact He'|exact Hk].
    + intros [H|(e' & He' & Hk)].
      * left. case_decide; [eauto|exact H].
      * apply elem_of_cons in He' as [->|He'].
        -- left. rewrite decide_True by exact Hk. eauto.
        -- right. exists e'. split; assumption.
Qed.

Lemma foldM_ext {A B : Type} (f g : B -> A -> result B) (b : B) (l : list A) :
  (forall b x, f b x = g b x) -> foldM f b l = foldM g b l.
Proof.
  intros H. revert b. induction l as [|x l IH]; intros b; simpl; [reflexivity|].
  rewrite H. destruct (g b x); simpl; [apply IH|reflexivity].
Qed.

(** ** Objects used as maps *)

(** A loop whose body assigns one computed entry to an object is the list of
    the entries, assigned in order; it throws exactly when computing some
    entry does. *)
Lemma foldM_assignEach {A V : Type} (change : V -> prototypeChange)
    (f : A -> result (string * V)) (l : list A) (o o' : literal V) :
  foldM (fun o x => e ← f x; Ok (assignTo (change e.2) e.1 e.2 o)) o l = Ok o' <->
  exists es, mapR f l = Ok es /\ o' = assignEach change es o.
Proof.
  revert o. induction l as [|a l IH]; intros o; simpl.
  - split.
    + intros H. inversion H; subst. exists []. split; reflexivity.
    + intros (es & H & ->). inversion H; subst. reflexivity.
  - destruct (f a) as [e|x] eqn:Ha; simpl.
    + rewrite IH. split.
      * intros (es & H & ->). exists (e :: es). rewrite H. split; reflexivity.
      * intros (es & H & ->). destruct (mapR f l) as [es'|] eqn:Hl; simpl in H; [|discriminate].
        inversion H; subst. exists es'. split; reflexivity.
    + split; [discriminate|]. intros (es & H & _). discriminate.
Qed.

Lemma assignAll_lookup_ext {V : Type} (es : list (string * V)) (m1 m2 : gmap string V) k :
  m1 !! k = m2 !! k -> assignAll es m1 !! k = assignAll es m2 !! k.
Proof.
  revert m1 m2. induction es as [|e es IH]; intros m1 m2 H; [exact H|].
  change (assignAll (e :: es) m1) with (assignAll es (<[e.1 := e.2]> m1)).
  change (assignAll (e :: es) m2) with (assignAll es (<[e.1 := e.2]> m2)).
  apply IH. rewrite !lookup_insert. case_decide; [reflexivity|exact H].
Qed.

(** Under every name but [__proto__] an assignment to the object is an
    assignment to the map of its properties. *)
Lemma assignTo_lookup {V : Type} (change : prototypeChange) (k : string) (x : V)
    (o : literal V) (k' : string) :
  k' <> "__proto__" ->
  properties (assignTo change k x o) !! k' = <[k := x]> (properties o) !! k'.
Proof.
  intros Hk'. unfold assignTo. destruct (String.eqb_spec k "__proto__") as [->|Hk]; cbn [andb].
  - destruct (inheritsSetter o); [|reflexivity].
    rewrite lookup_insert_ne by (apply not_eq_sym; exact Hk'). destruct change; reflexivity.
  - reflexivity.
Qed.

Lemma assignEach_lookup {V : Type} (change : V -> prototypeChange)
    (es : list (string * V)) (o : literal V) (k : string) :
  k <> "__proto__" ->
  properties (assignEach change es o) !! k = assignAll es (properties o) !! k.
Proof.
  intros Hk. revert o. induction es as [|e es IH]; intros o; [reflexivity|].
  change (assignEach change (e :: es) o)
    with (assignEach change es (assignTo (change e.2) e.1 e.2 o)).
  change (assignAll (e :: es) (properties o))
    with (assignAll es (<[e.1 := e.2]> (properties o))).
  rewrite IH. apply assignAll_lookup_ext. apply assignTo_lookup. exact Hk.
Qed.

Lemma assignTo_plain {V : Type} (change : prototypeChange) (k : string) (x : V)
    (o : literal V) :
  k <> "__proto__" ->
  assignTo change k x o
  = {| properties := <[k := x]> (properties o); inheritsSetter := inheritsSetter o |}.
Proof. intros Hk. unfold assignTo. apply String.eqb_neq in Hk. rewrite Hk. reflexivity. Qed.

(** Where no assignment is to the name [__proto__], the object is the map. *)
Lemma assignEach_plain {V : Type} (change : V -> prototypeChange)
    (es : list (string * V)) (o : literal V) :
  Forall (fun e => e.1 <> "__proto__") es ->
  assignEach change es o
  = {| properties := assignAll es (properties o); inheritsSetter := inheritsSetter o |}.
Proof.
  intros H. revert o. induction H as [|e es He _ IH]; intros o; [destruct o; reflexivity|].
  change (assignEach change (e :: es) o)
    with (assignEach change es (assignTo (change e.2) e.1 e.2 o)).
  rewrite (assignTo_plain _ _ _ _ He), IH. reflexivity.
Qed.

(** An assignment leaves every property as it is or makes it the value
    assigned; it adds one property at most. *)
Lemma assignTo_origin {V : Type} (change : prototypeChange) (k : string) (x : V)
    (o : literal V) (k' : string) (v : V) :
  properties (assignTo change k x o) !! k' = Some v ->
  properties o !! k' = Some v \/ (k', v) = (k, x).
Proof.
  unfold assignTo. destruct (String.eqb k "__proto__" && inheritsSetter o).
  - destruct change; cbn [properties]; intros H; left; exact H.
  - cbn [properties]. intros H. apply lookup_insert_Some in H as [[<- <-]|[_ H]]; auto.
Qed.

Lemma assignTo_size {V : Type} (change : prototypeChange) (k : string) (x : V)
    (o : literal V) :
  size (properties (assignTo change k x o)) <= S (size (properties o)).
Proof.
  unfold assignTo. destruct (String.eqb k "__proto__" && inheritsSetter o).
  - destruct change; cbn [properties]; apply Nat.le_succ_diag_r.
  - cbn [properties]. destruct (properties o !! k) as [y|] eqn:Hk.
    + rewrite map_size_insert_Some by eauto. apply Nat.le_succ_diag_r.
    + rewrite map_size_insert_None by exact Hk. apply Nat.le_refl.
Qed.

Lemma assignEach_origin {V : Type} (change : V -> prototypeChange)
    (es : list (string * V)) (o : literal V) (k : string) (v : V) :
  properties (assignEach change es o) !! k = Some v ->
  properties o !! k = Some v \/ (k, v) ∈ es.
Proof.
  revert o. induction es as [|e es IH]; intros o H; [left; exact H|].
  change (assignEach change (e :: es) o)
    with (assignEach change es (assignTo (change e.2) e.1 e.2 o)) in H.
  apply IH in H as [H|H]; [|right; right; exact H].
  apply assignTo_origin in H as [H|H]; [left; exact H|].
  right. rewrite H. destruct e. left.
Qed.

Lemma assignEach_size {V : Type} (change : V -> prototypeChange)
    (es : list (string * V)) (o : literal V) :
  size (properties (assignEach change es o)) <= size (properties o) + length es.
Proof.
  revert o. induction es as [|e es IH]; intros o.
  - change (assignEach change [] o) with o. apply Nat.le_add_r.
  - change (assignEach change (e :: es) o)
      with (assignEach change es (assignTo (change e.2) e.1 e.2 o)).
    pose proof (IH (assignTo (change e.2) e.1 e.2 o)) as Hrest.
    pose proof (assignTo_size (change e.2) e.1 e.2 o) as Hone.
    cbn [length]. lia.
Qed.

(** ** indexLookupData *)

Lemma indexItem_entryOf pk lf (results : literal lookupLabel) item :
  indexItem pk lf results item
  = e ← entryOf pk lf item; Ok (assignTo (labelAsPrototype e.2) e.1 e.2 results).
Proof.
  unfold indexItem, entryOf.
  destruct (labelOf lf item) as [l|]; simpl; [|reflexivity].
  destruct (keyOf pk item) as [k|]; reflexivity.
Qed.

(** The indexing loop leaves the object to which the records' entries were
    assigned in array order. *)
Lemma forEach_indexItem pk lf dataArray (results : literal lookupLabel) :
  foldM (indexItem pk lf) emptyLiteral dataArray = Ok results <->
  exists es, mapR (entryOf pk lf) dataArray = Ok es
             /\ results = assignEach labelAsPrototype es emptyLiteral.
Proof.
  rewrite <- foldM_assignEach. erewrite foldM_ext; [reflexivity|].
  intros b x. apply indexItem_entryOf.
Qed.

Lemma languageMap_entries lf ts (byCode : literal value) :
  languageMap lf ts = Ok byCode <->
  exists es, mapR (translationEntry lf) ts = Ok es
             /\ byCode = assignEach asPrototype es emptyLiteral.
Proof.
  rewrite <- foldM_assignEach. unfold languageMap. erewrite foldM_ext; [reflexivity|].
  intros b x. simpl. destruct (translationEntry lf x) as [[c t]|]; reflexivity.
Qed.

Lemma entryOf_Ok pk lf item key label :
  entryOf pk lf item = Ok (key, label) <->
  keyOf pk item = Ok key /\ labelOf lf item = Ok label.
Proof.
  unfold entryOf.
  destruct (labelOf lf item) as [l|]; simpl; [|split; [discriminate|intros [_ ?]; discriminate]].
  destruct (keyOf pk item) as [k|]; simpl; [|split; [discriminate|intros [? _]; discriminate]].
  split; [intros H; inversion H; subst; split; reflexivity|].
  intros [H1 H2]. inversion H1; inversion H2; subst. reflexivity.
Qed.

(** When the first element is truthy, a call that returns has resolved the two
    field names from it and run the loop with them. *)
Lemma indexLookupData_Ok dataArray primaryKeyField labelField results :
  indexLookupData dataArray primaryKeyField labelField = Ok results ->
  truthy (default VUndef (dataArray !! 0)) = true ->
  exists pk lf es,
    resolveFields (default VUndef (dataArray !! 0)) primaryKeyField labelField = Ok (pk, lf) /\
    mapR (entryOf pk lf) dataArray = Ok es /\
    results = properties (assignEach labelAsPrototype es emptyLiteral).
Proof.
  unfold indexLookupData. intros H Ht. rewrite Ht in H.
  destruct (resolveFields _ _ _) as [[pk lf]|]; simpl in H; [|discriminate].
  destruct (foldM (indexItem pk lf) emptyLiteral dataArray) as [built|] eqn:Hbuilt;
    simpl in H; [|discriminate].
  injection H as <-. apply forEach_indexItem in Hbuilt as (es & Hes & ->).
  exists pk, lf, es. split; [reflexivity|]. split; [assumption|reflexivity].
Qed.

Example indexLookupData_empty (primaryKeyField labelField : option string) :
  indexLookupData [] primaryKeyField labelField = Ok ∅.
Proof. reflexivity. Qed.

Example indexLookupData_two_records :
  indexLookupData exRecords None None
  = Ok {[ "1" := Scalar (VStr "A"); "2" := Scalar (VStr "B") ]}.
Proof. vm_compute. reflexivity. Qed.

(** A record that no later record shares its key with is found in the index
    under its key, with its label, unless the key is [__proto__]. *)
Lemma indexed_record pk lf dataArray es i item :
  mapR (entryOf pk lf) dataArray = Ok es ->
  dataArray !! i = Some item ->
  exists key label,
    keyOf pk item = Ok key /\ labelOf lf item = Ok label /\
    (key <> "__proto__" ->
     (forall j later, i < j -> dataArray !! j = Some later -> keyOf pk later <> Ok key) ->
     properties (assignEach labelAsPrototype es emptyLiteral) !! key = Some label).
Proof.
  intros Hes Hi.
  destruct (mapR_lookup _ _ _ Hes) as [_ Hall].
  destruct (Hall i item Hi) as ([key label] & He & Hei).
  apply entryOf_Ok in He as [Hk Hl].
  exists key, label. split; [exact Hk|]. split; [exact Hl|].
  intros Hkey Hlast. rewrite (assignEach_lookup _ _ _ _ Hkey).
  apply (assignAll_last es ∅ i key label Hei).
  intros j [k' l'] Hij Hj Heq. simpl in Heq. subst k'.
  destruct (mapR_lookup_inv _ _ _ j _ Hes Hj) as (later & Hlater & He').
  apply entryOf_Ok in He' as [Hk' _].
  exact (Hlast j later Hij Hlater Hk').
Qed.

Lemma translationEntry_Ok lf trans c t :
  translationEntry lf trans = Ok (c, t) ->
  exists code, get trans "language_code" = Ok code /\ c = ToString code /\
               get trans (ToString lf) = Ok t.
Proof.
  unfold translationEntry.
  destruct (get trans "language_code") as [code|]; simpl; [|discriminate].
  destruct (get trans (ToString lf)) as [text|]; simpl; [|discriminate].
  intros H. inversion H; subst. exists code. repeat split; reflexivity.
Qed.

(** The object built from a [translations] array holds each translation's
    label under its language code, the last one when a code occurs again,
    unless the code is [__proto__]. *)
Lemma languageMap_translation lf ts (byCode : literal value) n trans :
  languageMap lf ts = Ok byCode ->
  ts !! n = Some trans ->
  exists code text,
    get trans "language_code" = Ok code /\
    get trans (ToString lf) = Ok text /\
    (ToString code <> "__proto__" ->
     (forall m later, n < m -> ts !! m = Some later ->
                      ToString <$> get later "language_code" <> Ok (ToString code)) ->
     properties byCode !! ToString code = Some text).
Proof.
  intros Hmap Hn. apply languageMap_entries in Hmap as (es & Hes & ->).
  destruct (mapR_lookup _ _ _ Hes) as [_ Hall].
  destruct (Hall n trans Hn) as ([c t] & He & Hen).
  apply translationEntry_Ok in He as (code & Hcode & -> & Htext).
  exists code, t. split; [exact Hcode|]. split; [exact Htext|].
  intros Hproto Hlast. rewrite (assignEach_lookup _ _ _ _ Hproto).
  apply (assignAll_last es ∅ n _ _ Hen).
  intros m [c' t'] Hnm Hm Heq. simpl in Heq.
  destruct (mapR_lookup_inv _ _ _ m _ Hes Hm) as (later & Hlater & He').
  apply translationEntry_Ok in He' as (code' & Hcode' & -> & _).
  apply (Hlast m later Hnm Hlater). rewrite Hcode'. simpl. congruence.
Qed.

(** *** When the call returns *)

Lemma get_defined (v : value) (k : string) :
  defined v = true -> exists x, get v k = Ok x.
Proof. destruct v; simpl; intros H; try discriminate H; eauto. Qed.

Lemma truthy_defined (v : value) : truthy v = true -> defined v = true.
Proof. destruct v; simpl; intros H; try discriminate H; reflexivity. Qed.

Lemma mapR_total {A B : Type} (f : A -> result B) (l : list A) :
  Forall (fun x => exists y, f x = Ok y) l -> exists ys, mapR f l = Ok ys.
Proof.
  induction 1 as [|x l [y Hy] _ [ys Hys]]; simpl.
  - exists []. reflexivity.
  - rewrite Hy, Hys. exists (y :: ys). reflexivity.
Qed.

Lemma existsb_find {A : Type} (f : A -> bool) (l : list A) :
  existsb f l = true -> exists x, find f l = Some x.
Proof.
  induction l as [|a l IH]; simpl; [discriminate|].
  destruct (f a); [eauto|exact IH].
Qed.

Lemma guessLabelField_total (item labelField : value) :
  truthy item = true -> exists lf, guessLabelField item labelField = Ok lf.
Proof.
  intros Hitem. unfold guessLabelField. destruct (truthy labelField); [eauto|].
  destruct (get_defined item "translations" (truthy_defined _ Hitem)) as [translations ->].
  simpl. destruct (truthy translations) eqn:Ht.
  - destruct (get_defined translations "0" (truthy_defined _ Ht)) as [first ->].
    simpl. destruct (truthy first); eauto.
  - simpl. rewrite Ht. eauto.
Qed.

Lemma resolveFields_total (item : value) (primaryKeyField labelField : option string) :
  truthy item = true ->
  keyFound item primaryKeyField = true ->
  exists pk lf, resolveFields item primaryKeyField labelField = Ok (pk, lf).
Proof.
  intros Hitem Hkey. unfold resolveFields.
  destruct (guessLabelField_total item (optional labelField) Hitem) as [lf Hlf].
  assert (exists pk, (if truthy (optional primaryKeyField)
                      then Ok (optional primaryKeyField)
                      else guessPrimaryKey item) = Ok pk) as [pk ->].
  { unfold keyFound in Hkey. destruct (truthy (optional primaryKeyField)); [eauto|].
    unfold guessPrimaryKey.
    destruct (get_defined item "id" (truthy_defined _ Hitem)) as [id Hid].
    rewrite Hid in *. simpl in *. destruct (truthy id); [eauto|].
    simpl in Hkey. apply existsb_find in Hkey as [f Hf].
    unfold keyFields. rewrite Hf. apply get_defined. reflexivity. }
  simpl. rewrite Hlf. simpl. eauto.
Qed.

Lemma languageMap_total (lf : value) (ts : list value) :
  forallb defined ts = true -> exists byCode, languageMap lf ts = Ok byCode.
Proof.
  intros Hts.
  destruct (mapR_total (translationEntry lf) ts) as [es Hes].
  - apply Forall_forall. intros trans Hin.
    rewrite forallb_forall in Hts. apply list_elem_of_In in Hin. specialize (Hts trans Hin).
    unfold translationEntry.
    destruct (get_defined trans "language_code" Hts) as [code ->].
    destruct (get_defined trans (ToString lf) Hts) as [text ->].
    simpl. eauto.
  - exists (assignEach asPrototype es emptyLiteral). apply languageMap_entries. eauto.
Qed.

Lemma entryOf_total (pk lf item : value) :
  readable item = true -> exists e, entryOf pk lf item = Ok e.
Proof.
  unfold readable. intros H. apply andb_true_iff in H as [Hdef Hts].
  unfold entryOf, labelOf, keyOf.
  destruct (get_defined item (ToString lf) Hdef) as [scalar ->].
  destruct (get_defined item "translations" Hdef) as [translations Htr].
  destruct (get_defined item (ToString pk) Hdef) as [key ->].
  rewrite Htr in *. simpl.
  destruct translations as [| | | | |ts|]; simpl; eauto.
  destruct (languageMap_total lf ts Hts) as [byCode ->]. simpl. eauto.
Qed.

(** The call returns an index on an array of readable records whose first
    record is truthy and offers a primary key. *)
Lemma indexLookupData_returns dataArray primaryKeyField labelField :
  truthy (default VUndef (dataArray !! 0)) = true ->
  keyFound (default VUndef (dataArray !! 0)) primaryKeyField = true ->
  forallb readable dataArray = true ->
  exists results, indexLookupData dataArray primaryKeyField labelField = Ok results.
Proof.
  intros Hitem Hkey Hread. unfold indexLookupData. rewrite Hitem.
  destruct (resolveFields_total _ primaryKeyField labelField Hitem Hkey) as (pk & lf & ->).
  simpl.
  destruct (mapR_total (entryOf pk lf) dataArray) as [es Hes].
  - apply Forall_forall. intros item Hin. apply entryOf_total.
    rewrite forallb_forall in Hread. apply list_elem_of_In in Hin. exact (Hread item Hin).
  - exists (properties (assignEach labelAsPrototype es emptyLiteral)).
    assert (foldM (indexItem pk lf) emptyLiteral dataArray
            = Ok (assignEach labelAsPrototype es emptyLiteral)) as ->
      by (apply forEach_indexItem; eauto).
    reflexivity.
Qed.

(** Of several records with one primary-key value the index keeps the label
    of the last, and its keys are the keys of the records: this holds for
    every key but [__proto__], on every array whose first element is truthy
    and on which the call returns.  (A primary-key value is used as a
    property key, so two values are the same key when they print the same.) *)
Lemma indexLookupData_keeps_last_record
    (dataArray : list value) (primaryKeyField labelField : option string)
    (results : gmap string lookupLabel) :
  indexLookupData dataArray primaryKeyField labelField = Ok results ->
  truthy (default VUndef (dataArray !! 0)) = true ->
  exists pk lf,
    resolveFields (default VUndef (dataArray !! 0)) primaryKeyField labelField = Ok (pk, lf) /\
    (forall i item, dataArray !! i = Some item ->
       exists key label,
         keyOf pk item = Ok key /\ labelOf lf item = Ok label /\
         (key <> "__proto__" ->
          (forall j later, i < j -> dataArray !! j = Some later -> keyOf pk later <> Ok key) ->
          results !! key = Some label)) /\
    (forall key, key <> "__proto__" ->
       (is_Some (results !! key) <->
        exists item, item ∈ dataArray /\ keyOf pk item = Ok key)).
Proof.
  intros H Ht.
  destruct (indexLookupData_Ok _ _ _ _ H Ht) as (pk & lf & es & Hres & Hes & ->).
  exists pk, lf. split; [exact Hres|]. split.
  - intros i item Hi. exact (indexed_record pk lf dataArray es i item Hes Hi).
  - intros key Hkey. rewrite (assignEach_lookup _ _ _ _ Hkey).
    cbn [properties emptyLiteral]. rewrite assignAll_is_Some, lookup_empty. split.
    + intros [[? Hn]|([k l] & He & Hk)]; [discriminate|]. simpl in Hk. subst k.
      apply list_elem_of_lookup in He as [i Hi].
      destruct (mapR_lookup_inv _ _ _ i _ Hes Hi) as (item & Hitem & He).
      apply entryOf_Ok in He as [Hk _].
      exists item. split; [|exact Hk]. apply list_elem_of_lookup. eauto.
    + intros (item & Hin & Hk). right.
      apply list_elem_of_lookup in Hin as [i Hi].
      destruct (mapR_lookup _ _ _ Hes) as [_ Hall].
      destruct (Hall i item Hi) as ([k l] & He & Hei).
      apply entryOf_Ok in He as [Hk' _].
      exists (k, l). split; [apply list_elem_of_lookup; eauto|].
      simpl. congruence.
Qed.

(** C10 (the code departs from it).  Two records share the primary-key value
    "__proto__", with the labels "A" and "B".  The call works with the fields
    [id] and [label] and returns an index without any entry: the assignment
    [results["__proto__"] = label] reaches the setter every object inherits,
    which ignores a string.  The same code indexes the records of an array
    that share the key 1 under that key, with the label of the last. *)
Theorem indexLookupData_proto_key_has_no_entry :
  Forall (fun item => keyOf (VStr "id") item = Ok "__proto__") exProtoKey
  /\ (exists first last,
        exProtoKey = [first; last]
        /\ labelOf (VStr "label") first = Ok (Scalar (VStr "A"))
        /\ labelOf (VStr "label") last = Ok (Scalar (VStr "B")))
  /\ resolveFields (default VUndef (exProtoKey !! 0)) None None
     = Ok (VStr "id", VStr "label")
  /\ indexLookupData exProtoKey None None = Ok ∅
  /\ indexLookupData exShared None None
     = Ok {[ "1" := Scalar (VStr "C"); "2" := Scalar (VStr "B") ]}.
Proof.
  split; [repeat constructor|].
  split; [eexists _, _; split; [reflexivity|]; split; reflexivity|].
  split; [reflexivity|]. split; vm_compute; reflexivity.
Qed.

(** The object built for a record with a [translations] array holds each
    translation's label under its language code, the last one when a code
    occurs again, and nothing else: this holds for every code but
    [__proto__]. *)
Lemma languageMap_keeps_last_translation lf ts (byCode : literal value) :
  languageMap lf ts = Ok byCode ->
  (forall n trans,
     ts !! n = Some trans ->
     exists code text,
       get trans "language_code" = Ok code /\
       get trans (ToString lf) = Ok text /\
       (ToString code <> "__proto__" ->
        (forall m later, n < m -> ts !! m = Some later ->
                         ToString <$> get later "language_code" <> Ok (ToString code)) ->
        properties byCode !! ToString code = Some text)) /\
  (forall c, c <> "__proto__" ->
     (is_Some (properties byCode !! c) <->
      exists trans, trans ∈ ts /\ ToString <$> get trans "language_code" = Ok c)).
Proof.
  intros Hmap. split.
  - intros n trans Hn. exact (languageMap_translation lf ts byCode n trans Hmap Hn).
  - intros c Hc. apply languageMap_entries in Hmap as (es & Hes & ->).
    rewrite (assignEach_lookup _ _ _ _ Hc).
    cbn [properties emptyLiteral]. rewrite assignAll_is_Some, lookup_empty. split.
    + intros [[? Hn]|([c' t] & He & Hk)]; [discriminate|]. simpl in Hk. subst c'.
      apply list_elem_of_lookup in He as [i Hi].
      destruct (mapR_lookup_inv _ _ _ i _ Hes Hi) as (trans & Htrans & He).
      apply translationEntry_Ok in He as (code & Hcode & -> & _).
      exists trans. split; [apply list_elem_of_lookup; eauto|].
      rewrite Hcode. reflexivity.
    + intros (trans & Hin & Hcode). right.
      apply list_elem_of_lookup in Hin as [i Hi].
      destruct (mapR_lookup _ _ _ Hes) as [_ Hall].
      destruct (Hall i trans Hi) as ([c' t] & He & Hei).
      apply translationEntry_Ok in He as (code & Hcode' & -> & _).
      exists (ToString code, t). split; [apply list_elem_of_lookup; eauto|].
      simpl. rewrite Hcode' in Hcode. simpl in Hcode. congruence.
Qed.

(** C7 (the code departs from it).  On the record with id 1 and the
    translations en: "A" and es: "Ah" the index is {1: {en: "A", es: "Ah"}}.
    On a record with id 1 whose translations are "A" under the language code
    "__proto__" and "B" under "en", the index is {1: {en: "B"}}: the object
    built for the record has no entry for the first translation, because
    the assignment [label["__proto__"] = "A"] reaches the setter every
    object inherits, which ignores a string. *)
Theorem indexLookupData_proto_language_code_has_no_entry :
  indexLookupData exMulti None None
    = Ok {[ "1" := ByLanguage {| properties := {[ "en" := VStr "A"; "es" := VStr "Ah" ]};
                                 inheritsSetter := true |} ]}
  /\ (exists item first second,
        exProtoCode = [item]
        /\ keyOf (VStr "id") item = Ok "1"
        /\ get item "translations" = Ok (VArr [first; second])
        /\ translationEntry (VStr "label") first = Ok ("__proto__", VStr "A")
        /\ translationEntry (VStr "label") second = Ok ("en", VStr "B"))
  /\ resolveFields (default VUndef (exProtoCode !! 0)) None None
     = Ok (VStr "id", VStr "label")
  /\ indexLookupData exProtoCode None None
     = Ok {[ "1" := ByLanguage {| properties := {[ "en" := VStr "B" ]};
                                 inheritsSetter := true |} ]}
  /\ (forall results byCode,
        indexLookupData exProtoCode None None = Ok results ->
        results !! "1" = Some (ByLanguage byCode) ->
        properties byCode !! "__proto__" = None).
Proof.
  split; [vm_compute; reflexivity|].
  split; [eexists _, _, _; repeat split; reflexivity|].
  split; [reflexivity|].
  assert (indexLookupData exProtoCode None None
          = Ok {[ "1" := ByLanguage {| properties := {[ "en" := VStr "B" ]};
                                      inheritsSetter := true |} ]}) as Hindex
    by (vm_compute; reflexivity).
  split; [exact Hindex|].
  intros results byCode H Hone. rewrite Hindex in H. injection H as <-.
  rewrite lookup_singleton_eq in Hone. injection Hone as <-. reflexivity.
Qed.

(** ** Suffix patterns and the key-field search *)

Lemma substring_whole (s : string) : substring 0 (String.length s) s = s.
Proof. induction s as [|c s IH]; simpl; [reflexivity|]. rewrite IH. reflexivity. Qed.

Lemma substring_split (s : string) (k : nat) :
  k <= String.length s ->
  s = substring 0 k s +:+ substring k (String.length s - k) s.
Proof.
  revert k. induction s as [|c s IH]; intros k Hk; simpl in Hk.
  - assert (k = 0) as -> by lia. reflexivity.
  - destruct k as [|k].
    + simpl. rewrite substring_whole. reflexivity.
    + simpl.
      change (String c s = String c (substring 0 k s +:+ substring k (String.length s - k) s)).
      f_equal. apply IH. lia.
Qed.

Lemma substring_after (p suffix : string) :
  substring (String.length p) (String.length suffix) (p +:+ suffix) = suffix.
Proof. induction p as [|c p IH]; simpl; [apply substring_whole|exact IH]. Qed.

Lemma length_app_string (p q : string) :
  String.length (p +:+ q) = String.length p + String.length q.
Proof. induction p as [|c p IH]; simpl; [reflexivity|]. rewrite IH. reflexivity. Qed.

(** [endsWith] is the suffix relation on strings. *)
Lemma endsWith_spec (suffix s : string) :
  endsWith suffix s = true <-> exists p, s = p +:+ suffix.
Proof.
  unfold endsWith. rewrite andb_true_iff, Nat.leb_le, String.eqb_eq. split.
  - intros [Hle Hsub]. exists (substring 0 (String.length s - String.length suffix) s).
    rewrite (substring_split s (String.length s - String.length suffix)) at 1 by lia.
    replace (String.length s - (String.length s - String.length suffix))
      with (String.length suffix) by lia.
    rewrite Hsub. reflexivity.
  - intros [p ->]. rewrite length_app_string. split; [lia|].
    replace (String.length p + String.length suffix - String.length suffix)
      with (String.length p) by lia.
    apply substring_after.
Qed.

Lemma find_first {A : Type} (f : A -> bool) (l : list A) (x : A) :
  find f l = Some x <->
  exists before after,
    l = before ++ x :: after /\ f x = true /\ Forall (fun y => f y = false) before.
Proof.
  induction l as [|a l IH]; simpl.
  - split; [discriminate|]. intros (before & after & H & _). destruct before; discriminate.
  - destruct (f a) eqn:Ha.
    + split.
      * intros H. inversion H; subst. exists [], l. repeat split; [assumption|constructor].
      * intros (before & after & H & Hx & Hb). destruct before as [|b before].
        -- inversion H; subst. reflexivity.
        -- inversion H; subst. inversion Hb; subst. congruence.
    + rewrite IH. split.
      * intros (before & after & -> & Hx & Hb). exists (a :: before), after.
        repeat split; [assumption|constructor; assumption].
      * intros (before & after & H & Hx & Hb). destruct before as [|b before].
        -- inversion H; subst. congruence.
        -- inversion H; subst. inversion Hb; subst. exists before, after.
           repeat split; assumption.
Qed.

Lemma find_none {A : Type} (f : A -> bool) (l : list A) :
  find f l = None <-> Forall (fun y => f y = false) l.
Proof.
  induction l as [|a l IH]; simpl.
  - split; [constructor|reflexivity].
  - destruct (f a) eqn:Ha.
    + split; [discriminate|]. intros H. inversion H; subst. congruence.
    + rewrite IH. split; [intros H; constructor; assumption|].
      intros H. inversion H; subst. assumption.
Qed.

(** C2, as amended.  The search for a key field is the case-sensitive,
    anchored match of the pattern id$ over the field names in order: it
    yields the first field name that ends in the two lowercase letters "id",
    and nothing when no field name does.  Of the fields userId and label
    neither qualifies (userId ends in "Id"); of userid and label the search
    yields userid. *)
Theorem keyFields_first_name_ending_in_id :
  keyFields (keys (VObj [("userId", VNum 7); ("label", VStr "A")])) = VUndef
  /\ keyFields (keys (VObj [("userid", VNum 7); ("label", VStr "A")])) = VStr "userid"
  /\ (forall fieldNames f,
        keyFields fieldNames = VStr f <->
        exists before after,
          fieldNames = before ++ f :: after
          /\ (exists p, f = p +:+ "id")
          /\ Forall (fun g => ~ exists p, g = p +:+ "id") before)
  /\ (forall fieldNames,
        keyFields fieldNames = VUndef <->
        Forall (fun g => ~ exists p, g = p +:+ "id") fieldNames).
Proof.
  assert (Hno : forall l : list string,
             Forall (fun g => endsWith "id" g = false) l <->
             Forall (fun g => ~ exists p, g = p +:+ "id") l).
  { intros l. apply Forall_iff. intros g. rewrite <- endsWith_spec.
    destruct (endsWith "id" g); split; congruence. }
  split; [reflexivity|]. split; [reflexivity|]. split.
  - intros fieldNames f. unfold keyFields.
    destruct (find (endsWith "id") fieldNames) as [g|] eqn:Hfind.
    + split.
      * intros H. inversion H; subst g.
        apply find_first in Hfind as (before & after & Hl & Hf & Hb).
        exists before, after. split; [exact Hl|].
        split; [apply endsWith_spec; exact Hf|apply Hno; exact Hb].
      * intros (before & after & Hl & Hf & Hb).
        assert (find (endsWith "id") fieldNames = Some f) as Hfind'.
        { apply find_first. exists before, after. split; [exact Hl|].
          split; [apply endsWith_spec; exact Hf|apply Hno; exact Hb]. }
        congruence.
    + split; [discriminate|].
      intros (before & after & Hl & Hf & Hb).
      assert (find (endsWith "id") fieldNames = Some f) as Hfind'.
      { apply find_first. exists before, after. split; [exact Hl|].
        split; [apply endsWith_spec; exact Hf|apply Hno; exact Hb]. }
      congruence.
  - intros fieldNames. rewrite <- Hno, <- find_none. unfold keyFields.
    destruct (find (endsWith "id") fieldNames); split; congruence.
Qed.

(** C2 as stated fails: with the fields userId and label and no explicit key,
    no primary key is inferred and no index is returned: the call throws. *)
Lemma indexLookupData_userId_counterexample :
  guessPrimaryKey (VObj [("userId", VNum 7); ("label", VStr "A")]) = Throw TypeError
  /\ indexLookupData exUser None None = Throw TypeError
  /\ ~ (exists lf results,
          resolveFields (default VUndef (exUser !! 0)) None None = Ok (VStr "userId", lf)
          /\ indexLookupData exUser None None = Ok results).
Proof.
  split; [reflexivity|]. split; [reflexivity|].
  intros (lf & results & _ & H). vm_compute in H. discriminate.
Qed.

(** With the fields userid and label the search yields "userid", and the
    primary key field the loop then runs with is its first character: every
    record is filed under the key "undefined". *)
Example indexLookupData_userid_first_letter :
  resolveFields (default VUndef (exUserLower !! 0)) None None = Ok (VStr "u", VStr "label")
  /\ indexLookupData exUserLower None None = Ok {[ "undefined" := Scalar (VStr "A") ]}.
Proof. split; vm_compute; reflexivity. Qed.

(** Without a truthy [id] and without a field name ending in "id", the guess
    of the primary key reads index 0 of [undefined]. *)
Lemma guessPrimaryKey_no_candidate (item : value) (id : value) :
  get item "id" = Ok id ->
  truthy id = false ->
  Forall (fun f => endsWith "id" f = false) (keys item) ->
  guessPrimaryKey item = Throw TypeError.
Proof.
  intros Hid Hfalsy Hnone. unfold guessPrimaryKey. rewrite Hid. simpl. rewrite Hfalsy.
  unfold keyFields. apply find_none in Hnone. rewrite Hnone. reflexivity.
Qed.

Lemma indexLookupData_no_candidate (item : value) (rest : list value) (id : value)
    (labelField : option string) :
  truthy item = true ->
  get item "id" = Ok id ->
  truthy id = false ->
  Forall (fun f => endsWith "id" f = false) (keys item) ->
  indexLookupData (item :: rest) None labelField = Throw TypeError.
Proof.
  intros Hitem Hid Hfalsy Hnone. unfold indexLookupData. simpl. rewrite Hitem.
  unfold resolveFields. simpl.
  rewrite (guessPrimaryKey_no_candidate item id Hid Hfalsy Hnone). reflexivity.
Qed.

(** C3 (the code departs from it).  On a record with the fields name and
    label, neither of which is "id" or ends in "id", the call with no
    explicit key does not return an index: it throws a TypeError. *)
Theorem indexLookupData_no_key_field_throws :
  indexLookupData exNoKey None None = Throw TypeError.
Proof.
  apply (indexLookupData_no_candidate _ _ VUndef).
  - reflexivity.
  - reflexivity.
  - reflexivity.
  - repeat constructor.
Qed.

(** ** init *)

(** Refutes the membership of an action in a log that does not list it. *)
Ltac log_membership :=
  match goal with
  | H : _ ∈ _ |- _ => apply list_elem_of_In in H; vm_compute in H; intuition discriminate
  end.

Ltac in_log := repeat first [apply list_elem_of_here | apply list_elem_of_further].

(** Unfolds a run of [init] down to its settlement, instance and actions. *)
Ltac run_init :=
  cbv [initRun init initializeRemoteDataStatusUpdate initializeLocalDataThenListen
       PromiseAll stillPending andLater background catch reject await call act modify getThis setTimeout
       clearTimeout timerGoesOff mbind mret async_bind async_ret foldl reverse rev_append
       List.app andb orElse remoteBootstrap isRejected withTimer
       markersLoad statusLoad remoteData statusSave localData remoteSettlesFirst timerElapses
       self timerSet log returned final actions status setStatus setMarkers setAppPage
       isInitializing ToString String.eqb Ascii.eqb Bool.eqb fst snd] in *.

(** Every case of what a run can meet: the ways the five promises settle, the
    order of the two pending operations, the timer, and the page argument. *)
Ltac every_run page env :=
  let Hp := fresh "Hpage" in
  destruct env as [[?|?] [?|?] [[]|?] [[]|?] [[]|?] [|] [|]];
  destruct (truthy page) eqn:Hp;
  run_init; rewrite ?Hp; run_init.

(** The promise the method returns settles as [remoteBootstrap] says. *)
Lemma initializeRemoteDataStatusUpdate_settles (env : environment) (w : world) :
  exists promise w',
    initializeRemoteDataStatusUpdate env w = (Resolved promise, w')
    /\ forall w'', (promise w'').1 = remoteBootstrap env.
Proof.
  eexists _, _. split; [reflexivity|]. intros w''.
  destruct env as [ml sl [[]|?] [[]|?] ld rf te]; reflexivity.
Qed.

(** The promise of the local pending operation settles as the local
    bootstrap does. *)
Lemma initializeLocalDataThenListen_settles (env : environment) (w : world) :
  exists promise w',
    initializeLocalDataThenListen env w = (Resolved promise, w')
    /\ forall w'', (promise w'').1 = localData env.
Proof.
  eexists _, _. split; [reflexivity|]. intros w''.
  destruct env as [ml sl rd ss [[]|?] rf te]; reflexivity.
Qed.

(** Whatever status storage holds, once the two loads succeed both
    bootstraps are started: the status read is overwritten with
    "initializing" before it is tested. *)
Lemma init_starts_both_bootstraps (page : value) (env : environment) (this : app)
    (markers persisted : value) :
  markersLoad env = Resolved markers ->
  statusLoad env = Resolved persisted ->
  InitializeRemoteData ∈ actions (initRun page env this)
  /\ InitializeLocalData ∈ actions (initRun page env this).
Proof.
  intros Hm Hs. every_run page env; try discriminate Hm; try discriminate Hs; split; in_log.
Qed.

(** C1 (the code departs from it).  With the status "ready" in storage, [init]
    still starts the remote bootstrap, next to the local one. *)
Theorem init_ready_starts_remote_bootstrap :
  statusLoad envReady = Resolved (VStr "ready")
  /\ InitializeRemoteData ∈ actions (initRun VUndef envReady newApp)
  /\ InitializeLocalData ∈ actions (initRun VUndef envReady newApp)
  /\ status (final (initRun VUndef envReady newApp)) = VStr "ready".
Proof.
  split; [reflexivity|].
  destruct (init_starts_both_bootstraps VUndef envReady newApp (VObj []) (VStr "ready")
              eq_refl eq_refl) as [Hremote Hlocal].
  split; [exact Hremote|]. split; [exact Hlocal|]. reflexivity.
Qed.

(** How the returned promise settles: with the rejection of a load, else
    with the first rejection among the pending operations, else resolved. *)
Lemma init_returned (page : value) (env : environment) (this : app) :
  returned (initRun page env this) =
  match markersLoad env, statusLoad env with
  | Rejected r, _ => Rejected r
  | Resolved _, Rejected r => Rejected r
  | Resolved _, Resolved _ =>
      match remoteBootstrap env, localData env with
      | Rejected r, Rejected r' => Rejected (if remoteSettlesFirst env then r else r')
      | Rejected r, Resolved _ => Rejected r
      | Resolved _, Rejected r' => Rejected r'
      | Resolved _, Resolved _ => Resolved tt
      end
  end.
Proof. every_run page env; reflexivity. Qed.

Lemma init_emits_dataReady_iff (page : value) (env : environment) (this : app) :
  Emit "dataReady" ∈ actions (initRun page env this) <->
  returned (initRun page env this) = Resolved tt.
Proof.
  every_run page env;
    (split; [intros H; first [reflexivity | log_membership]
            | intros H; first [discriminate H | in_log]]).
Qed.

(** Whether the timer goes off changes neither how the promise settles nor
    the instance, and among the actions only adds the event "init.timeout". *)
Lemma init_timer_only_emits (page : value) (env : environment) (this : app)
    (elapses : bool) :
  returned (initRun page (withTimer elapses env) this) = returned (initRun page env this)
  /\ final (initRun page (withTimer elapses env) this) = final (initRun page env this)
  /\ List.filter (fun a => negb (isEmit "init.timeout" a))
                 (actions (initRun page (withTimer elapses env) this))
     = List.filter (fun a => negb (isEmit "init.timeout" a))
                   (actions (initRun page env this)).
Proof. destruct elapses; every_run page env; repeat split. Qed.

(** C6, as amended.  The promise [init] returns is rejected exactly when one
    of the two loads from storage (markers, status) is rejected, or the remote
    bootstrap or the local bootstrap is; a rejection of a bootstrap that is
    the only one, or the first to settle, is the one surfaced; "dataReady" is
    emitted exactly when the promise is resolved; and whether the 25 second
    timer goes off changes neither how the promise settles nor the instance:
    it only adds the event "init.timeout".  (The last two parts say that the
    bootstraps meant are the promises of the two pending operations.) *)
Theorem init_rejected_iff (page : value) (env : environment) (this : app) :
  ((exists r, returned (initRun page env this) = Rejected r) <->
     isRejected (markersLoad env) = true
     \/ isRejected (statusLoad env) = true
     \/ isRejected (remoteBootstrap env) = true
     \/ isRejected (localData env) = true)
  /\ (forall markers persisted r,
        markersLoad env = Resolved markers -> statusLoad env = Resolved persisted ->
        remoteBootstrap env = Rejected r ->
        remoteSettlesFirst env = true \/ localData env = Resolved tt ->
        returned (initRun page env this) = Rejected r)
  /\ (forall markers persisted r,
        markersLoad env = Resolved markers -> statusLoad env = Resolved persisted ->
        localData env = Rejected r ->
        remoteSettlesFirst env = false \/ remoteBootstrap env = Resolved tt ->
        returned (initRun page env this) = Rejected r)
  /\ (Emit "dataReady" ∈ actions (initRun page env this) <->
      returned (initRun page env this) = Resolved tt)
  /\ (forall elapses,
        returned (initRun page (withTimer elapses env) this) = returned (initRun page env this)
        /\ final (initRun page (withTimer elapses env) this) = final (initRun page env this)
        /\ List.filter (fun a => negb (isEmit "init.timeout" a))
                       (actions (initRun page (withTimer elapses env) this))
           = List.filter (fun a => negb (isEmit "init.timeout" a))
                         (actions (initRun page env this)))
  /\ (forall w, exists promise w',
        initializeRemoteDataStatusUpdate env w = (Resolved promise, w')
        /\ forall w'', (promise w'').1 = remoteBootstrap env)
  /\ (forall w, exists promise w',
        initializeLocalDataThenListen env w = (Resolved promise, w')
        /\ forall w'', (promise w'').1 = localData env).
Proof.
  split; [|split; [|split; [|split; [|split; [|split]]]]];
    [| | | | |apply initializeRemoteDataStatusUpdate_settles
             |apply initializeLocalDataThenListen_settles].
  - rewrite init_returned.
    destruct (markersLoad env), (statusLoad env), (remoteBootstrap env), (localData env);
      simpl;
      (split; [intros [? Hr]; first [discriminate Hr | tauto]
              | intros Hany; first [eexists; reflexivity
                                   | exfalso; decompose [or] Hany; discriminate]]).
  - intros markers persisted r Hm Hs Hremote Hfirst.
    rewrite init_returned, Hm, Hs, Hremote.
    destruct Hfirst as [->| ->]; [destruct (localData env)|]; reflexivity.
  - intros markers persisted r Hm Hs Hlocal Hfirst.
    rewrite init_returned, Hm, Hs, Hlocal.
    destruct Hfirst as [->| ->]; [destruct (remoteBootstrap env)|]; reflexivity.
  - apply init_emits_dataReady_iff.
  - intros elapses. apply init_timer_only_emits.
Qed.

(** C6, where the local bootstrap is rejected and the timer goes off. *)
Lemma init_rejected_iff_witness :
  returned (initRun VUndef envLocalFails newApp) = Rejected (Reason (VStr "no local data"))
  /\ ~ Emit "dataReady" ∈ actions (initRun VUndef envLocalFails newApp)
  /\ Emit "init.timeout" ∈ actions (initRun VUndef envLocalFails newApp).
Proof.
  destruct (init_rejected_iff VUndef envLocalFails newApp) as (_ & _ & Hlocal & Hready & _).
  split; [|split].
  - apply (Hlocal VNull VNull); [reflexivity|reflexivity|reflexivity|right; reflexivity].
  - intros H. apply Hready in H. discriminate H.
  - vm_compute. in_log.
Defined.

(** C6 as stated fails: when the markers cannot be loaded from storage, the
    returned promise is rejected although neither bootstrap is (neither is
    even started). *)
Lemma init_rejected_counterexample :
  ~ ((exists r, returned (initRun VUndef envStorageDown newApp) = Rejected r) <->
       isRejected (remoteBootstrap envStorageDown) = true
       \/ isRejected (localData envStorageDown) = true)
  /\ ~ InitializeRemoteData ∈ actions (initRun VUndef envStorageDown newApp)
  /\ ~ InitializeLocalData ∈ actions (initRun VUndef envStorageDown newApp).
Proof.
  split; [|split].
  - intros [Honly _].
    destruct Honly as [H|H]; [|discriminate H|discriminate H].
    exists (Reason (VStr "storage unavailable")). reflexivity.
  - intros H. log_membership.
  - intros H. log_membership.
Qed.

(** ** queueLock *)

Lemma queueLock_held (key : string) (this : lockRegistry) (held : lock) :
  _queueLocks this !! key = Some held -> queueLock key this = (Cached held, this).
Proof. intros H. unfold queueLock. rewrite H. reflexivity. Qed.

Lemma queueLock_inherited (key : string) (this : lockRegistry) :
  key ∈ objectPrototype ->
  _queueLocks this !! key = None ->
  queueLock key this = (Inherited key, this).
Proof.
  intros Hin H. unfold queueLock. rewrite H, bool_decide_eq_true_2 by exact Hin.
  reflexivity.
Qed.

(** What a call returns is what the registry holds under the key
    afterwards: the lock, or nothing when the call returned an inherited
    member. *)
Lemma queueLock_caches (key : string) (this : lockRegistry) :
  _queueLocks (queueLock key this).2 !! key
  = match (queueLock key this).1 with
    | Cached held => Some held
    | Inherited _ => None
    end.
Proof.
  unfold queueLock. destruct (_queueLocks this !! key) as [held|] eqn:H; simpl.
  - exact H.
  - destruct (bool_decide (key ∈ objectPrototype)); simpl; [exact H|].
    apply lookup_insert_eq.
Qed.

Lemma queueLock_keeps (key other : string) (this : lockRegistry) (held : lock) :
  _queueLocks this !! key = Some held ->
  _queueLocks (queueLock other this).2 !! key = Some held.
Proof.
  intros H. unfold queueLock. destruct (_queueLocks this !! other) as [l|] eqn:Ho; simpl.
  - exact H.
  - destruct (bool_decide (other ∈ objectPrototype)); simpl; [exact H|].
    rewrite lookup_insert_ne; [exact H|]. intros ->. congruence.
Qed.

Lemma queueLocks_keep (key : string) (others : list string) (this : lockRegistry)
    (held : lock) :
  _queueLocks this !! key = Some held ->
  _queueLocks (foldl (fun this other => (queueLock other this).2) this others) !! key
    = Some held.
Proof.
  revert this. induction others as [|other others IH]; intros this H; simpl.
  - exact H.
  - apply IH. apply queueLock_keeps. exact H.
Qed.

(** Under an inherited name the registry never comes to hold a lock. *)
Lemma queueLocks_keep_none (key : string) (others : list string) (this : lockRegistry) :
  key ∈ objectPrototype ->
  _queueLocks this !! key = None ->
  _queueLocks (foldl (fun this other => (queueLock other this).2) this others) !! key
    = None.
Proof.
  intros Hin. revert this. induction others as [|other others IH]; intros this H; simpl.
  - exact H.
  - apply IH. unfold queueLock.
    destruct (_queueLocks this !! other) as [l|] eqn:Ho; simpl; [exact H|].
    destruct (bool_decide (other ∈ objectPrototype)) eqn:Hother; simpl; [exact H|].
    rewrite lookup_insert_ne; [exact H|]. intros ->.
    apply bool_decide_eq_false in Hother. contradiction.
Qed.

(** Two calls with one key return the same thing, and the second changes
    nothing, also when calls for any keys come in between: this much holds
    for every key. *)
Lemma queueLock_same_answer (key : string) (this : lockRegistry) (others : list string) :
  let before := foldl (fun this other => (queueLock other this).2)
                      (queueLock key this).2 others in
  queueLock key before = ((queueLock key this).1, before).
Proof.
  intros before. pose proof (queueLock_caches key this) as Hcached.
  destruct (queueLock key this).1 as [held|name] eqn:Hanswer.
  - apply queueLock_held. apply queueLocks_keep. exact Hcached.
  - assert (name = key /\ key ∈ objectPrototype) as [-> Hin].
    { revert Hanswer. unfold queueLock. destruct (_queueLocks this !! key); [discriminate|].
      destruct (bool_decide (key ∈ objectPrototype)) eqn:Hin; [|discriminate].
      apply bool_decide_eq_true in Hin. cbn [fst]. intros [= ->]. split; [reflexivity|exact Hin]. }
    apply queueLock_inherited; [exact Hin|].
    apply queueLocks_keep_none; assumption.
Qed.

(** C8 (the code departs from it).  On the registry the constructor makes,
    [queueLock("constructor")] makes no lock and caches none:
    [this._queueLocks["constructor"]] is truthy already, being the function
    every object inherits under that name, and that function is what the
    first call returns and the second.  So it is for each of the names an
    object inherits.  For the key "X" the first call makes a lock and caches
    it, and the second returns it and makes none. *)
Theorem queueLock_inherited_key_makes_no_lock :
  queueLock "constructor" noLocks = (Inherited "constructor", noLocks)
  /\ queueLock "constructor" (queueLock "constructor" noLocks).2
     = (Inherited "constructor", noLocks)
  /\ (forall key, key ∈ objectPrototype ->
        queueLock key noLocks = (Inherited key, noLocks))
  /\ queueLock "X" noLocks
     = (Cached 0, {| _queueLocks := {[ "X" := 0 ]}; locksMade := 1 |})
  /\ queueLock "X" (queueLock "X" noLocks).2 = (Cached 0, (queueLock "X" noLocks).2).
Proof.
  split; [reflexivity|]. split; [reflexivity|]. split.
  - intros key Hin. apply queueLock_inherited; [exact Hin|reflexivity].
  - split; [reflexivity|]. apply (queueLock_same_answer "X" noLocks []).
Qed.

(** ** dc *)

Lemma refDC_not_refDataField (fieldName : string) : refDC fieldName <> refDataField fieldName.
Proof. unfold refDC, refDataField. simpl. intros H. inversion H. Qed.

Lemma refDC_not_refMethod (fieldName : string) : refDC fieldName <> refMethod fieldName.
Proof. unfold refDC, refMethod. simpl. intros H. inversion H. Qed.

Lemma refMethod_not_refDataField (fieldName : string) :
  refMethod fieldName <> refDataField fieldName.
Proof. unfold refMethod, refDataField. simpl. intros H. inversion H. Qed.

(** The two assignments [dc] begins with leave [this[dcRef]] as it was. *)
Lemma read_refDC_after_reset (fieldName : string) (this : gmap string member) :
  read (<[refMethod fieldName := Accessor (refDataField fieldName)]>
          (<[refDataField fieldName := Data (VArr [])]> this)) (refDC fieldName)
  = read this (refDC fieldName).
Proof.
  unfold read. rewrite lookup_insert_ne by (apply not_eq_sym, refDC_not_refMethod).
  rewrite lookup_insert_ne by (apply not_eq_sym, refDC_not_refDataField). reflexivity.
Qed.

(** C9, as amended.  When no collection is bound yet under the field name
    ([this[dcRef]] is falsy) and the id cannot be resolved, [dc] returns a
    rejected promise, and by then it has replaced the data member by an empty
    array and installed the accessor: data bound under that field name before
    is gone, while every other member is as it was. *)
Theorem dc_unresolved_rejects_after_reset
    (application : string -> option collection) (id fieldName : string)
    (this : gmap string member) :
  present (read this (refDC fieldName)) = false ->
  dcFind application id = None ->
  (dc application id fieldName this).1 = DcSettled (Rejected (Reason VUndef))
  /\ (dc application id fieldName this).2 !! refDataField fieldName = Some (Data (VArr []))
  /\ (dc application id fieldName this).2 !! refMethod fieldName
     = Some (Accessor (refDataField fieldName))
  /\ forall name, name <> refDataField fieldName -> name <> refMethod fieldName ->
                  (dc application id fieldName this).2 !! name = this !! name.
Proof.
  intros Hfree Hmissing. unfold dc. cbv zeta.
  rewrite read_refDC_after_reset, Hfree, Hmissing. cbn [fst snd].
  split; [reflexivity|]. split; [|split].
  - rewrite lookup_insert_ne by apply refMethod_not_refDataField. apply lookup_insert_eq.
  - apply lookup_insert_eq.
  - intros name Hdata Hmethod.
    rewrite lookup_insert_ne by (apply not_eq_sym; exact Hmethod).
    apply lookup_insert_ne. apply not_eq_sym. exact Hdata.
Qed.

(** C9, on an instance that holds rows under "dataX" with no collection bound
    for "X", and an application that knows no collection. *)
Lemma dc_unresolved_rejects_after_reset_witness :
  looseX !! "dataX" = Some (Data (VArr [VStr "old"]))
  /\ (dc noCollection "missing" "X" looseX).1 = DcSettled (Rejected (Reason VUndef))
  /\ (dc noCollection "missing" "X" looseX).2 !! "dataX" = Some (Data (VArr [])).
Proof.
  split; [reflexivity|].
  destruct (dc_unresolved_rejects_after_reset noCollection "missing" "X" looseX)
    as (Hrejected & Hreset & _).
  - vm_compute. reflexivity.
  - reflexivity.
  - split; [exact Hrejected|exact Hreset].
Defined.

(** C9 as stated fails: on an instance where the field "X" is bound already,
    [dc] with an id that cannot be resolved does not reject; it never looks
    the id up, waits for the rows of the collection bound before, and
    resolves with them. *)
Lemma dc_unresolved_counterexample :
  dcFind noCollection "missing" = None
  /\ (dc noCollection "missing" "X" boundX).1 = DcFindAll 0
  /\ (dcLoaded "X" (Resolved (VArr [VStr "row"])) (dc noCollection "missing" "X" boundX).2).1
     = Resolved tt
  /\ ~ (exists r, (dc noCollection "missing" "X" boundX).1 = DcSettled (Rejected r)).
Proof.
  split; [reflexivity|]. split; [vm_compute; reflexivity|]. split; [reflexivity|].
  intros [r H]. vm_compute in H. discriminate H.
Qed.

(** ** dcRemote *)

Lemma string_of_index_not_id (i : nat) : string_of_index i <> "id".
Proof.
  unfold string_of_index, NilZero.string_of_uint.
  destruct (Nat.to_uint i); simpl; discriminate.
Qed.

Lemma own_indexed_not_id {A : Type} (f : A -> value) (l : list A) (n : nat) :
  own "id" (imap (fun i x => (string_of_index (n + i), f x)) l) = None.
Proof.
  revert n. induction l as [|x l IH]; intros n; [reflexivity|].
  cbn [imap own]. destruct (String.eqb_spec (string_of_index (n + 0)) "id") as [E|_].
  - exfalso. exact (string_of_index_not_id _ E).
  - unfold compose. rewrite <- (IH (S n)). f_equal. apply imap_ext.
    intros i y _. simpl. do 2 f_equal. lia.
Qed.

Lemma own_deleted (k : string) (fields : list (string * value)) :
  own k (filter (fun p => p.1 <> k) fields) = None.
Proof.
  induction fields as [|[k' v] fields IH]; [reflexivity|].
  rewrite filter_cons. simpl. case_decide as Hk; [|exact IH].
  simpl. destruct (String.eqb_spec k' k); [contradiction|exact IH].
Qed.

(** Only an object can have a truthy [id]. *)
Lemma truthy_id_object (d id : value) :
  get d "id" = Ok id -> truthy id = true -> exists fields, d = VObj fields.
Proof.
  destruct d as [| | | | s | xs | fields]; simpl; intros H Ht;
    try discriminate H; try (inversion H; subst; discriminate Ht).
  - inversion H; subst. clear H. exfalso.
    pose proof (own_indexed_not_id (fun c => VStr (String c "")) (list_ascii_of_string s) 0)
      as Hown.
    simpl in Hown. rewrite Hown in Ht. discriminate Ht.
  - inversion H; subst. clear H. exfalso.
    pose proof (own_indexed_not_id (fun x => x) xs 0) as Hown.
    simpl in Hown. rewrite Hown in Ht. discriminate Ht.
  - eauto.
Qed.

Section Delivery.

Variable numericAbove : string -> Z -> bool.

(** After the stripping step a row has no truthy [id] above 100000. *)
Lemma stripHighId_clears (d d' : value) :
  stripHighId numericAbove d = Ok d' ->
  exists id, get d' "id" = Ok id
             /\ truthy id && greaterThan numericAbove id 100000 = false.
Proof.
  unfold stripHighId. destruct (get d "id") as [id|] eqn:Hid; simpl; [|discriminate].
  destruct (truthy id && greaterThan numericAbove id 100000) eqn:Hhigh; intros H;
    inversion H; subst; clear H.
  - apply andb_true_iff in Hhigh as [Ht _].
    destruct (truthy_id_object d id Hid Ht) as [fields ->].
    exists VUndef. split; [|reflexivity].
    simpl. rewrite own_deleted. reflexivity.
  - exists id. split; assumption.
Qed.

(** The fetch-completion path stores rows that went through the stripping
    step: none of them has a truthy [id] above 100000. *)
Lemma loadData_stores_stripped (fieldName : string) (failure : option reason)
    (webixData : list value) (b : binding) (stored : value) :
  instance (deliver numericAbove fieldName (LoadDataSettled failure true webixData) b)
    !! refDataField fieldName = Some (Data stored) ->
  instance b !! refDataField fieldName = Some (Data stored)
  \/ exists rows, stored = VArr rows /\
       forall d, d ∈ rows ->
         exists id, get d "id" = Ok id
                    /\ truthy id && greaterThan numericAbove id 100000 = false.
Proof.
  unfold deliver.
  destruct (mapR (stripHighId numericAbove) webixData) as [rows|] eqn:Hrows.
  - intros H. right. exists rows.
    assert (stored = VArr rows) as ->.
    { unfold resolveIt in H. destruct failure; simpl in H;
        destruct (hasResolved b); simpl in H;
        rewrite lookup_insert_eq in H; congruence. }
    split; [reflexivity|]. intros d Hd.
    apply list_elem_of_lookup in Hd as [i Hi].
    destruct (mapR_lookup_inv _ _ _ i d Hrows Hi) as (d0 & _ & Hstrip).
    exact (stripHighId_clears d0 d Hstrip).
  - intros H. left. destruct failure; exact H.
Qed.

Lemma resolveCalls_snoc_reject (b : binding) (r : reason) :
  resolveCalls (callReject r b) = resolveCalls b.
Proof. unfold resolveCalls, callReject. simpl. rewrite omap_app. simpl. apply app_nil_r. Qed.

Lemma resolveIt_after_resolved (data : value) (b : binding) :
  hasResolved b = true -> resolveIt data b = b.
Proof. intros H. unfold resolveIt. rewrite H. reflexivity. Qed.

(** Once the flag is set, a signal changes neither the flag nor the calls of
    [resolve]. *)
Lemma deliver_after_resolved (fieldName : string) (s : signal) (b : binding) :
  hasResolved b = true ->
  hasResolved (deliver numericAbove fieldName s b) = true
  /\ resolveCalls (deliver numericAbove fieldName s b) = resolveCalls b.
Proof.
  intros H. destruct s as [r|failure initialized webixData|dcData]; simpl.
  - split; [exact H|reflexivity].
  - assert (hasResolved (match failure with Some r => callReject r b | None => b end) = true
            /\ resolveCalls (match failure with Some r => callReject r b | None => b end)
               = resolveCalls b) as H'.
    { destruct failure as [r|]; [|split; [exact H|reflexivity]].
      split; [exact H|apply resolveCalls_snoc_reject]. }
    destruct initialized; [|exact H'].
    destruct (mapR (stripHighId numericAbove) webixData) as [rows|]; [|exact H'].
    rewrite resolveIt_after_resolved by apply H'.
    split; [apply H'|]. destruct H' as [_ <-]. reflexivity.
  - rewrite resolveIt_after_resolved by exact H. split; [exact H|reflexivity].
Qed.

Lemma delivered_after_resolved (fieldName : string) (signals : list signal) (b : binding) :
  hasResolved b = true ->
  hasResolved (delivered numericAbove fieldName signals b) = true
  /\ resolveCalls (delivered numericAbove fieldName signals b) = resolveCalls b.
Proof.
  revert b. induction signals as [|s signals IH]; intros b H; simpl.
  - split; [exact H|reflexivity].
  - destruct (deliver_after_resolved fieldName s b H) as [Hflag Hcalls].
    destruct (IH _ Hflag) as [Hflag' Hcalls']. split; congruence.
Qed.

Lemma resolveIt_guarded (data : value) (b : binding) : guarded b -> guarded (resolveIt data b).
Proof.
  intros [[Hflag Hcalls]|[Hflag Hcalls]]; unfold resolveIt; rewrite Hflag.
  - right. split; [reflexivity|]. exists data.
    unfold resolveCalls in *. simpl. rewrite omap_app, Hcalls. reflexivity.
  - right. split; assumption.
Qed.

Lemma deliver_guarded (fieldName : string) (s : signal) (b : binding) :
  guarded b -> guarded (deliver numericAbove fieldName s b).
Proof.
  intros H. destruct s as [r|failure initialized webixData|dcData]; simpl.
  - exact H.
  - assert (guarded (match failure with Some r => callReject r b | None => b end)) as H'.
    { destruct failure as [r|]; [|exact H]. unfold guarded.
      rewrite resolveCalls_snoc_reject. exact H. }
    destruct initialized; [|exact H'].
    destruct (mapR (stripHighId numericAbove) webixData); [|exact H'].
    apply resolveIt_guarded. exact H'.
  - apply resolveIt_guarded. exact H.
Qed.

Lemma delivered_guarded (fieldName : string) (signals : list signal) (b : binding) :
  guarded b -> guarded (delivered numericAbove fieldName signals b).
Proof.
  revert b. induction signals as [|s signals IH]; intros b H; simpl; [exact H|].
  apply IH, deliver_guarded, H.
Qed.

Lemma dcRemote_starts_guarded (application : string -> option collection)
    (id fieldName : string) (this : gmap string member) (c : collection) (b : binding) :
  dcRemote application id fieldName this = inr (c, b) ->
  hasResolved b = false /\ settlements b = [].
Proof.
  unfold dcRemote.
  destruct (present (read this (refDC fieldName))).
  - destruct (read this (refDC fieldName)) as [[| |c'|]|]; intros H; inversion H; subst.
    split; reflexivity.
  - destruct (dcFind application id) as [found|]; [|discriminate].
    destruct (read _ (refDC fieldName)) as [[| |c'|]|]; intros H; inversion H; subst.
    split; reflexivity.
Qed.

(** What a signal does to a call whose guard is not set yet: it sets the
    guard and calls [resolve] with what it brings, or leaves both alone. *)
Lemma deliver_resolution (fieldName : string) (s : signal) (b : binding) :
  hasResolved b = false ->
  match resolution numericAbove s with
  | Some data =>
      hasResolved (deliver numericAbove fieldName s b) = true
      /\ resolveCalls (deliver numericAbove fieldName s b) = resolveCalls b ++ [data]
  | None =>
      hasResolved (deliver numericAbove fieldName s b) = false
      /\ resolveCalls (deliver numericAbove fieldName s b) = resolveCalls b
  end.
Proof.
  intros H.
  assert (forall data b', hasResolved b' = false ->
            hasResolved (resolveIt data b') = true
            /\ resolveCalls (resolveIt data b') = resolveCalls b' ++ [data]) as Hresolve.
  { intros data b' Hb'. unfold resolveIt. rewrite Hb'. split; [reflexivity|].
    unfold resolveCalls. simpl. rewrite omap_app. reflexivity. }
  destruct s as [r|failure initialized webixData|dcData]; simpl.
  - split; [exact H|reflexivity].
  - set (b' := match failure with Some r => callReject r b | None => b end).
    assert (hasResolved b' = false /\ resolveCalls b' = resolveCalls b) as [Hflag Hcalls].
    { unfold b'. destruct failure as [r|]; [|split; [exact H|reflexivity]].
      split; [exact H|apply resolveCalls_snoc_reject]. }
    destruct initialized; [|split; assumption].
    destruct (mapR (stripHighId numericAbove) webixData) as [rows|]; [|split; assumption].
    destruct (Hresolve (VArr rows) (store (refDataField fieldName) (VArr rows) b') Hflag)
      as [Hset Hcalled].
    split; [exact Hset|]. rewrite Hcalled, <- Hcalls. reflexivity.
  - exact (Hresolve dcData (emit (fieldName +:+ "Updated")
                              (store (refDataField fieldName) dcData b)) H).
Qed.

(** The first signal that brings something to resolve with is the one
    honoured: [resolve] is called with what it brings, and with nothing
    else. *)
Lemma delivered_first_resolution (fieldName : string) (signals : list signal)
    (b : binding) :
  hasResolved b = false ->
  resolveCalls (delivered numericAbove fieldName signals b)
  = resolveCalls b ++ take 1 (omap (resolution numericAbove) signals).
Proof.
  revert b. induction signals as [|s signals IH]; intros b H.
  - simpl. rewrite app_nil_r. reflexivity.
  - change (delivered numericAbove fieldName (s :: signals) b)
      with (delivered numericAbove fieldName signals (deliver numericAbove fieldName s b)).
    pose proof (deliver_resolution fieldName s b H) as Hs.
    change (omap (resolution numericAbove) (s :: signals))
      with (match resolution numericAbove s with
            | Some data => data :: omap (resolution numericAbove) signals
            | None => omap (resolution numericAbove) signals
            end).
    destruct (resolution numericAbove s) as [data|].
    + destruct Hs as [Hflag Hcalls].
      destruct (delivered_after_resolved fieldName signals _ Hflag) as [_ ->].
      rewrite Hcalls. reflexivity.
    + destruct Hs as [Hflag Hcalls]. rewrite (IH _ Hflag), Hcalls. reflexivity.
Qed.

(** As long as no fetch fails, the calls that settle the promise are the
    calls of [resolve]. *)
Lemma delivered_only_resolves (fieldName : string) (signals : list signal) (b : binding) :
  Forall (fun s => rejection s = None) signals ->
  settlements b = CallResolve <$> resolveCalls b ->
  settlements (delivered numericAbove fieldName signals b)
  = CallResolve <$> resolveCalls (delivered numericAbove fieldName signals b).
Proof.
  intros Hquiet. revert b. induction Hquiet as [|s signals Hs _ IH]; intros b Hb; [exact Hb|].
  change (delivered numericAbove fieldName (s :: signals) b)
    with (delivered numericAbove fieldName signals (deliver numericAbove fieldName s b)).
  apply IH.
  assert (forall data b', settlements b' = CallResolve <$> resolveCalls b' ->
            settlements (resolveIt data b') = CallResolve <$> resolveCalls (resolveIt data b'))
    as Hresolve.
  { intros data b' Hb'. unfold resolveIt. destruct (hasResolved b'); [exact Hb'|].
    unfold resolveCalls in *. simpl. rewrite omap_app, fmap_app, <- Hb'. reflexivity. }
  destruct s as [r|failure initialized webixData|dcData]; simpl.
  - exact Hb.
  - simpl in Hs. subst failure. destruct initialized; [|exact Hb].
    destruct (mapR (stripHighId numericAbove) webixData); [|exact Hb].
    apply Hresolve. exact Hb.
  - apply Hresolve. exact Hb.
Qed.

(** C5.  Whatever the collection does after a [dcRemote] call subscribed to
    it, and in whatever order, the first signal that brings something to
    resolve the promise with (the rows of a completed fetch, or the payload
    of a "data" event) is the one honoured: [resolve] is called with what
    that signal brings, once, and every later one is ignored; [resolve] is
    not called while no signal brings anything.  So [resolve] is called at
    most once, the guard is set exactly when it has been, and from then on
    no signal calls it again.  As long as no fetch fails, the promise is
    resolved with what the first signal brought. *)
Theorem dcRemote_resolves_at_most_once
    (application : string -> option collection) (id fieldName : string)
    (this : gmap string member) (c : collection) (b : binding) :
  dcRemote application id fieldName this = inr (c, b) ->
  forall signals : list signal,
    resolveCalls (delivered numericAbove fieldName signals b)
    = take 1 (omap (resolution numericAbove) signals)
    /\ length (resolveCalls (delivered numericAbove fieldName signals b)) <= 1
    /\ (hasResolved (delivered numericAbove fieldName signals b) = true <->
        exists data, resolveCalls (delivered numericAbove fieldName signals b) = [data])
    /\ (forall more : list signal,
          hasResolved (delivered numericAbove fieldName signals b) = true ->
          resolveCalls (delivered numericAbove fieldName (signals ++ more) b)
          = resolveCalls (delivered numericAbove fieldName signals b))
    /\ (Forall (fun s => rejection s = None) signals ->
        promised (delivered numericAbove fieldName signals b)
        = Resolved <$> head (omap (resolution numericAbove) signals)).
Proof.
  intros Hcall signals.
  destruct (dcRemote_starts_guarded _ _ _ _ _ _ Hcall) as [Hflag Hnone].
  assert (resolveCalls b = []) as Hcalls by (unfold resolveCalls; rewrite Hnone; reflexivity).
  assert (guarded (delivered numericAbove fieldName signals b)) as Hguard.
  { apply delivered_guarded. left. split; assumption. }
  assert (resolveCalls (delivered numericAbove fieldName signals b)
          = take 1 (omap (resolution numericAbove) signals)) as Hfirst.
  { rewrite (delivered_first_resolution fieldName signals b Hflag), Hcalls. reflexivity. }
  split; [exact Hfirst|]. split; [|split; [|split]].
  - destruct Hguard as [[_ ->]|[_ [data ->]]]; simpl; lia.
  - destruct Hguard as [[Hf Hc]|[Hf Hc]]; rewrite Hf.
    + split; [discriminate|]. intros [data Hd]. congruence.
    + split; [intros _; exact Hc|reflexivity].
  - intros more Hset. unfold delivered. rewrite foldl_app.
    apply (delivered_after_resolved fieldName more _ Hset).
  - intros Hquiet. unfold promised.
    rewrite (delivered_only_resolves fieldName signals b Hquiet)
      by (rewrite Hnone, Hcalls; reflexivity).
    rewrite Hfirst. destruct (omap (resolution numericAbove) signals); reflexivity.
Qed.

(** C4 (the code departs from it).  When the collection emits "data" with
    rows of which one carries the identifier 200000, [dcRemote] stores the
    rows as they come and resolves with them: the stored row still has its
    identifier, above 100000.  The same rows arriving through the
    fetch-completion path are stored without it. *)
Theorem dcRemote_data_event_keeps_high_id :
  dcRemote oneCollection "dc1" "X" ∅ = inr (0, subscribedX)
  /\ instance (delivered numericAbove "X" [DataReceived (VArr exRows)] subscribedX)
       !! refDataField "X"
     = Some (Data (VArr exRows))
  /\ promised (delivered numericAbove "X" [DataReceived (VArr exRows)] subscribedX)
     = Some (Resolved (VArr exRows))
  /\ (exists d, d ∈ exRows /\ get d "id" = Ok (VNum 200000)
                /\ greaterThan numericAbove (VNum 200000) 100000 = true)
  /\ instance (delivered numericAbove "X" [LoadDataSettled None true exRows] subscribedX)
       !! refDataField "X"
     = Some (Data (VArr [VObj [("name", VStr "new")];
                         VObj [("id", VNum 12); ("name", VStr "kept")]])).
Proof.
  split; [vm_compute; reflexivity|]. split; [|split; [|split]].
  - unfold delivered. simpl. apply lookup_insert_eq.
  - reflexivity.
  - eexists. split; [left|]. split; reflexivity.
  - unfold delivered. simpl. apply lookup_insert_eq.
Qed.

End Delivery.

(** C5, where both paths fire.  When the fetch completes first and the
    "data" event arrives after it, [resolve] is called with the rows of the
    fetch, stripped, and the promise is resolved with them; when the event
    comes first, with its payload. *)
Lemma dcRemote_resolves_at_most_once_witness :
  dcRemote oneCollection "dc1" "X" ∅ = inr (0, subscribedX)
  /\ resolveCalls (delivered (fun _ _ => false) "X"
                     [LoadDataSettled None true exRows; DataReceived (VArr [VStr "late"])]
                     subscribedX)
     = [VArr [VObj [("name", VStr "new")]; VObj [("id", VNum 12); ("name", VStr "kept")]]]
  /\ promised (delivered (fun _ _ => false) "X"
                 [LoadDataSettled None true exRows; DataReceived (VArr [VStr "late"])]
                 subscribedX)
     = Some (Resolved (VArr [VObj [("name", VStr "new")];
                             VObj [("id", VNum 12); ("name", VStr "kept")]]))
  /\ resolveCalls (delivered (fun _ _ => false) "X"
                     [DataReceived (VArr [VStr "late"]); LoadDataSettled None true exRows]
                     subscribedX)
     = [VArr [VStr "late"]]
  /\ resolveCalls (delivered (fun _ _ => false) "X"
        ([LoadDataSettled None true exRows] ++ [DataReceived (VArr [VStr "late"])])
        subscribedX)
     = resolveCalls (delivered (fun _ _ => false) "X"
                       [LoadDataSettled None true exRows] subscribedX).
Proof.
  assert (dcRemote oneCollection "dc1" "X" ∅ = inr (0, subscribedX)) as Hcall
    by (vm_compute; reflexivity).
  pose proof (dcRemote_resolves_at_most_once (fun _ _ => false) oneCollection "dc1" "X"
                ∅ 0 subscribedX Hcall) as Hguard.
  split; [exact Hcall|].
  destruct (Hguard [LoadDataSettled None true exRows; DataReceived (VArr [VStr "late"])])
    as (Hfetch & _ & _ & _ & Hpromise).
  destruct (Hguard [DataReceived (VArr [VStr "late"]); LoadDataSettled None true exRows])
    as (Hevent & _).
  destruct (Hguard [LoadDataSettled None true exRows]) as (_ & _ & _ & Hlater & _).
  split; [exact Hfetch|].
  split; [apply Hpromise; repeat constructor|].
  split; [exact Hevent|].
  apply Hlater. reflexivity.
Defined.

(** * Further properties *)

(** ** indexLookupData: when it returns, and what it guesses *)

Lemma get_Ok_defined (v : value) (k : string) (x : value) :
  get v k = Ok x -> defined v = true.
Proof. destruct v; simpl; intros H; try discriminate H; reflexivity. Qed.

Lemma mapR_Ok_each {A B : Type} (f : A -> result B) (l : list A) (ys : list B) :
  mapR f l = Ok ys -> Forall (fun x => exists y, f x = Ok y) l.
Proof.
  intros H. apply Forall_forall. intros x Hx.
  apply list_elem_of_lookup in Hx as [i Hi].
  destruct (mapR_lookup f l ys H) as [_ Hall].
  destruct (Hall i x Hi) as (y & Hy & _). eauto.
Qed.

Lemma resolveFields_Ok_keyFound (item : value) (primaryKeyField labelField : option string)
    (pk lf : value) :
  resolveFields item primaryKeyField labelField = Ok (pk, lf) ->
  keyFound item primaryKeyField = true.
Proof.
  unfold resolveFields, keyFound.
  destruct (truthy (optional primaryKeyField)); [reflexivity|]. simpl.
  unfold guessPrimaryKey. destruct (get item "id") as [id|]; simpl; [|discriminate].
  destruct (truthy id); [reflexivity|]. simpl.
  unfold keyFields. destruct (find (endsWith "id") (keys item)) as [f|] eqn:Hf;
    [|discriminate].
  intros _. apply existsb_exists. apply find_some in Hf. exists f. exact Hf.
Qed.

Lemma entryOf_Ok_readable (pk lf item : value) (e : string * lookupLabel) :
  entryOf pk lf item = Ok e -> readable item = true.
Proof.
  destruct e as [key l]. intros H. apply entryOf_Ok in H as [_ Hl].
  unfold labelOf in Hl. unfold readable.
  destruct (get item (ToString lf)) as [scalar|] eqn:Hs; simpl in Hl; [|discriminate].
  rewrite (get_Ok_defined _ _ _ Hs). simpl.
  destruct (get item "translations") as [translations|]; simpl in Hl; [|reflexivity].
  destruct translations as [| | | | |ts|]; try reflexivity.
  destruct (languageMap lf ts) as [byCode|] eqn:Hmap; simpl in Hl; [|discriminate].
  apply languageMap_entries in Hmap as (es & Hes & _).
  apply forallb_forall. intros trans Hin. apply list_elem_of_In in Hin.
  pose proof (mapR_Ok_each _ _ _ Hes) as Hall.
  rewrite Forall_forall in Hall. destruct (Hall trans Hin) as [[c t] Hentry].
  apply translationEntry_Ok in Hentry as (code & Hcode & _).
  exact (get_Ok_defined _ _ _ Hcode).
Qed.


(** X2.  The label field, when none is passed, is the first field name that
    ends in "label", in enumeration order; when no field name does, it is the
    last field name; when there is no field at all, it stays what it was.
    The names are those of the first translation of the first record when
    the record has one that is truthy, and those of the record otherwise. *)
Theorem guessLabelField_first_label_else_last (item labelField : value) (names : list string) :
  scanLabel names labelField
  = match find (endsWith "label") names with
    | Some f => VStr f
    | None => match last names with
              | Some f => VStr f
              | None => labelField
              end
    end
  /\ guessLabelField item labelField
     = if truthy labelField then Ok labelField
       else match get item "translations" with
            | Throw e => Throw e
            | Ok translations =>
                match (if truthy translations then get translations "0" else Ok VUndef) with
                | Throw e => Throw e
                | Ok first =>
                    Ok (scanLabel (keys (if truthy first then first else item)) labelField)
                end
            end.
Proof.
  split.
  - revert labelField. induction names as [|f names IH]; intros labelField; [reflexivity|].
    simpl. destruct (endsWith "label" f); [reflexivity|].
    rewrite IH. destruct (find (endsWith "label") names); [reflexivity|].
    destruct names as [|g names]; [reflexivity|].
    change (last (f :: g :: names)) with (last (g :: names)).
    destruct (last (g :: names)) eqn:Hlast; [reflexivity|].
    apply last_None in Hlast. discriminate Hlast.
  - unfold guessLabelField. destruct (truthy labelField); [reflexivity|].
    destruct (get item "translations") as [translations|]; simpl; [|reflexivity].
    destruct (truthy translations) eqn:Ht.
    + destruct (get translations "0") as [first|]; simpl; [|reflexivity].
      destruct (truthy first); reflexivity.
    + simpl. rewrite Ht. reflexivity.
Qed.

Lemma assignAll_snoc {V : Type} (es : list (string * V)) (e : string * V)
    (m : gmap string V) :
  assignAll (es ++ [e]) m = <[e.1 := e.2]> (assignAll es m).
Proof. rewrite assignAll_app. reflexivity. Qed.

(** Assignments that all go to one key leave one entry: the last. *)
Lemma assignAll_one_key {V : Type} (es : list (string * V)) (k : string) (v : V) :
  Forall (fun e => e.1 = k) es -> last (es.*2) = Some v ->
  assignAll es ∅ = {[ k := v ]}.
Proof.
  revert v. induction es as [|e es IH] using rev_ind; intros v Hkeys Hlast;
    [discriminate Hlast|].
  rewrite assignAll_snoc. apply Forall_app in Hkeys as [Hes He].
  inversion He as [|? ? Hek _]; subst. clear He.
  rewrite fmap_app in Hlast. change (snd <$> [e]) with [e.2] in Hlast.
  rewrite last_snoc in Hlast. inversion Hlast; subst. clear Hlast.
  destruct (last (es.*2)) as [v0|] eqn:Hv0.
  - rewrite (IH v0 Hes eq_refl). apply insert_singleton_eq.
  - apply last_None, fmap_nil_inv in Hv0. subst es. reflexivity.
Qed.

Lemma get_first_character (c : ascii) (rest : string) :
  get (VStr (String c rest)) "0" = Ok (VStr (String c "")).
Proof. reflexivity. Qed.



(** X4.  The index never holds more entries than the array has records, and
    holds nothing of its own making: every entry is the key and the label of
    some record of the array, under the primary-key and label fields the call
    worked with. *)
Theorem indexLookupData_entries_from_records
    (dataArray : list value) (primaryKeyField labelField : option string)
    (results : gmap string lookupLabel) :
  indexLookupData dataArray primaryKeyField labelField = Ok results ->
  size results <= length dataArray
  /\ forall key label,
       results !! key = Some label ->
       exists pk lf item,
         resolveFields (default VUndef (dataArray !! 0)) primaryKeyField labelField
           = Ok (pk, lf)
         /\ item ∈ dataArray /\ keyOf pk item = Ok key /\ labelOf lf item = Ok label.
Proof.
  intros H. destruct (truthy (default VUndef (dataArray !! 0))) eqn:Ht.
  - destruct (indexLookupData_Ok _ _ _ _ H Ht) as (pk & lf & es & Hres & Hes & ->).
    destruct (mapR_lookup _ _ _ Hes) as [Hlen _]. split.
    + pose proof (assignEach_size labelAsPrototype es emptyLiteral) as Hsize.
      cbn [properties emptyLiteral] in Hsize. rewrite map_size_empty in Hsize. lia.
    + intros key label Hentry.
      apply assignEach_origin in Hentry as [Hempty|Hin]; [discriminate Hempty|].
      apply list_elem_of_lookup in Hin as [i Hi].
      destruct (mapR_lookup_inv _ _ _ i _ Hes Hi) as (item & Hitem & He).
      apply entryOf_Ok in He as [Hk Hl].
      exists pk, lf, item. split; [exact Hres|].
      split; [apply list_elem_of_lookup; eauto|]. split; assumption.
  - unfold indexLookupData in H. rewrite Ht in H. inversion H; subst. split.
    + rewrite map_size_empty. lia.
    + intros key label Hentry. discriminate Hentry.
Qed.

(** X4, on the three records of which two share a key: two entries. *)
Lemma indexLookupData_entries_from_records_witness :
  size ({[ "1" := Scalar (VStr "C"); "2" := Scalar (VStr "B") ]} : gmap string lookupLabel)
  <= length exShared.
Proof.
  apply (indexLookupData_entries_from_records exShared None None).
  vm_compute. reflexivity.
Defined.

(** ** queueLock: one lock per key *)

Lemma noLocks_sound : soundRegistry noLocks.
Proof.
  split; [|split].
  - intros key held H. discriminate H.
  - intros key1 key2 held H. discriminate H.
  - reflexivity.
Qed.

Lemma queueLock_sound (key : string) (this : lockRegistry) :
  soundRegistry this -> soundRegistry (queueLock key this).2.
Proof.
  intros (Hmade & Hinj & Hsize). unfold queueLock.
  destruct (_queueLocks this !! key) as [held|] eqn:Hkey; [repeat split; assumption|].
  destruct (bool_decide (key ∈ objectPrototype)); [repeat split; assumption|].
  unfold soundRegistry. simpl. split; [|split].
  - intros k l Hk. apply lookup_insert_Some in Hk as [[_ <-]|[_ Hk]]; [lia|].
    specialize (Hmade k l Hk). lia.
  - intros k1 k2 l H1 H2.
    apply lookup_insert_Some in H1 as [[<- <-]|[Hne1 H1]];
      apply lookup_insert_Some in H2 as [[<- Hl]|[Hne2 H2]].
    + reflexivity.
    + specialize (Hmade k2 _ H2). lia.
    + subst l. specialize (Hmade k1 _ H1). lia.
    + exact (Hinj k1 k2 l H1 H2).
  - rewrite map_size_insert_None by exact Hkey. rewrite Hsize. reflexivity.
Qed.

Lemma queueLock_keys (key k : string) (this : lockRegistry) :
  key ∉ objectPrototype ->
  is_Some (_queueLocks (queueLock key this).2 !! k) <->
  k = key \/ is_Some (_queueLocks this !! k).
Proof.
  intros Hown. unfold queueLock.
  destruct (_queueLocks this !! key) as [held|] eqn:Hkey; simpl.
  - split; [intros H; right; exact H|]. intros [->|H]; [rewrite Hkey; eauto|exact H].
  - rewrite bool_decide_eq_false_2 by exact Hown. simpl.
    rewrite lookup_insert. case_decide as Hk.
    + split; [intros _; left; symmetry; exact Hk|eauto].
    + split; [intros H; right; exact H|]. intros [->|H]; [contradiction|exact H].
Qed.

(** X5.  On the registry the constructor makes, after calls of [queueLock]
    for any keys in any order: no two keys hold the same lock, the keys that
    hold a lock are exactly the keys asked for, and as many locks were made
    as there are such keys (none is made twice, none is dropped).  The keys
    are names that an object does not inherit: for those the registry, an
    object, is the map from key to lock that [queueLock] takes it for. *)
Theorem queueLock_one_lock_per_key (keys : list string) :
  forallb (fun key => bool_decide (key ∉ objectPrototype)) keys = true ->
  let this := foldl (fun this key => (queueLock key this).2) noLocks keys in
  (forall key1 key2 held,
     _queueLocks this !! key1 = Some held -> _queueLocks this !! key2 = Some held ->
     key1 = key2)
  /\ (forall key, is_Some (_queueLocks this !! key) <-> key ∈ keys)
  /\ locksMade this = size (_queueLocks this).
Proof.
  induction keys as [|key keys IH] using rev_ind; intros Hkeys.
  - simpl. destruct noLocks_sound as (_ & Hinj & Hsize).
    split; [exact Hinj|]. split; [|exact Hsize].
    intros key. split; [intros [? H]; discriminate H|intros H; inversion H].
  - rewrite forallb_app in Hkeys. apply andb_prop in Hkeys as [Hkeys Hkey].
    cbn [forallb] in Hkey. rewrite andb_true_r in Hkey. apply bool_decide_eq_true in Hkey.
    specialize (IH Hkeys).
    rewrite foldl_app. simpl. simpl in IH.
    set (before := foldl (fun this key => (queueLock key this).2) noLocks keys) in *.
    assert (soundRegistry before) as Hsound.
    { unfold before. clear. induction keys as [|k keys IH] using rev_ind;
        [exact noLocks_sound|].
      rewrite foldl_app. simpl. apply queueLock_sound. exact IH. }
    destruct (queueLock_sound key before Hsound) as (_ & Hinj & Hsize).
    split; [exact Hinj|]. split; [|exact Hsize].
    intros k. rewrite (queueLock_keys key k before Hkey), elem_of_app, list_elem_of_singleton.
    destruct IH as (_ & Hheld & _). rewrite Hheld. tauto.
Qed.

(** X5, for the keys "a", "b" and "a" again: two locks. *)
Lemma queueLock_one_lock_per_key_witness :
  let this := foldl (fun this key => (queueLock key this).2) noLocks ["a"; "b"; "a"] in
  (forall key1 key2 held,
     _queueLocks this !! key1 = Some held -> _queueLocks this !! key2 = Some held ->
     key1 = key2)
  /\ (forall key, is_Some (_queueLocks this !! key) <-> key ∈ ["a"; "b"; "a"])
  /\ locksMade this = size (_queueLocks this).
Proof. apply (queueLock_one_lock_per_key ["a"; "b"; "a"]). reflexivity. Defined.

(** ** dc and dcRemote: bindings, frames and settlements *)

Lemma refDataField_inj (f g : string) : refDataField f = refDataField g -> f = g.
Proof. unfold refDataField. intros H. injection H as H. exact H. Qed.

Lemma refDC_inj (f g : string) : refDC f = refDC g -> f = g.
Proof. unfold refDC. intros H. injection H as H. exact H. Qed.

Lemma refMethod_inj (f g : string) : refMethod f = refMethod g -> f = g.
Proof. unfold refMethod. intros H. injection H as H. exact H. Qed.

Lemma refDC_refDataField (f g : string) : refDC f <> refDataField g.
Proof. unfold refDC, refDataField. simpl. intros H. inversion H. Qed.

Lemma refDC_refMethod (f g : string) : refDC f <> refMethod g.
Proof. unfold refDC, refMethod. simpl. intros H. inversion H. Qed.

Lemma refMethod_refDataField (f g : string) : refMethod f <> refDataField g.
Proof. unfold refMethod, refDataField. simpl. intros H. inversion H. Qed.

Lemma dcRemote_bound (application : string -> option collection) (id fieldName : string)
    (this : gmap string member) (c : collection) :
  this !! refDC fieldName = Some (Collection c) ->
  dcRemote application id fieldName this = inr (c, subscribed this).
Proof.
  intros H. unfold dcRemote, read. rewrite H. simpl. rewrite H. reflexivity.
Qed.

Lemma dc_bound (application : string -> option collection) (id fieldName : string)
    (this : gmap string member) (c : collection) :
  this !! refDC fieldName = Some (Collection c) ->
  (dc application id fieldName this).1 = DcFindAll c
  /\ (dc application id fieldName this).2 !! refDC fieldName = Some (Collection c).
Proof.
  intros H.
  assert (read (<[refMethod fieldName := Accessor (refDataField fieldName)]>
                  (<[refDataField fieldName := Data (VArr [])]> this)) (refDC fieldName)
          = Some (Collection c)) as Hread.
  { rewrite read_refDC_after_reset. unfold read. rewrite H. reflexivity. }
  unfold dc. cbv zeta. rewrite Hread. simpl. rewrite Hread. simpl. split; [reflexivity|].
  rewrite lookup_insert_ne by (apply not_eq_sym, refDC_refMethod).
  rewrite lookup_insert_ne by (apply not_eq_sym, refDC_refDataField). exact H.
Qed.



Lemma dc_resets (application : string -> option collection) (id fieldName : string)
    (this : gmap string member) :
  (dc application id fieldName this).2 !! refDataField fieldName = Some (Data (VArr []))
  /\ (dc application id fieldName this).2 !! refMethod fieldName
     = Some (Accessor (refDataField fieldName)).
Proof.
  assert (forall m : gmap string member,
             m !! refDataField fieldName = Some (Data (VArr [])) ->
             m !! refMethod fieldName = Some (Accessor (refDataField fieldName)) ->
             forall c, <[refDC fieldName := Collection c]> m !! refDataField fieldName
                       = Some (Data (VArr []))
                       /\ <[refDC fieldName := Collection c]> m !! refMethod fieldName
                          = Some (Accessor (refDataField fieldName))) as Hkeep.
  { intros m Hd Hm c.
    rewrite lookup_insert_ne by apply refDC_refDataField.
    rewrite lookup_insert_ne by apply refDC_refMethod. split; assumption. }
  assert (let m := <[refMethod fieldName := Accessor (refDataField fieldName)]>
                     (<[refDataField fieldName := Data (VArr [])]> this) in
          m !! refDataField fieldName = Some (Data (VArr []))
          /\ m !! refMethod fieldName = Some (Accessor (refDataField fieldName)))
    as [Hd Hm].
  { simpl. rewrite lookup_insert_ne by apply refMethod_refDataField.
    rewrite !lookup_insert_eq. split; reflexivity. }
  unfold dc. cbv zeta.
  destruct (present _).
  - destruct (read _ (refDC fieldName)) as [[| | |]|]; simpl; split; assumption.
  - destruct (dcFind application id) as [found|]; [|split; assumption].
    destruct (read _ (refDC fieldName)) as [[| | |]|]; simpl; apply Hkeep; assumption.
Qed.

Lemma read_own (this : gmap string member) (name : string) (m : member) :
  this !! name = Some m -> read this name = Some m.
Proof. intros H. unfold read. rewrite H. reflexivity. Qed.

(** X7.  After [dc], the accessor [get<Field>] is installed and returns an
    empty array, whatever was bound before and whether or not the call
    rejects; when the local load resolves, it returns the rows loaded; when
    the load is rejected, the promise is rejected with the same reason and
    the accessor goes on returning the empty array. *)
Theorem dc_accessor_returns_loaded_rows
    (application : string -> option collection) (id fieldName : string)
    (this : gmap string member) :
  let bound := (dc application id fieldName this).2 in
  callAccessor bound (refMethod fieldName) = Some (Some (Data (VArr [])))
  /\ (forall dcData,
        (dcLoaded fieldName (Resolved dcData) bound).1 = Resolved tt
        /\ callAccessor (dcLoaded fieldName (Resolved dcData) bound).2 (refMethod fieldName)
           = Some (Some (Data dcData)))
  /\ (forall r,
        (dcLoaded fieldName (Rejected r) bound).1 = Rejected r
        /\ callAccessor (dcLoaded fieldName (Rejected r) bound).2 (refMethod fieldName)
           = Some (Some (Data (VArr [])))).
Proof.
  intros bound. destruct (dc_resets application id fieldName this) as [Hdata Hmethod].
  fold bound in Hdata, Hmethod.
  assert (callAccessor bound (refMethod fieldName) = Some (Some (Data (VArr [])))) as Hnow.
  { unfold callAccessor. rewrite (read_own _ _ _ Hmethod), (read_own _ _ _ Hdata).
    reflexivity. }
  split; [exact Hnow|]. split.
  - intros dcData. split; [reflexivity|]. simpl. unfold callAccessor.
    rewrite (read_own _ (refMethod fieldName) (Accessor (refDataField fieldName))).
    + rewrite (read_own _ (refDataField fieldName) (Data dcData)); [reflexivity|].
      apply lookup_insert_eq.
    + rewrite lookup_insert_ne by (apply not_eq_sym, refMethod_refDataField).
      exact Hmethod.
  - intros r. split; [reflexivity|exact Hnow].
Qed.

Lemma deliver_instance (numericAbove : string -> Z -> bool) (fieldName name : string)
    (s : signal) (b : binding) :
  name <> refDataField fieldName ->
  instance (deliver numericAbove fieldName s b) !! name = instance b !! name.
Proof.
  intros Hname. destruct s as [r|failure initialized webixData|dcData]; simpl.
  - reflexivity.
  - destruct failure, initialized; try reflexivity;
      destruct (mapR (stripHighId numericAbove) webixData); try reflexivity;
      unfold resolveIt; simpl; destruct (hasResolved b); simpl;
      apply lookup_insert_ne, not_eq_sym, Hname.
  - unfold resolveIt. simpl. destruct (hasResolved b); simpl;
      apply lookup_insert_ne, not_eq_sym, Hname.
Qed.

Lemma delivered_instance (numericAbove : string -> Z -> bool) (fieldName name : string)
    (signals : list signal) (b : binding) :
  name <> refDataField fieldName ->
  instance (delivered numericAbove fieldName signals b) !! name = instance b !! name.
Proof.
  intros Hname. revert b. induction signals as [|s signals IH]; intros b; [reflexivity|].
  change (delivered numericAbove fieldName (s :: signals) b)
    with (delivered numericAbove fieldName signals (deliver numericAbove fieldName s b)).
  rewrite IH. apply deliver_instance. exact Hname.
Qed.

(** X8.  Binding one field never disturbs another: [dc] for a field name
    changes no member but that field's data member, accessor and
    collection; its load handler and every signal that reaches [dcRemote]
    change no member but that field's data member.  So the data, accessor
    and collection of any other field name stay as they are. *)
Theorem binding_a_field_leaves_the_others
    (numericAbove : string -> Z -> bool) (application : string -> option collection)
    (id fieldName other : string) (this : gmap string member) (found : settled value)
    (signals : list signal) (b : binding) :
  other <> fieldName ->
  Forall (fun name =>
            (dc application id fieldName this).2 !! name = this !! name
            /\ (dcLoaded fieldName found this).2 !! name = this !! name
            /\ instance (delivered numericAbove fieldName signals b) !! name
               = instance b !! name)
         [refDataField other; refMethod other; refDC other].
Proof.
  intros Hother.
  assert (forall name,
             name <> refDataField fieldName -> name <> refMethod fieldName ->
             name <> refDC fieldName ->
             (dc application id fieldName this).2 !! name = this !! name
             /\ (dcLoaded fieldName found this).2 !! name = this !! name
             /\ instance (delivered numericAbove fieldName signals b) !! name
                = instance b !! name) as Hframe.
  { intros name Hd Hm Hc. split; [|split].
    - assert (forall m : gmap string member,
                 <[refMethod fieldName := Accessor (refDataField fieldName)]>
                   (<[refDataField fieldName := Data (VArr [])]> m) !! name = m !! name)
        as Hreset.
      { intros m. rewrite !lookup_insert_ne by (apply not_eq_sym; assumption).
        reflexivity. }
      unfold dc. cbv zeta. destruct (present _).
      + destruct (read _ (refDC fieldName)) as [[| | |]|]; simpl; apply Hreset.
      + destruct (dcFind application id) as [c|]; [|apply Hreset].
        destruct (read _ (refDC fieldName)) as [[| | |]|]; simpl;
          rewrite lookup_insert_ne by (apply not_eq_sym; assumption); apply Hreset.
    - destruct found; simpl; [|reflexivity].
      apply lookup_insert_ne, not_eq_sym. exact Hd.
    - apply delivered_instance. exact Hd. }
  repeat constructor; apply Hframe;
    first [ intros H; apply refDataField_inj in H; contradiction
          | intros H; apply refMethod_inj in H; contradiction
          | intros H; apply refDC_inj in H; contradiction
          | apply refDC_refDataField | apply refDC_refMethod | apply refMethod_refDataField
          | apply not_eq_sym, refDC_refDataField | apply not_eq_sym, refDC_refMethod
          | apply not_eq_sym, refMethod_refDataField ].
Qed.

(** X8, binding "X" anew on an instance where "Y" is bound and loaded. *)
Lemma binding_a_field_leaves_the_others_witness :
  (dc noCollection "unknown" "X" boundXY).2 !! "dataY" = Some (Data (VArr [VStr "y"]))
  /\ (dc noCollection "unknown" "X" boundXY).2 !! "getY" = Some (Accessor "dataY")
  /\ (dc noCollection "unknown" "X" boundXY).2 !! "dcY" = Some (Collection 1)
  /\ (dc noCollection "unknown" "X" boundXY).2 !! "dataX" = Some (Data (VArr [])).
Proof.
  pose proof (binding_a_field_leaves_the_others (fun _ _ => false) noCollection "unknown"
                "X" "Y" boundXY (Resolved VNull) [] (subscribed boundXY)) as H.
  assert ("Y" <> "X") as Hne by discriminate. specialize (H Hne).
  inversion H as [|? ? [Hdata _] H1]; subst.
  inversion H1 as [|? ? [Hget _] H2]; subst.
  inversion H2 as [|? ? [Hdc _] _]; subst.
  split; [transitivity (boundXY !! "dataY"); [exact Hdata|reflexivity]|].
  split; [transitivity (boundXY !! "getY"); [exact Hget|reflexivity]|].
  split; [transitivity (boundXY !! "dcY"); [exact Hdc|reflexivity]|].
  vm_compute. reflexivity.
Defined.

Section MoreDelivery.

Variable numericAbove : string -> Z -> bool.

Lemma deliver_settlements_grow (fieldName : string) (s : signal) (b : binding) :
  exists more, settlements (deliver numericAbove fieldName s b) = settlements b ++ more.
Proof.
  destruct s as [r|failure initialized webixData|dcData]; simpl.
  - exists []. symmetry. apply app_nil_r.
  - destruct failure as [r|], initialized;
      try destruct (mapR (stripHighId numericAbove) webixData);
      unfold resolveIt; simpl; try destruct (hasResolved b); simpl;
      rewrite <- ?app_assoc; eexists; first [reflexivity | symmetry; apply app_nil_r].
  - unfold resolveIt. simpl. destruct (hasResolved b); simpl;
      eexists; first [reflexivity | symmetry; apply app_nil_r].
Qed.

Lemma delivered_settlements_grow (fieldName : string) (signals : list signal) (b : binding) :
  exists more,
    settlements (delivered numericAbove fieldName signals b) = settlements b ++ more.
Proof.
  revert b. induction signals as [|s signals IH]; intros b.
  - exists []. symmetry. apply app_nil_r.
  - change (delivered numericAbove fieldName (s :: signals) b)
      with (delivered numericAbove fieldName signals (deliver numericAbove fieldName s b)).
    destruct (IH (deliver numericAbove fieldName s b)) as [more Hmore].
    destruct (deliver_settlements_grow fieldName s b) as [first Hfirst].
    exists (first ++ more). rewrite Hmore, Hfirst, app_assoc. reflexivity.
Qed.

Lemma delivered_app (fieldName : string) (signals more : list signal) (b : binding) :
  delivered numericAbove fieldName (signals ++ more) b
  = delivered numericAbove fieldName more (delivered numericAbove fieldName signals b).
Proof. unfold delivered. apply foldl_app. Qed.

(** X9.  The promise [dcRemote] returns settles once and for all: whatever
    the collection does afterwards leaves it as the first call of [resolve]
    or [reject] made it.  In particular a failed [loadData] rejects the
    promise for good, also when rows are stored right after it or arrive
    later with a "data" event. *)
Theorem dcRemote_settles_for_good
    (fieldName : string) (signals more : list signal) (b : binding) (s : settled value) :
  promised (delivered numericAbove fieldName signals b) = Some s ->
  promised (delivered numericAbove fieldName (signals ++ more) b) = Some s
  /\ forall this r initialized webixData,
       promised (delivered numericAbove fieldName
                   (LoadDataSettled (Some r) initialized webixData :: more)
                   (subscribed this))
       = Some (Rejected r).
Proof.
  assert (forall b0 s0 later,
             promised b0 = Some s0 ->
             promised (delivered numericAbove fieldName later b0) = Some s0) as Hstable.
  { intros b0 s0 later H0.
    destruct (delivered_settlements_grow fieldName later b0) as [extra Hextra].
    unfold promised in *. rewrite Hextra.
    destruct (settlements b0) as [|[data|r] rest]; [discriminate H0|exact H0|exact H0]. }
  intros H. split.
  - rewrite delivered_app. apply Hstable. exact H.
  - intros this r initialized webixData.
    change (delivered numericAbove fieldName
              (LoadDataSettled (Some r) initialized webixData :: more) (subscribed this))
      with (delivered numericAbove fieldName more
              (deliver numericAbove fieldName
                 (LoadDataSettled (Some r) initialized webixData) (subscribed this))).
    apply Hstable. simpl.
    destruct initialized; [|reflexivity].
    destruct (mapR (stripHighId numericAbove) webixData); reflexivity.
Qed.

(** X10.  A "data" event makes the instance emit "<fieldName>Updated", once;
    nothing else does: when rows reach the data member by the
    fetch-completion path, no event tells. *)
Theorem dcRemote_emits_once_per_data_event
    (fieldName : string) (signals : list signal) (b : binding) :
  emitted (delivered numericAbove fieldName signals b)
  = emitted b ++ replicate (length (List.filter isDataReceived signals))
                           (fieldName +:+ "Updated").
Proof.
  revert b. induction signals as [|s signals IH]; intros b.
  - simpl. symmetry. apply app_nil_r.
  - change (delivered numericAbove fieldName (s :: signals) b)
      with (delivered numericAbove fieldName signals (deliver numericAbove fieldName s b)).
    rewrite IH. destruct s as [r|failure initialized webixData|dcData]; simpl.
    + reflexivity.
    + destruct failure, initialized; try reflexivity;
        destruct (mapR (stripHighId numericAbove) webixData); try reflexivity;
        unfold resolveIt; simpl; destruct (hasResolved b); reflexivity.
    + unfold resolveIt. simpl. destruct (hasResolved b); simpl;
        rewrite <- app_assoc; reflexivity.
Qed.

(** X11.  The promise resolves with the first rows that arrive, the data
    member holds the last: after a run of signals that begins and ends with
    a "data" event, the promise is resolved with the payload of the first
    and the data member is the payload of the last. *)
Theorem dcRemote_resolves_first_stores_last
    (fieldName : string) (this : gmap string member) (first last : value)
    (between : list signal) :
  let b := delivered numericAbove fieldName
             (DataReceived first :: between ++ [DataReceived last]) (subscribed this) in
  promised b = Some (Resolved first)
  /\ resolveCalls b = [first]
  /\ instance b !! refDataField fieldName = Some (Data last).
Proof.
  intros b.
  set (b1 := deliver numericAbove fieldName (DataReceived first) (subscribed this)).
  assert (b = deliver numericAbove fieldName (DataReceived last)
                (delivered numericAbove fieldName between b1)) as Hb.
  { unfold b. change (DataReceived first :: between ++ [DataReceived last])
      with ([DataReceived first] ++ between ++ [DataReceived last]).
    rewrite !delivered_app. reflexivity. }
  assert (hasResolved b1 = true /\ resolveCalls b1 = [first]
          /\ promised b1 = Some (Resolved first)) as (Hflag & Hcalls & Hpromised).
  { repeat split; reflexivity. }
  split; [|split].
  - destruct (delivered_settlements_grow fieldName (between ++ [DataReceived last]) b1)
      as [extra Hextra].
    assert (settlements b = settlements b1 ++ extra) as Hgrown.
    { rewrite <- Hextra. unfold b.
      change (DataReceived first :: between ++ [DataReceived last])
        with ([DataReceived first] ++ (between ++ [DataReceived last])).
      rewrite delivered_app. reflexivity. }
    unfold promised. rewrite Hgrown. reflexivity.
  - rewrite Hb.
    destruct (delivered_after_resolved numericAbove fieldName between b1 Hflag)
      as [Hflag' Hcalls'].
    destruct (deliver_after_resolved numericAbove fieldName (DataReceived last) _ Hflag')
      as [_ Hcalls''].
    rewrite Hcalls'', Hcalls'. exact Hcalls.
  - rewrite Hb.
    destruct (delivered_after_resolved numericAbove fieldName between b1 Hflag)
      as [Hflag' _].
    unfold deliver. rewrite resolveIt_after_resolved by exact Hflag'.
    simpl. apply lookup_insert_eq.
Qed.

End MoreDelivery.

(** X9, where the fetch fails, the rows are stored all the same, and a
    "data" event follows: the promise stays rejected. *)
Lemma dcRemote_settles_for_good_witness :
  promised (delivered (fun _ _ => false) "X"
              ([LoadDataSettled (Some (Reason (VStr "offline"))) true exRows]
               ++ [DataReceived (VArr exRows)]) subscribedX)
  = Some (Rejected (Reason (VStr "offline")))
  /\ instance (delivered (fun _ _ => false) "X"
                 ([LoadDataSettled (Some (Reason (VStr "offline"))) true exRows]
                  ++ [DataReceived (VArr exRows)]) subscribedX) !! "dataX"
     = Some (Data (VArr exRows)).
Proof.
  split.
  - apply (dcRemote_settles_for_good (fun _ _ => false) "X"
             [LoadDataSettled (Some (Reason (VStr "offline"))) true exRows]
             [DataReceived (VArr exRows)] subscribedX (Rejected (Reason (VStr "offline")))).
    reflexivity.
  - vm_compute. reflexivity.
Defined.

Lemma own_filter_other (k k' : string) (fields : list (string * value)) :
  k' <> k -> own k' (filter (fun p => p.1 <> k) fields) = own k' fields.
Proof.
  intros Hk. induction fields as [|[name v] fields IH]; [reflexivity|].
  rewrite filter_cons. destruct (decide ((name, v).1 <> k)) as [Hname|Hname]; simpl.
  - rewrite IH. reflexivity.
  - rewrite IH. destruct (String.eqb_spec name k'); [|reflexivity].
    subst name. exfalso. apply Hname. simpl. exact Hk.
Qed.

Lemma get_deleteField_other (k k' : string) (d : value) :
  k' <> k -> get (deleteField k d) k' = get d k'.
Proof.
  intros Hk. destruct d; try reflexivity. simpl. rewrite own_filter_other by exact Hk.
  reflexivity.
Qed.

(** X12.  The stripping step touches nothing but [id], and only an [id]
    above the threshold: every other field of a row reads as before; a row
    whose [id] is a number up to 100000 (100000 included) is left as it is;
    a row whose [id] is a number above 100000 is an object that loses its
    [id] and keeps its other fields in order. *)
Theorem stripHighId_removes_only_high_ids
    (numericAbove : string -> Z -> bool) (d d' : value) :
  stripHighId numericAbove d = Ok d' ->
  (forall k, k <> "id" -> get d' k = get d k)
  /\ forall n, get d "id" = Ok (VNum n) ->
       ((n <= 100000)%Z -> d' = d)
       /\ ((100000 < n)%Z ->
           get d' "id" = Ok VUndef
           /\ exists fields, d = VObj fields
                             /\ d' = VObj (filter (fun p => p.1 <> "id") fields)).
Proof.
  unfold stripHighId. destruct (get d "id") as [id|] eqn:Hid; simpl; [|discriminate].
  destruct (truthy id && greaterThan numericAbove id 100000) eqn:Hhigh; intros H;
    inversion H; subst; clear H.
  - apply andb_true_iff in Hhigh as [Ht Hgt].
    destruct (truthy_id_object d id Hid Ht) as [fields ->]. split.
    + intros k Hk. apply get_deleteField_other. exact Hk.
    + intros n Hn. inversion Hn as [Hn']. rewrite Hn' in *. subst id.
      simpl in Hgt. apply Z.ltb_lt in Hgt. split; [lia|]. intros _. split.
      * simpl. rewrite own_deleted. reflexivity.
      * exists fields. split; reflexivity.
  - split; [reflexivity|]. intros n Hn. inversion Hn; subst id.
    split; [reflexivity|]. intros Hn'. exfalso.
    apply andb_false_iff in Hhigh as [Hzero|Hle].
    + simpl in Hzero. apply negb_false_iff, Z.eqb_eq in Hzero. lia.
    + simpl in Hle. apply Z.ltb_ge in Hle. lia.
Qed.

(** X12, at the threshold and just above it. *)
Lemma stripHighId_removes_only_high_ids_witness :
  stripHighId (fun _ _ => false) (VObj [("id", VNum 100000); ("name", VStr "a")])
  = Ok (VObj [("id", VNum 100000); ("name", VStr "a")])
  /\ get (VObj [("name", VStr "b")]) "id" = Ok VUndef
  /\ get (VObj [("name", VStr "b")]) "name" = Ok (VStr "b").
Proof.
  destruct (stripHighId_removes_only_high_ids (fun _ _ => false)
              (VObj [("id", VNum 100001); ("name", VStr "b")])
              (VObj [("name", VStr "b")]) eq_refl) as [Hother Hgone].
  split; [|split].
  - reflexivity.
  - destruct (Hgone 100001%Z eq_refl) as [_ Habove]. apply Habove. lia.
  - rewrite Hother by discriminate. reflexivity.
Defined.

Lemma mapR_throws {A B : Type} (f : A -> result B) (l : list A) (x : A) (e : exn) :
  x ∈ l -> f x = Throw e -> exists e', mapR f l = Throw e'.
Proof.
  intros Hin Hx. destruct (mapR f l) as [ys|e'] eqn:Hl; [|eauto].
  pose proof (mapR_Ok_each f l ys Hl) as Hall. rewrite Forall_forall in Hall.
  destruct (Hall x Hin) as [y Hy]. congruence.
Qed.

(** X13.  One row that is [null] or [undefined] among those [getData()]
    returns makes the fetch-completion handler throw: no row is stored under
    the data member and [resolve] is not called; the signal leaves the call
    where a fetch that found the collection not initialized leaves it. *)
Theorem dcRemote_null_row_stores_nothing
    (numericAbove : string -> Z -> bool) (fieldName : string) (failure : option reason)
    (webixData : list value) (row : value) (b : binding) :
  row ∈ webixData ->
  defined row = false ->
  deliver numericAbove fieldName (LoadDataSettled failure true webixData) b
  = deliver numericAbove fieldName (LoadDataSettled failure false webixData) b
  /\ instance (deliver numericAbove fieldName (LoadDataSettled failure true webixData) b)
     = instance b
  /\ resolveCalls (deliver numericAbove fieldName (LoadDataSettled failure true webixData) b)
     = resolveCalls b.
Proof.
  intros Hin Hrow.
  assert (exists e, mapR (stripHighId numericAbove) webixData = Throw e) as [e He].
  { apply (mapR_throws _ _ row TypeError Hin). destruct row; try discriminate Hrow; reflexivity. }
  unfold deliver. rewrite He. split; [reflexivity|].
  destruct failure as [r|]; split; try reflexivity. apply resolveCalls_snoc_reject.
Qed.

(** X13, with a [null] between two good rows. *)
Lemma dcRemote_null_row_stores_nothing_witness :
  instance (deliver (fun _ _ => false) "X"
              (LoadDataSettled None true
                 [VObj [("id", VNum 1)]; VNull; VObj [("id", VNum 2)]]) subscribedX)
  = instance subscribedX.
Proof.
  apply (dcRemote_null_row_stores_nothing (fun _ _ => false) "X" None _ VNull subscribedX).
  - right. left.
  - reflexivity.
Defined.

(** ** init and reset *)

Ltac run_reset := cbv [resetRun reset] in *; run_init.

Lemma init_leaves_markers (page : value) (env : environment) (this : app) (markers : value) :
  markersLoad env = Resolved markers ->
  _markers (final (initRun page env this)) = orElse markers (VObj []).
Proof.
  intros Hm. every_run page env; try discriminate Hm;
    injection Hm as <-; unfold orElse; destruct (truthy _); reflexivity.
Qed.

(** X14.  The status [init] leaves on the instance does not come from
    storage: once the two loads succeed it is "ready" when the remote
    bootstrap succeeded and "initializing" when it failed, and before that
    it is what it was.  All that a run writes to storage is the status
    "ready", under the status key, and only when the instance says so. *)
Theorem init_status_from_remote_bootstrap (page : value) (env : environment) (this : app) :
  status (final (initRun page env this)) =
    match markersLoad env, statusLoad env with
    | Resolved _, Resolved _ =>
        match remoteData env with
        | Resolved _ => VStr "ready"
        | Rejected _ => VStr "initializing"
        end
    | _, _ => status this
    end
  /\ forall key v, StorageSet key v ∈ actions (initRun page env this) ->
       key = refStatusKey this /\ v = VStr "ready"
       /\ status (final (initRun page env this)) = VStr "ready".
Proof.
  split.
  - every_run page env; reflexivity.
  - intros key v. every_run page env; intros H; cbn [refStatusKey refMarkers appId] in H;
      apply list_elem_of_In in H; cbn [In] in H;
      repeat match goal with
             | H : _ \/ _ |- _ => destruct H as [H|H]
             | H : False |- _ => destruct H
             | H : _ = StorageSet _ _ |- _ => first [discriminate H | injection H as <- <-]
             end;
      repeat split; reflexivity.
Qed.

(** X15.  The event "dataReady" is the last thing a run does, and it is
    there exactly when the returned promise resolves.  The listeners are
    registered whenever the local bootstrap succeeds, and the event "status"
    is emitted whenever the remote one does, also in a run that rejects
    because of the other. *)
Theorem init_dataReady_comes_last (page : value) (env : environment) (this : app) :
  (last (actions (initRun page env this)) = Some (Emit "dataReady")
   <-> returned (initRun page env this) = Resolved tt)
  /\ (RegisterListeners ∈ actions (initRun page env this)
      <-> isRejected (markersLoad env) = false /\ isRejected (statusLoad env) = false
          /\ isRejected (localData env) = false)
  /\ (Emit "status" ∈ actions (initRun page env this)
      <-> isRejected (markersLoad env) = false /\ isRejected (statusLoad env) = false
          /\ isRejected (remoteData env) = false).
Proof.
  split; [|split].
  - every_run page env; (split; intros H; first [reflexivity | discriminate H]).
  - every_run page env;
      (split; [intros H; first [repeat split; reflexivity | log_membership]
              | intros (H1 & H2 & H3); first [discriminate | in_log]]).
  - every_run page env;
      (split; [intros H; first [repeat split; reflexivity | log_membership]
              | intros (H1 & H2 & H3); first [discriminate | in_log]]).
Qed.

(** X16.  [reset] first clears the status in storage.  When that fails
    nothing else is done: no timer is set and no bootstrap started.  When it
    succeeds what follows is a run of [init] without a page, so the page of
    the instance stays; and since [init] does not use the status it reads,
    the run is the one [init] alone would have made. *)
Theorem reset_clears_then_inits (cleared : settled unit) (env : environment) (this : app) :
  match cleared with
  | Rejected r =>
      returned (resetRun cleared env this) = Rejected r
      /\ actions (resetRun cleared env this) = [StorageSet (refStatusKey this) VNull]
      /\ final (resetRun cleared env this) = this
  | Resolved _ =>
      returned (resetRun cleared env this) = returned (initRun VUndef env this)
      /\ actions (resetRun cleared env this) =
           StorageSet (refStatusKey this) VNull :: actions (initRun VUndef env this)
      /\ final (resetRun cleared env this) = final (initRun VUndef env this)
      /\ appPage (final (resetRun cleared env this)) = appPage this
  end.
Proof.
  destruct cleared as [[]|r].
  - destruct env as [[?|?] [?|?] [[]|?] [[]|?] [[]|?] [|] [|]]; run_reset;
      cbn [truthy]; run_reset; repeat split; reflexivity.
  - destruct env as [ml sl rd ss ld rf [|]]; run_reset; repeat split; try reflexivity.
    all: destruct this; reflexivity.
Qed.

(** ** Markers *)

Lemma own_replaceField (k : string) (x v : value) (fields : list (string * value)) :
  own k fields = Some v -> own k (replaceField k x fields) = Some x.
Proof.
  induction fields as [|[k' v'] rest IH]; [discriminate|]. cbn [own replaceField].
  destruct (String.eqb k' k) eqn:E; cbn [own]; rewrite E; [reflexivity|exact IH].
Qed.

Lemma own_replaceField_other (k other : string) (x : value) (fields : list (string * value)) :
  other <> k -> own other (replaceField k x fields) = own other fields.
Proof.
  intros Hne. induction fields as [|[k' v'] rest IH]; [reflexivity|]. cbn [own replaceField].
  destruct (String.eqb_spec k' k) as [->|Hk]; cbn [own].
  - destruct (String.eqb_spec k other) as [<-|_]; [contradiction|reflexivity].
  - rewrite IH. reflexivity.
Qed.

Lemma own_insertIndex (n : N) (k : string) (x : value) (fields : list (string * value)) :
  own k fields = None -> own k (insertIndex n k x fields) = Some x.
Proof.
  induction fields as [|[k' v'] rest IH]; cbn [own insertIndex].
  - rewrite String.eqb_refl. reflexivity.
  - destruct (String.eqb k' k) eqn:E; [discriminate|]. intros Hrest.
    destruct (arrayIndex k') as [n'|]; [destruct (n' <? n)%N|]; cbn [own];
      rewrite ?E, ?String.eqb_refl; auto.
Qed.

Lemma own_insertIndex_other (n : N) (k other : string) (x : value)
    (fields : list (string * value)) :
  other <> k -> own other (insertIndex n k x fields) = own other fields.
Proof.
  intros Hne. apply String.eqb_neq in Hne. rewrite String.eqb_sym in Hne.
  induction fields as [|[k' v'] rest IH]; cbn [own insertIndex].
  - rewrite Hne. reflexivity.
  - destruct (arrayIndex k') as [n'|]; [destruct (n' <? n)%N|]; cbn [own];
      rewrite ?Hne, ?IH; reflexivity.
Qed.

Lemma own_app (k : string) (fields more : list (string * value)) :
  own k (fields ++ more) = match own k fields with
                           | Some v => Some v
                           | None => own k more
                           end.
Proof.
  induction fields as [|[k' v'] rest IH]; [reflexivity|]. cbn [own List.app].
  destruct (String.eqb k' k); [reflexivity|exact IH].
Qed.

(** After [object[k] = x] the object has the property, unless the name was
    [__proto__] and reached the inherited setter. *)
Lemma own_assignField (k : string) (x : value) (fields fields' : list (string * value)) :
  assignField k x fields = Some fields' ->
  own k fields' = Some x \/ (k = "__proto__" /\ fields' = fields /\ own k fields = None).
Proof.
  unfold assignField. destruct (own k fields) as [v|] eqn:Hown.
  - intros [= <-]. left. exact (own_replaceField k x v fields Hown).
  - destruct (String.eqb_spec k "__proto__") as [->|_].
    + intros H. right. destruct x; try discriminate H; injection H as <-; auto.
    + intros [= <-]. left. destruct (arrayIndex k) as [n|].
      * apply own_insertIndex. exact Hown.
      * rewrite own_app, Hown. cbn [own]. rewrite String.eqb_refl. reflexivity.
Qed.

Lemma own_assignField_other (k other : string) (x : value)
    (fields fields' : list (string * value)) :
  assignField k x fields = Some fields' -> other <> k -> own other fields' = own other fields.
Proof.
  unfold assignField. intros H Hne. destruct (own k fields) as [v|] eqn:Hown.
  - injection H as <-. apply own_replaceField_other. exact Hne.
  - destruct (String.eqb k "__proto__").
    + destruct x; try discriminate H; injection H as <-; reflexivity.
    + injection H as <-. destruct (arrayIndex k) as [n|].
      * apply own_insertIndex_other. exact Hne.
      * rewrite own_app. destruct (own other fields); [reflexivity|]. cbn [own].
        destruct (String.eqb_spec k other) as [<-|_]; [contradiction|reflexivity].
Qed.

(** A marker is set with the string "1", for which the inherited setter of
    [__proto__] does nothing: the assignment is defined on every object. *)
Lemma assignField_marker (k : string) (fields : list (string * value)) :
  exists fields', assignField k (VStr "1") fields = Some fields'.
Proof.
  unfold assignField. destruct (own k fields); [eauto|].
  destruct (String.eqb k "__proto__"); eauto.
Qed.

Lemma setMarker_object (marker : string) (this : app) (fields : list (string * value)) :
  _markers this = VObj fields ->
  exists fields',
    assignField marker (VStr "1") fields = Some fields'
    /\ setMarker marker this =
         Some (Ok (setMarkers (VObj fields') this,
                   StorageSet (refMarkers this) (VObj fields'))).
Proof.
  intros Hm. destruct (assignField_marker marker fields) as [fields' Hassign].
  exists fields'. split; [exact Hassign|].
  unfold setMarker, assign. rewrite Hm, Hassign. reflexivity.
Qed.

Lemma hasMarker_assigned (marker : string) (this : app) (fields fields' : list (string * value)) :
  assignField marker (VStr "1") fields = Some fields' ->
  _markers this = VObj fields' ->
  hasMarker marker this = Some (Resolved true).
Proof.
  intros Hassign Hm. unfold hasMarker, truthyAt. rewrite Hm.
  destruct (own_assignField _ _ _ _ Hassign) as [->|(-> & -> & ->)]; reflexivity.
Qed.

(** X17.  On an instance whose markers are an object, [setMarker] sets the
    one marker and hands the whole set to storage under the markers key;
    [hasMarker] then answers [true] for it and as before for every other
    name.  What a marker held before is replaced, none is removed. *)
Theorem setMarker_sets_one_marker (marker : string) (this : app)
    (fields : list (string * value)) :
  _markers this = VObj fields ->
  exists fields',
    setMarker marker this =
      Some (Ok (setMarkers (VObj fields') this, StorageSet (refMarkers this) (VObj fields')))
    /\ hasMarker marker (setMarkers (VObj fields') this) = Some (Resolved true)
    /\ (forall other, other <> marker ->
          hasMarker other (setMarkers (VObj fields') this) = hasMarker other this)
    /\ (forall other v, own other fields = Some v -> exists v', own other fields' = Some v').
Proof.
  intros Hm. destruct (setMarker_object marker this fields Hm) as (fields' & Hassign & Hset).
  exists fields'. split; [exact Hset|]. split.
  { exact (hasMarker_assigned marker (setMarkers (VObj fields') this) fields fields'
             Hassign eq_refl). }
  split.
  - intros other Hne. unfold hasMarker, truthyAt. cbn [_markers setMarkers]. rewrite Hm.
    rewrite (own_assignField_other _ _ _ _ _ Hassign Hne). reflexivity.
  - intros other v Hown. destruct (String.eqb_spec other marker) as [->|Hne].
    + destruct (own_assignField _ _ _ _ Hassign) as [H|(_ & -> & H)]; [eauto|].
      rewrite H in Hown. discriminate Hown.
    + rewrite (own_assignField_other _ _ _ _ _ Hassign Hne). eauto.
Qed.

Lemma setMarker_sets_one_marker_witness :
  exists fields',
    setMarker "2" withMarkers =
      Some (Ok (setMarkers (VObj fields') withMarkers,
                StorageSet (refMarkers withMarkers) (VObj fields')))
    /\ hasMarker "2" (setMarkers (VObj fields') withMarkers) = Some (Resolved true)
    /\ (forall other, other <> "2" ->
          hasMarker other (setMarkers (VObj fields') withMarkers) = hasMarker other withMarkers)
    /\ (forall other v, own other [("10", VStr "1"); ("seen", VStr "1")] = Some v ->
          exists v', own other fields' = Some v').
Proof. apply (setMarker_sets_one_marker "2" withMarkers _ eq_refl). Defined.

(** X18.  A marker that was set outlives the instance: when storage took
    what [setMarker] handed it, [init] on an instance of the same
    application finds the marker, whatever the run meets afterwards. *)
Theorem marker_survives_restart (marker : string) (this restarted : app)
    (fields : list (string * value)) (disk : gmap string value) (page : value)
    (remote local : settled unit) (remoteFirst elapses : bool) :
  _markers this = VObj fields ->
  appId restarted = appId this ->
  exists this' a,
    setMarker marker this = Some (Ok (this', a))
    /\ hasMarker marker
         (final (initRun page
                   (environmentOn (written a disk) restarted remote local remoteFirst elapses)
                   restarted))
       = Some (Resolved true).
Proof.
  intros Hm Hid. destruct (setMarker_object marker this fields Hm) as (fields' & Hassign & Hset).
  eexists _, _. split; [exact Hset|].
  apply (hasMarker_assigned marker _ fields fields' Hassign).
  rewrite (init_leaves_markers page _ restarted (VObj fields')); [reflexivity|].
  cbn [environmentOn markersLoad written]. unfold stored, refMarkers. rewrite Hid.
  rewrite lookup_insert_eq. reflexivity.
Qed.

Lemma marker_survives_restart_witness :
  exists this' a,
    setMarker "2" withMarkers = Some (Ok (this', a))
    /\ hasMarker "2"
         (final (initRun VUndef
                   (environmentOn (written a ∅) newApp (Resolved tt) (Resolved tt) true false)
                   newApp))
       = Some (Resolved true).
Proof.
  apply (marker_survives_restart "2" withMarkers newApp _ ∅ VUndef _ _ true false
           eq_refl eq_refl).
Defined.

(** X19.  The constructor leaves the markers undefined: until [init] has
    loaded them [hasMarker] rejects and [setMarker] throws, and so they do
    after an [init] whose load of the markers failed.  Once the load
    answers with nothing, the markers are an empty object, on which a name
    counts as set exactly when every object inherits it. *)
Theorem markers_need_init (marker : string) (page : value) (env : environment) (this : app) :
  _markers this = VUndef ->
  hasMarker marker this = Some (Rejected (Thrown TypeError))
  /\ setMarker marker this = Some (Throw TypeError)
  /\ (isRejected (markersLoad env) = true ->
      hasMarker marker (final (initRun page env this)) = Some (Rejected (Thrown TypeError)))
  /\ (forall markers, markersLoad env = Resolved markers -> truthy markers = false ->
      hasMarker marker (final (initRun page env this))
      = Some (Resolved (bool_decide (marker ∈ objectPrototype)))).
Proof.
  intros Hm. unfold hasMarker, truthyAt, setMarker, assign. rewrite Hm.
  split; [reflexivity|]. split; [reflexivity|]. split.
  - intros Hrejected.
    assert (_markers (final (initRun page env this)) = _markers this) as ->.
    { every_run page env; first [discriminate Hrejected | reflexivity]. }
    rewrite Hm. reflexivity.
  - intros markers Hload Hfalsy.
    rewrite (init_leaves_markers page env this markers Hload). unfold orElse.
    rewrite Hfalsy. reflexivity.
Qed.

Lemma markers_need_init_witness :
  hasMarker "seen" newApp = Some (Rejected (Thrown TypeError))
  /\ setMarker "seen" newApp = Some (Throw TypeError)
  /\ hasMarker "seen" (final (initRun VUndef envStorageDown newApp))
     = Some (Rejected (Thrown TypeError))
  /\ hasMarker "seen" (final (initRun VUndef envLocalFails newApp)) = Some (Resolved false)
  /\ hasMarker "constructor" (final (initRun VUndef envLocalFails newApp))
     = Some (Resolved true).
Proof.
  destruct (markers_need_init "seen" VUndef envStorageDown newApp eq_refl)
    as (Hbefore & Hset & Hdown & _).
  destruct (markers_need_init "seen" VUndef envLocalFails newApp eq_refl)
    as (_ & _ & _ & Hseen).
  destruct (markers_need_init "constructor" VUndef envLocalFails newApp eq_refl)
    as (_ & _ & _ & Hinherited).
  split; [exact Hbefore|]. split; [exact Hset|]. split; [exact (Hdown eq_refl)|].
  split; [exact (Hseen VNull eq_refl eq_refl)|exact (Hinherited VNull eq_refl eq_refl)].
Defined.

(** ** valueLoad and valueSave *)

Lemma append_cancel (s a b : string) : s +:+ a = s +:+ b -> a = b.
Proof.
  induction s as [|c s IH]; [intros H; exact H|].
  intros H. apply IH. change (String c (s +:+ a) = String c (s +:+ b)) in H.
  injection H as H. exact H.
Qed.

Lemma valueSave_given (fieldName : string) (given : value) (owner : app)
    (this : gmap string member) :
  given <> VUndef ->
  valueSave fieldName given owner this =
    Some (<[refDataField fieldName := Data given]> this,
          StorageSet (refStorageField owner fieldName) given).
Proof. intros Hgiven. destruct given; try reflexivity. contradiction. Qed.

(** X20.  A value given to [valueSave] is bound to the data member and
    handed to storage under the key of the field; when storage took it,
    [valueLoad] for the same field on another instance of the application
    asks for that key, and once answered the accessor returns the value. *)
Theorem valueSave_then_valueLoad (fieldName : string) (given : value) (owner restarted : app)
    (this fresh : gmap string member) (disk : gmap string value) :
  given <> VUndef ->
  appId restarted = appId owner ->
  let key := refStorageField owner fieldName in
  exists this',
    valueSave fieldName given owner this = Some (this', StorageSet key given)
    /\ this' !! refDataField fieldName = Some (Data given)
    /\ (valueLoad fieldName restarted fresh).2 = StorageGet key
    /\ let answer := Resolved (stored (written (StorageSet key given) disk) key) in
       let loaded := valueLoaded fieldName answer (valueLoad fieldName restarted fresh).1 in
       loaded.1 = Resolved tt
       /\ callAccessor loaded.2 (refMethod fieldName) = Some (Some (Data given)).
Proof.
  intros Hgiven Hid key. eexists. split; [exact (valueSave_given _ _ _ _ Hgiven)|].
  split; [apply lookup_insert_eq|]. split.
  - unfold valueLoad, refStorageField, key, refStorageField. cbn [snd]. rewrite Hid. reflexivity.
  - cbn [written]. unfold stored. rewrite lookup_insert_eq.
    cbn [default valueLoaded valueLoad fst snd].
    split; [reflexivity|]. unfold callAccessor.
    rewrite (read_own _ (refMethod fieldName) (Accessor (refDataField fieldName))).
    + rewrite (read_own _ (refDataField fieldName) (Data given)); [reflexivity|].
      apply lookup_insert_eq.
    + rewrite lookup_insert_ne by (apply not_eq_sym, refMethod_refDataField).
      apply lookup_insert_eq.
Qed.

Lemma valueSave_then_valueLoad_witness :
  let key := refStorageField newApp "Name" in
  exists this',
    valueSave "Name" (VStr "Ada") newApp constructed = Some (this', StorageSet key (VStr "Ada"))
    /\ this' !! refDataField "Name" = Some (Data (VStr "Ada"))
    /\ (valueLoad "Name" newApp constructed).2 = StorageGet key
    /\ let answer := Resolved (stored (written (StorageSet key (VStr "Ada")) ∅) key) in
       let loaded := valueLoaded "Name" answer (valueLoad "Name" newApp constructed).1 in
       loaded.1 = Resolved tt
       /\ callAccessor loaded.2 (refMethod "Name") = Some (Some (Data (VStr "Ada"))).
Proof.
  apply (valueSave_then_valueLoad "Name" (VStr "Ada") newApp newApp constructed constructed ∅).
  - discriminate.
  - reflexivity.
Defined.

(** X21.  [valueLoad] installs the accessor before storage answers: until
    then, and for good when storage fails, the accessor returns what the
    data member held before, which is nothing on a new instance.  A field
    that was never saved loads as [null], not as an empty list. *)
Theorem valueLoad_before_and_without_answer (fieldName : string) (owner : app)
    (this : gmap string member) :
  let started := (valueLoad fieldName owner this).1 in
  callAccessor started (refMethod fieldName) = Some (read this (refDataField fieldName))
  /\ (forall r, valueLoaded fieldName (Rejected r) started = (Rejected r, started))
  /\ (forall disk, disk !! refStorageField owner fieldName = None ->
        let answer := Resolved (stored disk (refStorageField owner fieldName)) in
        callAccessor (valueLoaded fieldName answer started).2 (refMethod fieldName)
        = Some (Some (Data VNull))).
Proof.
  intros started. unfold started, valueLoad. cbn [fst]. split; [|split].
  - unfold callAccessor.
    rewrite (read_own _ (refMethod fieldName) (Accessor (refDataField fieldName)))
      by apply lookup_insert_eq.
    f_equal. unfold read.
    rewrite lookup_insert_ne by apply refMethod_refDataField. reflexivity.
  - reflexivity.
  - intros disk Hnone. unfold stored. rewrite Hnone. cbn [default valueLoaded snd].
    unfold callAccessor.
    rewrite (read_own _ (refMethod fieldName) (Accessor (refDataField fieldName))).
    + rewrite (read_own _ (refDataField fieldName) (Data VNull)); [reflexivity|].
      apply lookup_insert_eq.
    + rewrite lookup_insert_ne by (apply not_eq_sym, refMethod_refDataField).
      apply lookup_insert_eq.
Qed.

(** X22.  [valueSave] without a value saves what is bound.  After [dc] has
    loaded the rows of a field, it hands exactly these rows to storage and
    leaves the instance as it is.  On an instance the constructor has just
    made it binds [undefined] and hands it to storage, for every field name
    but "collections": the data member of that name is the list the
    constructor leaves in [this.datacollections], and this list is what is
    saved. *)
Theorem valueSave_without_value_saves_current
    (application : string -> option collection) (id fieldName : string) (rows : value)
    (owner : app) (this : gmap string member) :
  (let loaded := (dcLoaded fieldName (Resolved rows) (dc application id fieldName this).2).2 in
   valueSave fieldName VUndef owner loaded
   = Some (loaded, StorageSet (refStorageField owner fieldName) rows))
  /\ valueSave fieldName VUndef owner constructed
     = if String.eqb fieldName "collections"
       then Some (constructed, StorageSet (refStorageField owner fieldName) (VArr []))
       else Some (<[refDataField fieldName := Data VUndef]> constructed,
                  StorageSet (refStorageField owner fieldName) VUndef).
Proof.
  split.
  - cbn [dcLoaded snd]. cbv zeta. unfold valueSave, currentData.
    rewrite (read_own _ (refDataField fieldName) (Data rows)) by apply lookup_insert_eq.
    cbn [mbind option_bind]. rewrite insert_insert_eq. reflexivity.
  - destruct (String.eqb_spec fieldName "collections") as [->|Hother].
    + unfold valueSave, currentData, read, constructed.
      change (refDataField "collections") with "datacollections".
      rewrite lookup_singleton_eq. cbn [mbind option_bind].
      rewrite insert_singleton_eq. reflexivity.
    + unfold valueSave, currentData, read, constructed.
      rewrite lookup_singleton_ne.
      * rewrite bool_decide_eq_false_2; [reflexivity|].
        intros Hin. apply list_elem_of_In in Hin. unfold refDataField in Hin.
        vm_compute in Hin. intuition discriminate.
      * intros Hsame. apply Hother. apply refDataField_inj. symmetry. exact Hsame.
Qed.

Lemma refStorageField_refMarkers (owner : app) (f : string) :
  refStorageField owner f = refMarkers owner <-> f = "Markers".
Proof.
  unfold refStorageField, refMarkers. split.
  - intros H. apply append_cancel in H.
    change (String "-" f = String "-" "Markers") in H. injection H as H. exact H.
  - intros ->. reflexivity.
Qed.

(** X23.  The fields share the name space of storage with the markers: a
    value saved for a field is what the next [init] loads as the markers
    exactly when the field is called "Markers", and then it replaces the
    marker set as it is (an empty object standing in for a falsy value). *)
Theorem valueSave_reaches_markers_by_name (fieldName : string) (given : value) (owner : app)
    (this : gmap string member) (disk : gmap string value) (page : value)
    (remote local : settled unit) (remoteFirst elapses : bool) :
  given <> VUndef ->
  exists this' a,
    valueSave fieldName given owner this = Some (this', a)
    /\ _markers (final (initRun page
                          (environmentOn (written a disk) owner remote local remoteFirst elapses)
                          owner))
       = if String.eqb fieldName "Markers" then orElse given (VObj [])
         else orElse (stored disk (refMarkers owner)) (VObj []).
Proof.
  intros Hgiven. eexists _, _. split; [exact (valueSave_given _ _ _ _ Hgiven)|].
  erewrite init_leaves_markers by (cbn [environmentOn markersLoad]; reflexivity).
  cbn [written]. unfold stored.
  destruct (String.eqb_spec fieldName "Markers") as [->|Hne].
  - rewrite (proj2 (refStorageField_refMarkers owner "Markers") eq_refl).
    rewrite lookup_insert_eq. reflexivity.
  - rewrite lookup_insert_ne; [reflexivity|].
    intros H. apply refStorageField_refMarkers in H. contradiction.
Qed.

Lemma valueSave_reaches_markers_by_name_witness :
  exists this' a,
    valueSave "Markers" (VNum 7) newApp constructed = Some (this', a)
    /\ _markers (final (initRun VUndef
                          (environmentOn (written a ∅) newApp (Resolved tt) (Resolved tt)
                             true false)
                          newApp))
       = if String.eqb "Markers" "Markers" then orElse (VNum 7) (VObj [])
         else orElse (stored ∅ (refMarkers newApp)) (VObj []).
Proof.
  apply (valueSave_reaches_markers_by_name "Markers" (VNum 7) newApp constructed ∅ VUndef
           (Resolved tt) (Resolved tt) true false).
  discriminate.
Defined.

(** ** lookupData *)

Lemma refObj_refDataField (f g : string) : refObj f <> refDataField g.
Proof. unfold refObj, refDataField. simpl. intros H. inversion H. Qed.

Lemma refObj_refMethod (f g : string) : refObj f <> refMethod g.
Proof. unfold refObj, refMethod. simpl. intros H. inversion H. Qed.

Lemma refObj_refMethodRefresh (f g : string) : refObj f <> refMethodRefresh g.
Proof. unfold refObj, refMethodRefresh. simpl. intros H. inversion H. Qed.

Lemma refMethodRefresh_refDataField (f g : string) : refMethodRefresh f <> refDataField g.
Proof. unfold refMethodRefresh, refDataField. simpl. intros H. inversion H. Qed.

Lemma refMethodRefresh_refMethod (f g : string) : refMethodRefresh f <> refMethod g.
Proof. unfold refMethodRefresh, refMethod. simpl. intros H. inversion H. Qed.

Lemma readSlot_own (this : gmap string slot) (name : string) (s : slot) :
  this !! name = Some s -> readSlot this name = Some s.
Proof. intros H. unfold readSlot. rewrite H. reflexivity. Qed.

(** What a call of [lookupData] leaves under the four names of the field. *)
Lemma lookupData_members (application : string -> option object) (id fieldName : string)
    (this : gmap string slot) :
  let this' := (lookupData application id fieldName this).2 in
  this' !! refDataField fieldName = Some (Held (Data (VArr [])))
  /\ this' !! refMethod fieldName = Some (Held (Accessor (refDataField fieldName)))
  /\ this' !! refMethodRefresh fieldName = Some (Refresh id fieldName)
  /\ this' !! refObj fieldName =
       if presentSlot (readSlot this (refObj fieldName)) then this !! refObj fieldName
       else Some match objByID application id with
                 | Some o => Object o
                 | None => Held (Data VUndef)
                 end.
Proof.
  unfold lookupData. cbn [snd]. cbv zeta. repeat split.
  - rewrite lookup_insert_ne by apply refMethodRefresh_refDataField.
    rewrite lookup_insert_ne by apply refMethod_refDataField. apply lookup_insert_eq.
  - rewrite lookup_insert_ne by apply refMethodRefresh_refMethod. apply lookup_insert_eq.
  - apply lookup_insert_eq.
  - rewrite lookup_insert_ne by (apply not_eq_sym, refObj_refMethodRefresh).
    rewrite lookup_insert_ne by (apply not_eq_sym, refObj_refMethod).
    rewrite lookup_insert_ne by (apply not_eq_sym, refObj_refDataField).
    destruct (presentSlot _); [reflexivity|apply lookup_insert_eq].
Qed.

Lemma lookupData_accessor (application : string -> option object) (id fieldName : string)
    (this : gmap string slot) :
  callSlotAccessor (lookupData application id fieldName this).2 (refMethod fieldName)
  = Some (Some (Held (Data (VArr [])))).
Proof.
  destruct (lookupData_members application id fieldName this) as (Hdata & Hmethod & _).
  unfold callSlotAccessor. rewrite (readSlot_own _ _ _ Hmethod), (readSlot_own _ _ _ Hdata).
  reflexivity.
Qed.

(** X24.  [lookupData] with an id the application does not know returns a
    promise that the executor rejects with a TypeError; by then the data
    member is an empty list behind its accessor, and the object member is
    [undefined], so that a later call with an id that is known binds its
    object and loads from it. *)
Theorem lookupData_unknown_id (application later : string -> option object)
    (id id' fieldName : string) (this : gmap string slot) (o : object) :
  objByID application id = None ->
  presentSlot (readSlot this (refObj fieldName)) = false ->
  objByID later id' = Some o ->
  let failed := lookupData application id fieldName this in
  failed.1 = LookupRejected (Thrown TypeError)
  /\ callSlotAccessor failed.2 (refMethod fieldName) = Some (Some (Held (Data (VArr []))))
  /\ failed.2 !! refObj fieldName = Some (Held (Data VUndef))
  /\ (lookupData later id' fieldName failed.2).1 = LookupFindAll o
  /\ (lookupData later id' fieldName failed.2).2 !! refObj fieldName = Some (Object o).
Proof.
  intros Hunknown Hfree Hknown failed.
  destruct (lookupData_members application id fieldName this) as (_ & _ & _ & Hobj).
  fold failed in Hobj. rewrite Hfree, Hunknown in Hobj.
  split; [unfold failed, lookupData; rewrite Hunknown; reflexivity|].
  split; [apply lookupData_accessor|]. split; [exact Hobj|].
  split; [unfold lookupData; rewrite Hknown; reflexivity|].
  destruct (lookupData_members later id' fieldName failed.2) as (_ & _ & _ & Hobj').
  rewrite Hobj'. rewrite (readSlot_own _ _ _ Hobj). cbn [presentSlot present truthy].
  rewrite Hknown. reflexivity.
Qed.

Lemma lookupData_unknown_id_witness :
  let failed := lookupData oneObject "nobody" "Countries" ∅ in
  failed.1 = LookupRejected (Thrown TypeError)
  /\ callSlotAccessor failed.2 (refMethod "Countries") = Some (Some (Held (Data (VArr []))))
  /\ failed.2 !! refObj "Countries" = Some (Held (Data VUndef))
  /\ (lookupData oneObject "obj1" "Countries" failed.2).1 = LookupFindAll 0
  /\ (lookupData oneObject "obj1" "Countries" failed.2).2 !! refObj "Countries"
     = Some (Object 0).
Proof.
  apply (lookupData_unknown_id oneObject oneObject "nobody" "obj1" "Countries" ∅ 0);
    reflexivity.
Defined.

(** X25.  Unlike [dc], [lookupData] loads from the object it has just found
    for the id it was given, not from the object bound to the field: a
    second call for the field with another id loads from the other object,
    while the object member stays the one bound first; and the refresh
    method then repeats the second call. *)
Theorem lookupData_loads_from_the_object_of_the_call
    (application later : string -> option object) (id id' fieldName : string)
    (this : gmap string slot) (o o' : object) :
  presentSlot (readSlot this (refObj fieldName)) = false ->
  objByID application id = Some o ->
  objByID later id' = Some o' ->
  let first := lookupData application id fieldName this in
  let second := lookupData later id' fieldName first.2 in
  first.1 = LookupFindAll o
  /\ first.2 !! refObj fieldName = Some (Object o)
  /\ second.1 = LookupFindAll o'
  /\ second.2 !! refObj fieldName = Some (Object o)
  /\ callRefresh later second.2 (refMethodRefresh fieldName)
     = Some (lookupData later id' fieldName second.2).
Proof.
  intros Hfree Hfirst Hsecond first second.
  destruct (lookupData_members application id fieldName this) as (_ & _ & _ & Hobj).
  fold first in Hobj. rewrite Hfree, Hfirst in Hobj.
  destruct (lookupData_members later id' fieldName first.2) as (_ & _ & Hrefresh & Hobj').
  fold second in Hobj', Hrefresh.
  rewrite (readSlot_own _ _ _ Hobj) in Hobj'. cbn [presentSlot] in Hobj'.
  split; [unfold first, lookupData; rewrite Hfirst; reflexivity|].
  split; [exact Hobj|].
  split; [unfold second, lookupData; rewrite Hsecond; reflexivity|].
  split; [rewrite Hobj'; exact Hobj|].
  unfold callRefresh. rewrite (readSlot_own _ _ _ Hrefresh). reflexivity.
Qed.

Lemma lookupData_loads_from_the_object_of_the_call_witness :
  let first := lookupData twoObjects "obj1" "Countries" ∅ in
  let second := lookupData twoObjects "obj2" "Countries" first.2 in
  first.1 = LookupFindAll 0
  /\ first.2 !! refObj "Countries" = Some (Object 0)
  /\ second.1 = LookupFindAll 1
  /\ second.2 !! refObj "Countries" = Some (Object 0)
  /\ callRefresh twoObjects second.2 (refMethodRefresh "Countries")
     = Some (lookupData twoObjects "obj2" "Countries" second.2).
Proof.
  apply (lookupData_loads_from_the_object_of_the_call twoObjects twoObjects "obj1" "obj2"
           "Countries" ∅ 0 1); reflexivity.
Defined.

(** X26.  When the local [findAll] resolves, the entries are bound to the
    data member, an empty list standing in for a falsy answer, and the
    promise resolves.  When it rejects, nothing handles the rejection: the
    promise of [lookupData] stays pending and the accessor keeps returning
    the empty list. *)
Theorem lookupData_load_settles_only_on_success
    (application : string -> option object) (id fieldName : string)
    (this : gmap string slot) (found : settled value) :
  let started := (lookupData application id fieldName this).2 in
  match found with
  | Resolved listEntries =>
      (lookupLoaded fieldName found started).1 = Some (Resolved tt)
      /\ callSlotAccessor (lookupLoaded fieldName found started).2 (refMethod fieldName)
         = Some (Some (Held (Data (if truthy listEntries then listEntries else VArr []))))
  | Rejected _ =>
      lookupLoaded fieldName found started = (None, started)
      /\ callSlotAccessor started (refMethod fieldName)
         = Some (Some (Held (Data (VArr []))))
  end.
Proof.
  intros started. destruct found as [listEntries|r].
  - split; [reflexivity|]. cbn [lookupLoaded snd]. unfold callSlotAccessor.
    destruct (lookupData_members application id fieldName this) as (_ & Hmethod & _).
    fold started in Hmethod.
    rewrite (readSlot_own _ (refMethod fieldName)
               (Held (Accessor (refDataField fieldName)))).
    + rewrite (readSlot_own _ (refDataField fieldName)
                 (Held (Data (orElse listEntries (VArr []))))); [reflexivity|].
      apply lookup_insert_eq.
    + rewrite lookup_insert_ne by (apply not_eq_sym, refMethod_refDataField).
      exact Hmethod.
  - split; [reflexivity|]. apply lookupData_accessor.
Qed.

(** ** ABModelRelay *)

Lemma relay_findAll_keeps_context (cond : value) (answer : settled unit)
    (this : ABModelRelay.relay) :
  truthy (ABModelRelay.verb (ABModelRelay.responseContext this)) = true ->
  ABModelRelay.responseContext (ABModelRelay.findAll cond answer this).2
  = ABModelRelay.responseContext this.
Proof.
  intros Hverb. unfold ABModelRelay.findAll, orElse. cbn [snd ABModelRelay.responseContext].
  rewrite Hverb. destruct (ABModelRelay.responseContext this). reflexivity.
Qed.

(** While the verb of the context is truthy, a series of [findAll] calls
    leaves the context as it is and sends one request each, with it. *)
Lemma relay_finds_keep_context (finds : list ABModelRelay.call) (this : ABModelRelay.relay) :
  forallb ABModelRelay.isFindAll finds = true ->
  truthy (ABModelRelay.verb (ABModelRelay.responseContext this)) = true ->
  ABModelRelay.responseContext (ABModelRelay.handled finds this)
  = ABModelRelay.responseContext this
  /\ exists gets,
       ABModelRelay.sent (ABModelRelay.handled finds this) = ABModelRelay.sent this ++ gets
       /\ length gets = length finds
       /\ Forall (fun r => ABModelRelay.sentWith r = ABModelRelay.responseContext this) gets.
Proof.
  revert this. induction finds as [|c finds IH]; intros this Hfinds Hverb.
  - split; [reflexivity|]. exists []. rewrite app_nil_r. repeat split. constructor.
  - cbn [forallb] in Hfinds. apply andb_prop in Hfinds as [Hc Hfinds].
    destruct c as [| |cond answer|]; try discriminate Hc.
    change (ABModelRelay.handled (ABModelRelay.FindAll cond answer :: finds) this)
      with (ABModelRelay.handled finds (ABModelRelay.findAll cond answer this).2).
    pose proof (relay_findAll_keeps_context cond answer this Hverb) as Hkept.
    destruct (IH (ABModelRelay.findAll cond answer this).2 Hfinds)
      as (Hctx & gets & Hsent & Hlen & Hall).
    { rewrite Hkept. exact Hverb. }
    rewrite Hkept in Hctx, Hall. split; [exact Hctx|].
    exists (ABModelRelay.NetworkGet (orElse cond (VObj [])) (ABModelRelay.responseContext this)
            :: gets).
    split; [|split].
    + rewrite Hsent. unfold ABModelRelay.findAll at 1.
      cbn [snd ABModelRelay.sent]. rewrite <- app_assoc. cbn [List.app].
      unfold ABModelRelay.findAll in Hkept. cbn [snd ABModelRelay.responseContext] in Hkept.
      rewrite Hkept. reflexivity.
    + cbn [length]. rewrite Hlen. reflexivity.
    + constructor; [reflexivity|exact Hall].
Qed.

(** X27.  The context is one object that every call writes, and [findAll]
    writes the verb "find" only where it finds none.  So after a [create],
    an [update] or a [delete] with an id, every [findAll] sends its request
    with the verb of that call, not with "find"; on a context without a verb
    the first [findAll] sets "find" and the following ones keep it. *)
Theorem findAll_sends_the_verb_it_finds (c : ABModelRelay.call)
    (finds : list ABModelRelay.call) (this : ABModelRelay.relay) :
  ABModelRelay.requests c = true ->
  forallb ABModelRelay.isFindAll finds = true ->
  let before := (ABModelRelay.handle c this).2 in
  let after := ABModelRelay.handled finds before in
  ABModelRelay.responseContext after = ABModelRelay.responseContext before
  /\ ABModelRelay.verb (ABModelRelay.responseContext before)
     = match c with
       | ABModelRelay.Create _ _ => VStr "create"
       | ABModelRelay.Delete _ _ => VStr "delete"
       | ABModelRelay.Update _ _ _ => VStr "update"
       | ABModelRelay.FindAll _ _ =>
           orElse (ABModelRelay.verb (ABModelRelay.responseContext this)) (VStr "find")
       end
  /\ exists gets,
       ABModelRelay.sent after = ABModelRelay.sent before ++ gets
       /\ length gets = length finds
       /\ Forall (fun r => ABModelRelay.sentWith r = ABModelRelay.responseContext before) gets.
Proof.
  intros Hrequests Hfinds before after.
  assert (ABModelRelay.verb (ABModelRelay.responseContext before)
          = match c with
            | ABModelRelay.Create _ _ => VStr "create"
            | ABModelRelay.Delete _ _ => VStr "delete"
            | ABModelRelay.Update _ _ _ => VStr "update"
            | ABModelRelay.FindAll _ _ =>
                orElse (ABModelRelay.verb (ABModelRelay.responseContext this)) (VStr "find")
            end) as Hverb.
  { unfold before. destruct c as [values answer|id answer|cond answer|id values answer];
      try reflexivity.
    cbn [ABModelRelay.requests] in Hrequests. cbn [ABModelRelay.handle].
    unfold ABModelRelay.delete. rewrite Hrequests. reflexivity. }
  assert (truthy (ABModelRelay.verb (ABModelRelay.responseContext before)) = true) as Htruthy.
  { rewrite Hverb. destruct c; try reflexivity. unfold orElse.
    destruct (truthy (ABModelRelay.verb (ABModelRelay.responseContext this))) eqn:E;
      [exact E|reflexivity]. }
  destruct (relay_finds_keep_context finds before Hfinds Htruthy) as (Hctx & Hgets).
  split; [exact Hctx|]. split; [exact Hverb|exact Hgets].
Qed.

Lemma findAll_sends_the_verb_it_finds_witness :
  let c := ABModelRelay.Create (VObj [("name", VStr "Ada")]) (Resolved tt) in
  let finds := [ABModelRelay.FindAll VUndef (Resolved tt)] in
  let before := (ABModelRelay.handle c newRelay).2 in
  let after := ABModelRelay.handled finds before in
  ABModelRelay.responseContext after = ABModelRelay.responseContext before
  /\ ABModelRelay.verb (ABModelRelay.responseContext before) = VStr "create"
  /\ exists gets,
       ABModelRelay.sent after = ABModelRelay.sent before ++ gets
       /\ length gets = length finds
       /\ Forall (fun r => ABModelRelay.sentWith r = ABModelRelay.responseContext before) gets.
Proof.
  apply (findAll_sends_the_verb_it_finds
           (ABModelRelay.Create (VObj [("name", VStr "Ada")]) (Resolved tt))
           [ABModelRelay.FindAll VUndef (Resolved tt)] newRelay); reflexivity.
Defined.

Lemma relay_handle_keeps_pk (c : ABModelRelay.call) (this : ABModelRelay.relay) :
  ABModelRelay.deletes c = false ->
  ABModelRelay.pk (ABModelRelay.responseContext (ABModelRelay.handle c this).2)
  = ABModelRelay.pk (ABModelRelay.responseContext this)
  /\ exists more,
       ABModelRelay.sent (ABModelRelay.handle c this).2 = ABModelRelay.sent this ++ more
       /\ Forall (fun r => ABModelRelay.pk (ABModelRelay.sentWith r)
                           = ABModelRelay.pk (ABModelRelay.responseContext this)) more.
Proof.
  intros Hc. destruct c as [values answer|id answer|cond answer|id values answer];
    cbn [ABModelRelay.handle].
  - split; [reflexivity|]. eexists. split; [reflexivity|]. repeat constructor.
  - cbn [ABModelRelay.deletes] in Hc. unfold ABModelRelay.delete. rewrite Hc.
    split; [reflexivity|]. exists []. rewrite app_nil_r. split; [reflexivity|constructor].
  - split; [reflexivity|]. eexists. split; [reflexivity|]. repeat constructor.
  - split; [reflexivity|]. eexists. split; [reflexivity|]. repeat constructor.
Qed.

Lemma relay_handled_keeps_pk (calls : list ABModelRelay.call) (this : ABModelRelay.relay) :
  forallb (fun c => negb (ABModelRelay.deletes c)) calls = true ->
  ABModelRelay.pk (ABModelRelay.responseContext (ABModelRelay.handled calls this))
  = ABModelRelay.pk (ABModelRelay.responseContext this)
  /\ exists more,
       ABModelRelay.sent (ABModelRelay.handled calls this) = ABModelRelay.sent this ++ more
       /\ Forall (fun r => ABModelRelay.pk (ABModelRelay.sentWith r)
                           = ABModelRelay.pk (ABModelRelay.responseContext this)) more.
Proof.
  revert this. induction calls as [|c calls IH]; intros this Hcalls.
  - split; [reflexivity|]. exists []. rewrite app_nil_r. split; [reflexivity|constructor].
  - cbn [forallb] in Hcalls. apply andb_prop in Hcalls as [Hc Hcalls].
    apply negb_true_iff in Hc.
    change (ABModelRelay.handled (c :: calls) this)
      with (ABModelRelay.handled calls (ABModelRelay.handle c this).2).
    destruct (relay_handle_keeps_pk c this Hc) as (Hpk & first & Hfirst & Hall).
    destruct (IH (ABModelRelay.handle c this).2 Hcalls) as (Hpk' & more & Hmore & Hall').
    rewrite Hpk in Hpk', Hall'. split; [exact Hpk'|].
    exists (first ++ more). split.
    + rewrite Hmore, Hfirst, app_assoc. reflexivity.
    + apply Forall_app. split; assumption.
Qed.

(** X28.  A [delete] with an id leaves the id in the context, where no
    other method clears it: until the next such [delete], every request,
    whatever its verb, is sent with that id as [pk].  A [delete] without an
    id sends nothing, leaves the context alone and resolves with an empty
    list without asking [Network]. *)
Theorem delete_leaves_its_id_in_the_context (id : value) (answer : settled unit)
    (others : list ABModelRelay.call) (this : ABModelRelay.relay) :
  truthy id = true ->
  forallb (fun c => negb (ABModelRelay.deletes c)) others = true ->
  let before := (ABModelRelay.delete id answer this).2 in
  let after := ABModelRelay.handled others before in
  ABModelRelay.responseContext before
  = {| ABModelRelay.verb := VStr "delete"; ABModelRelay.pk := id |}
  /\ ABModelRelay.pk (ABModelRelay.responseContext after) = id
  /\ (exists more,
        ABModelRelay.sent after = ABModelRelay.sent before ++ more
        /\ Forall (fun r => ABModelRelay.pk (ABModelRelay.sentWith r) = id) more)
  /\ forall id' answer',
       truthy id' = false ->
       ABModelRelay.delete id' answer' after = (Resolved (VArr []), after).
Proof.
  intros Hid Hothers before after.
  assert (ABModelRelay.responseContext before
          = {| ABModelRelay.verb := VStr "delete"; ABModelRelay.pk := id |}) as Hbefore.
  { unfold before, ABModelRelay.delete. rewrite Hid. reflexivity. }
  destruct (relay_handled_keeps_pk others before Hothers) as (Hpk & Hmore).
  rewrite Hbefore in Hpk, Hmore. cbn [ABModelRelay.pk] in Hpk, Hmore.
  split; [exact Hbefore|]. split; [exact Hpk|]. split; [exact Hmore|].
  intros id' answer' Hnone. unfold ABModelRelay.delete. rewrite Hnone. reflexivity.
Qed.

Lemma delete_leaves_its_id_in_the_context_witness :
  let others := [ABModelRelay.Update (VNum 8) (VObj []) (Resolved tt);
                 ABModelRelay.FindAll VUndef (Resolved tt);
                 ABModelRelay.Delete VNull (Resolved tt)] in
  let before := (ABModelRelay.delete (VNum 7) (Resolved tt) newRelay).2 in
  let after := ABModelRelay.handled others before in
  ABModelRelay.responseContext before
  = {| ABModelRelay.verb := VStr "delete"; ABModelRelay.pk := VNum 7 |}
  /\ ABModelRelay.pk (ABModelRelay.responseContext after) = VNum 7
  /\ (exists more,
        ABModelRelay.sent after = ABModelRelay.sent before ++ more
        /\ Forall (fun r => ABModelRelay.pk (ABModelRelay.sentWith r) = VNum 7) more)
  /\ forall id' answer',
       truthy id' = false ->
       ABModelRelay.delete id' answer' after = (Resolved (VArr []), after).
Proof.
  apply (delete_leaves_its_id_in_the_context (VNum 7) (Resolved tt)
           [ABModelRelay.Update (VNum 8) (VObj []) (Resolved tt);
            ABModelRelay.FindAll VUndef (Resolved tt);
            ABModelRelay.Delete VNull (Resolved tt)] newRelay); reflexivity.
Defined.

(** X29.  Before anything is sent, [update] removes from the values every
    property that holds [null] or [undefined] and no other (a zero, an empty
    string and [false] stay), keeping the order of the rest; and [create]
    makes sure the values hold something under the name of the UUID field:
    what they held there when it was truthy, else a new uuid, every other
    property staying as it was. *)
Theorem relay_values_before_sending
    (prepareMultilingualData : value -> result value) (fieldUUID : value -> string)
    (uuid values : value) (fields : list (string * value)) :
  prepareMultilingualData values = Ok (VObj fields) ->
  (exists kept,
     ABModelRelay.updateValues prepareMultilingualData values = Some (Ok (VObj kept))
     /\ kept = List.filter (fun p => defined p.2) fields
     /\ (forall p, In p kept <-> In p fields /\ defined p.2 = true)
     /\ Forall (fun p => defined p.2 = true) kept)
  /\ exists fields',
       ABModelRelay.createValues prepareMultilingualData fieldUUID uuid values
       = Some (Ok (VObj fields'))
       /\ (forall k, k <> fieldUUID (VObj fields) -> own k fields' = own k fields)
       /\ (truthyAt (VObj fields) (fieldUUID (VObj fields)) = Some (Ok true) ->
           fields' = fields)
       /\ (truthy uuid = true ->
           truthyAt (VObj fields') (fieldUUID (VObj fields)) = Some (Ok true)).
Proof.
  intros Hprepared. split.
  - eexists. split; [unfold ABModelRelay.updateValues; rewrite Hprepared; reflexivity|].
    split; [reflexivity|]. split.
    + intros p. rewrite filter_In. reflexivity.
    + apply List.Forall_forall. intros p Hp. apply filter_In in Hp. apply Hp.
  - unfold ABModelRelay.createValues. rewrite Hprepared.
    set (UUID := fieldUUID (VObj fields)). cbn [truthyAt mbind option_bind].
    destruct (own UUID fields) as [x|] eqn:Hown.
    + destruct (truthy x) eqn:Hx.
      * exists fields. split; [reflexivity|]. repeat split; try reflexivity.
        intros _. cbn [truthyAt]. rewrite Hown, Hx. reflexivity.
      * unfold assign, assignField. rewrite Hown. cbn [mbind option_bind].
        eexists. split; [reflexivity|]. split; [|split].
        -- intros k Hk. apply own_replaceField_other. exact Hk.
        -- discriminate.
        -- intros Huuid. cbn [truthyAt]. rewrite (own_replaceField UUID uuid x fields Hown).
           rewrite Huuid. reflexivity.
    + destruct (bool_decide (UUID ∈ objectPrototype)) eqn:Hinherited.
      * exists fields. split; [reflexivity|]. repeat split; try reflexivity.
        intros _. cbn [truthyAt]. rewrite Hown. reflexivity.
      * assert (String.eqb UUID "__proto__" = false) as Hproto.
        { apply String.eqb_neq. intros E. rewrite E in Hinherited.
          vm_compute in Hinherited. discriminate Hinherited. }
        destruct (assignField UUID uuid fields) as [fields'|] eqn:Hassign.
        -- exists fields'. unfold assign. rewrite Hassign. split; [reflexivity|].
           split; [|split].
           ++ intros k Hk. exact (own_assignField_other _ _ _ _ _ Hassign Hk).
           ++ discriminate.
           ++ intros Huuid. cbn [truthyAt].
              destruct (own_assignField _ _ _ _ Hassign) as [->|(E & _)].
              ** rewrite Huuid. reflexivity.
              ** rewrite E in Hproto. discriminate Hproto.
        -- exfalso. unfold assignField in Hassign. rewrite Hown, Hproto in Hassign.
           discriminate Hassign.
Qed.

Lemma relay_values_before_sending_witness :
  let prepare := fun values : value => Ok values in
  let fieldUUID := fun _ : value => "uuid" in
  let fields := [("name", VStr "Ada"); ("age", VNull); ("rank", VNum 0)] in
  (exists kept,
     ABModelRelay.updateValues prepare (VObj fields) = Some (Ok (VObj kept))
     /\ kept = List.filter (fun p => defined p.2) fields
     /\ (forall p, In p kept <-> In p fields /\ defined p.2 = true)
     /\ Forall (fun p => defined p.2 = true) kept)
  /\ exists fields',
       ABModelRelay.createValues prepare fieldUUID (VStr "u-1") (VObj fields)
       = Some (Ok (VObj fields'))
       /\ (forall k, k <> fieldUUID (VObj fields) -> own k fields' = own k fields)
       /\ (truthyAt (VObj fields) (fieldUUID (VObj fields)) = Some (Ok true) ->
           fields' = fields)
       /\ (truthy (VStr "u-1") = true ->
           truthyAt (VObj fields') (fieldUUID (VObj fields)) = Some (Ok true)).
Proof.
  apply (relay_values_before_sending (fun values : value => Ok values)
           (fun _ : value => "uuid") (VStr "u-1")
           (VObj [("name", VStr "Ada"); ("age", VNull); ("rank", VNum 0)])).
  reflexivity.
Defined.

(** ** initResources *)

Lemma describe_reportable (err : value) :
  defined err = true -> exists text, initResources.describe err = Ok text.
Proof.
  intros Hdef. unfold initResources.describe.
  destruct (get_defined err "message" Hdef) as [message ->].
  destruct (get_defined err "stack" Hdef) as [stack ->]. eexists. reflexivity.
Qed.

Lemma describe_undescribable (err : value) :
  defined err = false -> initResources.describe err = Throw TypeError.
Proof. destruct err; intros H; try discriminate H; reflexivity. Qed.

Lemma alerts_app (before after : list initResources.step) :
  initResources.alerts (before ++ after)
  = initResources.alerts before ++ initResources.alerts after.
Proof. apply omap_app. Qed.

Lemma attempt_cases (start : initResources.step) (thrown : option value) (title : string) :
  (initResources.reportable thrown = true
   /\ exists trail,
        initResources.attempt start thrown title = (start :: trail, Ok tt)
        /\ initResources.alerts trail = match thrown with
                                        | Some _ => [title]
                                        | None => []
                                        end
        /\ ~ initResources.NotificationsInit ∈ trail)
  \/ (initResources.reportable thrown = false
      /\ exists err,
           initResources.attempt start thrown title
           = ([start; initResources.ConsoleLog err], Throw TypeError)).
Proof.
  unfold initResources.attempt. destruct thrown as [err|]; cbn [initResources.reportable].
  - destruct (defined err) eqn:Hdef.
    + left. split; [reflexivity|]. destruct (describe_reportable err Hdef) as [text ->].
      eexists. split; [reflexivity|]. split; [reflexivity|].
      intros H. apply list_elem_of_In in H. cbn [In] in H. intuition discriminate.
    + right. split; [reflexivity|]. rewrite (describe_undescribable err Hdef). eauto.
  - left. split; [reflexivity|]. exists []. split; [reflexivity|]. split; [reflexivity|].
    intros H. inversion H.
Qed.

Lemma startTimeout_result (config : value) :
  match initResources.startTimeout config with
  | Ok third =>
      initResources.configured config = true
      /\ initResources.alerts third = []
      /\ ~ initResources.NotificationsInit ∈ third
  | Throw e => e = TypeError /\ initResources.configured config = false
  end.
Proof.
  unfold initResources.startTimeout, initResources.configured.
  destruct (get config "backgroundTimeout") as [section|[]] eqn:Hsection;
    cbn [mbind result_bind]; [|split; reflexivity].
  destruct (defined section) eqn:Hdef.
  - destruct (get_defined section "enabled" Hdef) as [enabled ->].
    destruct (get_defined section "duration" Hdef) as [duration ->].
    cbn [mbind result_bind]. destruct (truthy enabled); cbn [mbind result_bind].
    + split; [reflexivity|]. split; [reflexivity|].
      intros H. apply list_elem_of_In in H. cbn [In] in H. intuition discriminate.
    + split; [reflexivity|]. split; [reflexivity|]. intros H. inversion H.
  - destruct section; try discriminate Hdef; split; reflexivity.
Qed.

